(** * XZZPCB decoder: a shallow embedding of raw_parser.js and part_data_parser.js

    The development follows the two JavaScript classes of the layer
    renderer: [RawPCBParser] (the outer stream decoder: XOR pass, file
    header, tagged main blocks) and [PartDataParser] (the walker of a
    decrypted DATA payload).  Both are mutable objects whose methods
    throw [RangeError] when a [DataView] read leaves the buffer, so the
    methods are written in a state monad that keeps the object state
    also when an exception is thrown. *)

From Stdlib Require Import ZArith Lia Bool List.
From Stdlib Require Import Strings.Byte.
From stdpp Require Import base list.
Import ListNotations.
Local Open Scope Z_scope.

(** ** Bytes and numbers *)

(** The numeric value of a byte, as [DataView.getUint8] returns it. *)
Definition u8 (b : byte) : Z := Z.of_N (Byte.to_N b).

(** The conversion [setUint8] and typed arrays apply to a number: modulo 2^8. *)
Definition to_u8 (z : Z) : byte :=
  match Byte.of_N (Z.to_N (z mod 256)) with
  | Some b => b
  | None => x00
  end.

Definition bytes_of (l : list Z) : list byte := map to_u8 l.

(** Little-endian image of an unsigned 32-bit number (used to build inputs). *)
Definition le32 (v : Z) : list byte :=
  bytes_of [Z.land v 255; Z.land (Z.shiftr v 8) 255;
            Z.land (Z.shiftr v 16) 255; Z.land (Z.shiftr v 24) 255].

(** ** Exceptions and the state monad of the two parser objects *)

Inductive exn : Type :=
| RangeError   (* thrown by DataView accessors and typed-array constructors *)
| Error.       (* stands for whatever decryptWithDES throws; its caller catches it *)

(** How a call ends.  [OutOfFuel] belongs to the model only: the [while]
    loops are written with a bound on their rounds, and [OutOfFuel] is
    what a loop would answer if the bound were too small.  The bounds
    chosen are shown below to be large enough. *)
Inductive outcome (A : Type) : Type :=
| Ret (a : A)
| Throw (e : exn)
| OutOfFuel.
Arguments Ret {A} a.
Arguments Throw {A} e.
Arguments OutOfFuel {A}.

Definition M (S A : Type) : Type := S -> outcome A * S.

Definition ret {S A} (a : A) : M S A := fun s => (Ret a, s).

Definition bind {S A B} (m : M S A) (k : A -> M S B) : M S B :=
  fun s =>
    match m s with
    | (Ret a, s') => k a s'
    | (Throw e, s') => (Throw e, s')
    | (OutOfFuel, s') => (OutOfFuel, s')
    end.

Definition lift {S A} (o : outcome A) : M S A := fun s => (o, s).
Definition get {S} : M S S := fun s => (Ret s, s).
Definition modify {S} (f : S -> S) : M S unit := fun s => (Ret tt, f s).
Definition out_of_fuel {S A} : M S A := fun s => (OutOfFuel, s).

(** [try { m } catch (error) { handler }] *)
Definition try_catch {S A} (m : M S A) (handler : exn -> M S A) : M S A :=
  fun s =>
    match m s with
    | (Throw e, s') => handler e s'
    | r => r
    end.

Definition obind {A B} (o : outcome A) (k : A -> outcome B) : outcome B :=
  match o with
  | Ret a => k a
  | Throw e => Throw e
  | OutOfFuel => OutOfFuel
  end.

Declare Scope js_scope.
Delimit Scope js_scope with js.
Notation "x <- m ;; k" := (bind m (fun x => k))
  (at level 100, m at next level, right associativity) : js_scope.
Notation "m ;; k" := (bind m (fun _ => k))
  (at level 100, right associativity) : js_scope.
Local Open Scope js_scope.

(** ** DataView and typed arrays over an ArrayBuffer *)

Definition byteLength (dv : list byte) : Z := Z.of_nat (length dv).

Definition in_bounds (dv : list byte) (off width : Z) : bool :=
  (0 <=? off) && (off + width <=? byteLength dv).

Definition byte_at (dv : list byte) (off : Z) : Z :=
  u8 (nth (Z.to_nat off) dv x00).

Definition getUint8 (dv : list byte) (off : Z) : outcome Z :=
  if in_bounds dv off 1 then Ret (byte_at dv off) else Throw RangeError.

(** Every multi-byte read of the source passes [true]: little-endian. *)
Definition getUint16 (dv : list byte) (off : Z) : outcome Z :=
  if in_bounds dv off 2
  then Ret (Z.lor (byte_at dv off) (Z.shiftl (byte_at dv (off + 1)) 8))
  else Throw RangeError.

Definition getUint32 (dv : list byte) (off : Z) : outcome Z :=
  if in_bounds dv off 4
  then Ret (Z.lor (Z.lor (byte_at dv off) (Z.shiftl (byte_at dv (off + 1)) 8))
                  (Z.lor (Z.shiftl (byte_at dv (off + 2)) 16)
                         (Z.shiftl (byte_at dv (off + 3)) 24)))
  else Throw RangeError.

Definition getInt32 (dv : list byte) (off : Z) : outcome Z :=
  match getUint32 dv off with
  | Ret u => Ret (if 2 ^ 31 <=? u then u - 2 ^ 32 else u)
  | Throw e => Throw e
  | OutOfFuel => OutOfFuel
  end.

Definition setUint8 (dv : list byte) (off : Z) (v : Z) : outcome (list byte) :=
  if in_bounds dv off 1
  then Ret (<[Z.to_nat off := to_u8 v]> dv)
  else Throw RangeError.

(** A [Uint8Array] is a window on an ArrayBuffer: it keeps a reference to
    the whole [buffer], which is what its [.buffer] property returns. *)
Record Uint8Array : Type := mkUint8Array {
  buffer : list byte;
  byteOffset : Z;
  view_length : Z
}.

(** [new Uint8Array(buffer, off, len)]; the constructor throws when the
    window leaves the buffer. *)
Definition new_Uint8Array (buf : list byte) (off len : Z) : outcome Uint8Array :=
  if (0 <=? off) && (0 <=? len) && (off + len <=? byteLength buf)
  then Ret (mkUint8Array buf off len)
  else Throw RangeError.

(** The elements seen through the window ([Array.from], [decode]). *)
Definition Array_from (a : Uint8Array) : list byte :=
  take (Z.to_nat (view_length a)) (drop (Z.to_nat (byteOffset a)) (buffer a)).

(** [buffer.slice(0, stop)] for a non-negative [stop]: the end is clamped
    to the length of the buffer, the result is a copy. *)
Definition ArrayBuffer_slice0 (buffer : list byte) (stop : Z) : list byte :=
  take (Z.to_nat stop) buffer.

(** ** TextDecoder('utf-8')

    Strings are produced by the platform's [TextDecoder] in its default
    (non-fatal, BOM-removing) mode.  A decoded string is the list of its
    Unicode scalar values.  The decoder below is the UTF-8 decoder of the
    WHATWG Encoding Standard: malformed input yields U+FFFD, and a byte
    that breaks a sequence is looked at again as the start of the next. *)

Definition jsstring : Type := list Z.

Record utf8_state : Type := mkUtf8 {
  code_point : Z;
  bytes_seen : Z;
  bytes_needed : Z;
  lower_boundary : Z;
  upper_boundary : Z
}.

Definition utf8_init : utf8_state := mkUtf8 0 0 0 128 191.

(** A byte met while no sequence is open: a scalar value (ASCII, or
    U+FFFD for an invalid lead byte) or the state of a new sequence. *)
Definition utf8_lead (v : Z) : Z + utf8_state :=
  if v <=? 127 then inl v
  else if (194 <=? v) && (v <=? 223) then inr (mkUtf8 (Z.land v 31) 0 1 128 191)
  else if (224 <=? v) && (v <=? 239) then
    inr (mkUtf8 (Z.land v 15) 0 2 (if v =? 224 then 160 else 128)
                (if v =? 237 then 159 else 191))
  else if (240 <=? v) && (v <=? 244) then
    inr (mkUtf8 (Z.land v 7) 0 3 (if v =? 240 then 144 else 128)
                (if v =? 244 then 143 else 191))
  else inl 65533.

Fixpoint utf8_run (st : utf8_state) (bs : list byte) : jsstring :=
  match bs with
  | [] => if bytes_needed st =? 0 then [] else [65533]
  | b :: rest =>
    let v := u8 b in
    let fresh :=
      match utf8_lead v with
      | inl c => c :: utf8_run utf8_init rest
      | inr st' => utf8_run st' rest
      end in
    if bytes_needed st =? 0 then fresh
    else if (v <? lower_boundary st) || (upper_boundary st <? v)
    then 65533 :: fresh
    else
      let cp := Z.lor (Z.shiftl (code_point st) 6) (Z.land v 63) in
      if bytes_seen st + 1 =? bytes_needed st
      then cp :: utf8_run utf8_init rest
      else utf8_run (mkUtf8 cp (bytes_seen st + 1) (bytes_needed st) 128 191) rest
  end.

(** [new TextDecoder('utf-8').decode(bytes)]: [ignoreBOM] is false, so a
    leading U+FEFF is dropped. *)
Definition TextDecoder_decode (bs : list byte) : jsstring :=
  match utf8_run utf8_init bs with
  | 65279 :: t => t
  | s => s
  end.

(** Length of a string in UTF-16 code units (the [length] of a JS string). *)
Definition js_length (s : jsstring) : Z :=
  fold_right (fun c n => (if 65536 <=? c then 2 else 1) + n) 0 s.

(** Length of a string once encoded as UTF-8. *)
Definition utf8_length (s : jsstring) : Z :=
  fold_right (fun c n =>
    (if c <=? 127 then 1 else if c <=? 2047 then 2
     else if c <=? 65535 then 3 else 4) + n) 0 s.

(** ** part_data_parser.js

    [XY_SCALE] is 1 in both files, so the divisions by it leave every
    number as it was read; they are not written out. *)

Module PartDataParser.

(** The object returned by [parseHeader]. *)
Record Header : Type := mkHeader {
  part_size : Z;
  part_x : Z;
  part_y : Z;
  part_rotation : Z;
  visibility : Z;
  part_group_name_size : Z;
  part_group_name : jsstring
}.

Record SubType01 : Type := mkSubType01 {
  arc_block_size : Z; arc_layer : Z; arc_x1 : Z; arc_y1 : Z; arc_radius : Z;
  arc_angle_start : Z; arc_angle_end : Z; arc_scale : Z; unknown_arc : Z
}.

Record SubType05 : Type := mkSubType05 {
  line_block_size : Z; line_layer : Z; line_x1 : Z; line_y1 : Z;
  line_x2 : Z; line_y2 : Z; line_scale : Z
}.

Record SubType06 : Type := mkSubType06 {
  label_block_size : Z; label_layer : Z; label_x : Z; label_y : Z;
  font_size : Z; font_scale : Z; font_rotation : Z; label_visibility : Z;
  label_size : Z; label : jsstring
}.

Record Pin : Type := mkPin {
  un1 : Z; pin_x : Z; pin_y : Z; inner_diameter : Z; rotation : Z;
  name_size : Z; name : jsstring; height : Z; width : Z; shape : Z;
  net_index : Z; isThruHole_pin : bool
}.

Inductive SubBlock : Type :=
| sub_type_01 (a : SubType01)
| sub_type_05 (l : SubType05)
| sub_type_06 (t : SubType06)
| sub_type_09 (block_size : Z) (pins : list Pin).

(** The object returned by [parse]. *)
Record PartData : Type := mkPartData {
  header : Header;
  sub_blocks : list SubBlock
}.

(** The fields of a [PartDataParser] object, the module-level variable
    [isThruHole_part] the pin parser assigns ([None] while undefined), and
    one ghost field: [tag_reads] lists, latest first, the offsets at which
    the walker of [parse] fetched a sub-type identifier.  No method reads
    the ghost field. *)
Record state : Type := mkState {
  dataView : list byte;
  offset : Z;
  cur_block_size : Z;
  pin_block_size : Z;
  isThruHole_part : option bool;
  tag_reads : list Z
}.

Definition set_dataView (dv : list byte) (s : state) : state :=
  mkState dv (offset s) (cur_block_size s) (pin_block_size s)
          (isThruHole_part s) (tag_reads s).
Definition set_offset (o : Z) (s : state) : state :=
  mkState (dataView s) o (cur_block_size s) (pin_block_size s)
          (isThruHole_part s) (tag_reads s).
Definition set_cur_block_size (n : Z) (s : state) : state :=
  mkState (dataView s) (offset s) n (pin_block_size s)
          (isThruHole_part s) (tag_reads s).
Definition set_pin_block_size (n : Z) (s : state) : state :=
  mkState (dataView s) (offset s) (cur_block_size s) n
          (isThruHole_part s) (tag_reads s).
Definition set_isThruHole_part (b : bool) (s : state) : state :=
  mkState (dataView s) (offset s) (cur_block_size s) (pin_block_size s)
          (Some b) (tag_reads s).
Definition log_tag_read (o : Z) (s : state) : state :=
  mkState (dataView s) (offset s) (cur_block_size s) (pin_block_size s)
          (isThruHole_part s) (o :: tag_reads s).

(** [new PartDataParser()], in a world where the module variable holds [g].
    [dataView] is [null] until [init] has run; the empty buffer stands
    for it. *)
Definition constructor (g : option bool) : state := mkState [] 0 0 0 g [].

Definition init (arrayBuffer : list byte) : M state unit :=
  modify (set_dataView arrayBuffer);;
  modify (set_offset 0);;
  modify (set_cur_block_size 0);;
  modify (set_pin_block_size 0).

Definition readString (length : Z) : M state jsstring :=
  if length =? 0 then ret []
  else
    s <- get;;
    stringBytes <- lift (new_Uint8Array (dataView s) (offset s) length);;
    modify (set_offset (offset s + length));;
    ret (TextDecoder_decode (Array_from stringBytes)).

Definition parseHeader : M state Header :=
  s <- get;;
  let dv := dataView s in
  let offset := offset s in
  part_size <- lift (getUint32 dv offset);;
  let offset := offset + 8 in
  part_x <- lift (getUint32 dv offset);;
  let offset := offset + 4 in
  part_y <- lift (getUint32 dv offset);;
  let offset := offset + 4 in
  part_rotation <- lift (getUint32 dv offset);;
  let offset := offset + 4 in
  visibility <- lift (getUint8 dv offset);;
  let offset := offset + 2 in
  part_group_name_size <- lift (getUint32 dv offset);;
  let offset := offset + 4 in
  modify (set_offset offset);;
  part_group_name <- (if 0 <? part_group_name_size
                      then readString part_group_name_size else ret []);;
  ret (mkHeader part_size part_x part_y part_rotation visibility
                part_group_name_size part_group_name).

Definition parseSubType01 : M state SubBlock :=
  s <- get;;
  let dv := dataView s in
  let offset := offset s in
  blockSize <- lift (getUint32 dv offset);;
  layer <- lift (getUint32 dv (offset + 4));;
  x1 <- lift (getUint32 dv (offset + 8));;
  y1 <- lift (getUint32 dv (offset + 12));;
  radius <- lift (getUint32 dv (offset + 16));;
  angle_start <- lift (getUint32 dv (offset + 20));;
  angle_end <- lift (getUint32 dv (offset + 24));;
  scale <- lift (getUint32 dv (offset + 28));;
  unknown_arc <- lift (getUint32 dv (offset + 32));;
  modify (set_offset (offset + 36));;
  ret (sub_type_01 (mkSubType01 blockSize layer x1 y1 radius angle_start
                                angle_end scale unknown_arc)).

Definition parseSubType05 : M state SubBlock :=
  s <- get;;
  let dv := dataView s in
  let offset := offset s in
  blockSize <- lift (getUint32 dv offset);;
  layer <- lift (getUint32 dv (offset + 4));;
  x1 <- lift (getUint32 dv (offset + 8));;
  y1 <- lift (getUint32 dv (offset + 12));;
  x2 <- lift (getUint32 dv (offset + 16));;
  y2 <- lift (getUint32 dv (offset + 20));;
  scale <- lift (getUint32 dv (offset + 24));;
  modify (set_offset (offset + 28 + 4));;
  ret (sub_type_05 (mkSubType05 blockSize layer x1 y1 x2 y2 scale)).

Definition parseSubType06 : M state SubBlock :=
  s <- get;;
  let dv := dataView s in
  let offset := offset s in
  blockSize <- lift (getUint32 dv offset);;
  layer <- lift (getUint32 dv (offset + 4));;
  x <- lift (getUint32 dv (offset + 8));;
  y <- lift (getUint32 dv (offset + 12));;
  fontSize <- lift (getUint32 dv (offset + 16));;
  fontScale <- lift (getUint32 dv (offset + 20));;
  fontRotation <- lift (getUint32 dv (offset + 24));;
  visibility <- lift (getUint8 dv (offset + 28));;
  labelSize <- lift (getUint32 dv (offset + 30));;
  modify (set_offset (offset + 34));;
  label <- (if 0 <? labelSize then readString labelSize else ret []);;
  ret (sub_type_06 (mkSubType06 blockSize layer x y fontSize fontScale
                                fontRotation visibility labelSize label)).

(** One pin of [parseSubType09]: the body of its [while] loop. *)
Definition parsePin (dv : list byte) : M state Pin :=
  s <- get;;
  let offset0 := offset s in
  un1 <- lift (getUint32 dv offset0);;
  x <- lift (getUint32 dv (offset0 + 4));;
  y <- lift (getUint32 dv (offset0 + 8));;
  inner_diameter <- lift (getUint32 dv (offset0 + 12));;
  let isThruHole_pin := negb (inner_diameter =? 0) in
  modify (set_isThruHole_part isThruHole_pin);;
  pinRotation <- lift (getUint32 dv (offset0 + 16));;
  pinNameSize <- lift (getUint32 dv (offset0 + 20));;
  modify (set_offset (offset0 + 24));;
  pinName <- (if 0 <? pinNameSize then readString pinNameSize else ret []);;
  s1 <- get;;
  let offset1 := offset s1 in
  width <- lift (getUint32 dv offset1);;
  height <- lift (getUint32 dv (offset1 + 4));;
  shape <- lift (getUint8 dv (offset1 + 8));;
  netIndex <- lift (getUint32 dv (offset1 + 8 + 24));;
  modify (set_offset (offset1 + 8 + 24 + 4 + 13));;
  ret (mkPin un1 x y inner_diameter pinRotation pinNameSize pinName
             height width shape netIndex isThruHole_pin).

(** The [while (this.offset + blockSize <= this.cur_block_size)] loop. *)
Fixpoint pins_loop (fuel : nat) (blockSize : Z) (dv : list byte)
         (pins : list Pin) : M state (list Pin) :=
  match fuel with
  | O => out_of_fuel
  | S fuel' =>
    s <- get;;
    if offset s + blockSize <=? cur_block_size s then
      pin <- parsePin dv;;
      pins_loop fuel' blockSize dv (pins ++ [pin])
    else ret pins
  end.

Definition parseSubType09 : M state SubBlock :=
  s <- get;;
  blockSize <- lift (getUint32 (dataView s) (offset s));;
  modify (set_offset (offset s + 4));;
  let dv := dataView s in
  pins <- pins_loop (S (length dv)) blockSize dv [];;
  ret (sub_type_09 blockSize pins).

Definition subBlockHandlers (subTypeIdentifier : Z) : option (M state SubBlock) :=
  if subTypeIdentifier =? 1 then Some parseSubType01
  else if subTypeIdentifier =? 5 then Some parseSubType05
  else if subTypeIdentifier =? 6 then Some parseSubType06
  else if subTypeIdentifier =? 9 then Some parseSubType09
  else None.

(** The sub-block loop of [parse]. *)
Fixpoint walk (fuel : nat) (sub_blocks : list SubBlock) : M state (list SubBlock) :=
  match fuel with
  | O => out_of_fuel
  | S fuel' =>
    s <- get;;
    if offset s + pin_block_size s <? byteLength (dataView s) then
      if byteLength (dataView s) <=? offset s then ret sub_blocks
      else
        subTypeIdentifier <- lift (getUint8 (dataView s) (offset s));;
        modify (log_tag_read (offset s));;
        modify (set_offset (offset s + 1));;
        match subBlockHandlers subTypeIdentifier with
        | Some handler =>
          subBlock <- handler;;
          walk fuel' (sub_blocks ++ [subBlock])
        | None => ret sub_blocks
        end
    else ret sub_blocks
  end.

Definition parse (arrayBuffer : list byte) (t07blockSize : Z) : M state PartData :=
  init arrayBuffer;;
  modify (set_cur_block_size t07blockSize);;
  header <- parseHeader;;
  let partSize := part_size header in
  let trimmedBuffer := ArrayBuffer_slice0 arrayBuffer (4 + partSize) in
  modify (set_dataView trimmedBuffer);;
  sub_blocks <- walk (S (length trimmedBuffer)) [];;
  ret (mkPartData header sub_blocks).

End PartDataParser.

(** ** raw_parser.js *)

Module RawPCBParser.

Record Arc : Type := mkArc {
  arc_layer : Z; arc_x1 : Z; arc_y1 : Z; arc_r : Z; arc_angle_start : Z;
  arc_angle_end : Z; arc_scale : Z; arc_net_index : Z
}.

Record Via : Type := mkVia {
  via_x : Z; via_y : Z; outer_radius : Z; inner_radius : Z;
  layer_a_index : Z; layer_b_index : Z; via_net_index : Z; via_text : jsstring
}.

Record Segment : Type := mkSegment {
  seg_layer : Z; seg_x1 : Z; seg_y1 : Z; seg_x2 : Z; seg_y2 : Z;
  seg_scale : Z; seg_net_index : Z
}.

Record Text : Type := mkText {
  unknown_1 : Z; pos_x : Z; pos_y : Z; text_size : Z; divider : Z;
  empty : Z; one : Z; text_length : Z; text : jsstring
}.

Record Data : Type := mkData {
  block_size : Z;
  encrypted_data : list byte;
  decrypted_data : list byte;
  parsed_data : option PartDataParser.PartData   (* [None] is [null] *)
}.

Inductive Block : Type :=
| ARC (a : Arc)
| VIA (v : Via)
| SEGMENT (g : Segment)
| TEXT (t : Text)
| DATA (d : Data).

(** The object returned by [parse]. *)
Record Board : Type := mkBoard { main_data_block : list Block }.

(** The fields of a [RawPCBParser] object and the module variable
    [isThruHole_part] of part_data_parser.js.  [dataView] is a
    [DataView] created directly on the ArrayBuffer passed to [parse]: no
    copy is made, so the field stands for the caller's buffer itself and
    a [setUint8] through it is a write to that buffer. *)
Record state : Type := mkState {
  dataView : list byte;
  offset : Z;
  mainDataBlocksSize : Z;
  isThruHole_part : option bool
}.

Definition set_dataView (dv : list byte) (s : state) : state :=
  mkState dv (offset s) (mainDataBlocksSize s) (isThruHole_part s).
Definition set_offset (o : Z) (s : state) : state :=
  mkState (dataView s) o (mainDataBlocksSize s) (isThruHole_part s).
Definition set_mainDataBlocksSize (n : Z) (s : state) : state :=
  mkState (dataView s) (offset s) n (isThruHole_part s).
Definition set_isThruHole_part (g : option bool) (s : state) : state :=
  mkState (dataView s) (offset s) (mainDataBlocksSize s) g.

(** [new RawPCBParser()] *)
Definition constructor (g : option bool) : state := mkState [] 0 0 g.

(** [hexToBytes(MASTER_KEY)] for [MASTER_KEY = "DCFC12AC00000000"]. *)
Definition keyBytes : list byte := bytes_of [220; 252; 18; 172; 0; 0; 0; 0].

Definition sequence : list Z := [118; 54; 118; 54; 53; 53; 53; 118; 54; 118; 54].

(** The inner [for] of [findSequence], from index [j] of the sequence. *)
Fixpoint matches_from (array : list byte) (i j : Z) (seq_rest : list Z) : outcome bool :=
  match seq_rest with
  | [] => Ret true
  | c :: rest =>
    obind (getUint8 array (i + j)) (fun b =>
      if b =? c then matches_from array i (j + 1) rest else Ret false)
  end.

(** The outer [for] of [findSequence], with [n] iterations left. *)
Fixpoint findSequence_from (n : nat) (i : Z) (array : list byte) (sequence : list Z)
  : outcome Z :=
  match n with
  | O => Ret (-1)
  | S n' =>
    obind (matches_from array i 0 sequence) (fun found =>
      if found then Ret i else findSequence_from n' (i + 1) array sequence)
  end.

Definition findSequence (array : list byte) (sequence : list Z) : outcome Z :=
  let seqLen := Z.of_nat (length sequence) in
  let arrayLen := byteLength array in
  findSequence_from (Z.to_nat (arrayLen - seqLen + 1)) 0 array sequence.

Definition readString (length : Z) : M state jsstring :=
  if length =? 0 then ret []
  else
    s <- get;;
    stringBytes <- lift (new_Uint8Array (dataView s) (offset s) length);;
    modify (set_offset (offset s + length));;
    ret (TextDecoder_decode (Array_from stringBytes)).

(** [parseFileHeader]; the hex dump written to the console reads only
    indices below the length and is left out. *)
Definition parseFileHeader : M state unit :=
  s <- get;;
  n <- lift (getUint32 (dataView s) 64);;
  modify (set_mainDataBlocksSize n);;
  modify (set_offset 68).

Definition parseType01 : M state (option Block) :=
  s <- get;;
  let dv := dataView s in
  let offset := offset s in
  blockSize <- lift (getUint32 dv offset);;
  layer <- lift (getUint32 dv (offset + 4));;
  x1 <- lift (getUint32 dv (offset + 8));;
  y1 <- lift (getUint32 dv (offset + 12));;
  r <- lift (getInt32 dv (offset + 16));;
  angleStart <- lift (getInt32 dv (offset + 20));;
  angleEnd <- lift (getInt32 dv (offset + 24));;
  scale <- lift (getInt32 dv (offset + 28));;
  netIndex <- lift (getInt32 dv (offset + 32));;
  modify (set_offset (offset + 36));;
  ret (Some (ARC (mkArc layer x1 y1 r angleStart angleEnd scale netIndex))).

Definition parseType02 : M state (option Block) :=
  s <- get;;
  let dv := dataView s in
  let offset := offset s in
  blockSize <- lift (getUint32 dv offset);;
  x <- lift (getInt32 dv (offset + 4));;
  y <- lift (getInt32 dv (offset + 8));;
  outerRadius <- lift (getInt32 dv (offset + 12));;
  innerRadius <- lift (getInt32 dv (offset + 16));;
  layerAIndex <- lift (getUint32 dv (offset + 20));;
  layerBIndex <- lift (getUint32 dv (offset + 24));;
  netIndex <- lift (getUint32 dv (offset + 28));;
  viaTextLength <- lift (getUint32 dv (offset + 32));;
  modify (set_offset (offset + 36));;
  viaText <- readString viaTextLength;;
  ret (Some (VIA (mkVia x y outerRadius innerRadius layerAIndex layerBIndex
                        netIndex viaText))).

Definition parseType03 : M state (option Block) :=
  s <- get;;
  blockSize <- lift (getUint32 (dataView s) (offset s));;
  modify (set_offset (offset s + (4 + blockSize)));;
  ret None.

Definition parseType05 : M state (option Block) :=
  s <- get;;
  let dv := dataView s in
  let offset := offset s in
  blockSize <- lift (getUint32 dv offset);;
  layer <- lift (getUint32 dv (offset + 4));;
  x1 <- lift (getInt32 dv (offset + 8));;
  y1 <- lift (getInt32 dv (offset + 12));;
  x2 <- lift (getInt32 dv (offset + 16));;
  y2 <- lift (getInt32 dv (offset + 20));;
  scale <- lift (getInt32 dv (offset + 24));;
  traceNetIndex <- lift (getUint32 dv (offset + 28));;
  modify (set_offset (offset + 32));;
  ret (Some (SEGMENT (mkSegment layer x1 y1 x2 y2 scale traceNetIndex))).

Definition parseType06 : M state (option Block) :=
  s <- get;;
  let dv := dataView s in
  let offset := offset s in
  blockSize <- lift (getUint32 dv offset);;
  unknown1 <- lift (getUint32 dv (offset + 4));;
  posX <- lift (getUint32 dv (offset + 8));;
  posY <- lift (getUint32 dv (offset + 12));;
  textSize <- lift (getUint32 dv (offset + 16));;
  divider <- lift (getUint32 dv (offset + 20));;
  empty <- lift (getUint32 dv (offset + 24));;
  one <- lift (getUint16 dv (offset + 28));;
  textLength <- lift (getUint32 dv (offset + 30));;
  modify (set_offset (offset + 34));;
  text <- readString textLength;;
  ret (Some (TEXT (mkText unknown1 posX posY textSize divider empty one
                          textLength text))).

Definition parseType09 : M state (option Block) :=
  s <- get;;
  blockSize <- lift (getUint32 (dataView s) (offset s));;
  modify (set_offset (offset s + (4 + blockSize)));;
  ret None.

(** [new PartDataParser().parse(arrayBuffer, blockSize)], run on a fresh
    parser object; only the module variable outlives the call. *)
Definition PartDataParser_parse (arrayBuffer : list byte) (blockSize : Z)
  : M state PartDataParser.PartData :=
  fun s =>
    let '(r, ps) := PartDataParser.parse arrayBuffer blockSize
                      (PartDataParser.constructor (isThruHole_part s)) in
    (r, set_isThruHole_part (PartDataParser.isThruHole_part ps) s).

Section WithCryptoJS.

(** CryptoJS is an external library.  [CryptoJS_DES_decrypt key data] is
    what [decryptWithDES] obtains from it for a ciphertext: the bytes of
    [CryptoJS.DES.decrypt] in ECB mode with Pkcs7 padding, or [None] when
    the attempt throws (the library is not loaded, or the conversion of
    its answer to a [Uint8Array] fails). *)
Variable CryptoJS_DES_decrypt : list byte -> list byte -> option (list byte).

(** The result is a new [Uint8Array] with a buffer of its own. *)
Definition decryptWithDES (encryptedData : Uint8Array) : outcome Uint8Array :=
  match CryptoJS_DES_decrypt keyBytes (Array_from encryptedData) with
  | Some plain => Ret (mkUint8Array plain 0 (byteLength plain))
  | None => Throw Error
  end.

Definition parseType07 : M state (option Block) :=
  s <- get;;
  blockSize <- lift (getUint32 (dataView s) (offset s));;
  modify (set_offset (offset s + 4));;
  encryptedData <- lift (new_Uint8Array (dataView s) (offset s + 4) blockSize);;
  modify (set_offset (offset s + 4 + blockSize));;
  decryptedData <- try_catch (lift (decryptWithDES encryptedData))
                             (fun _ => ret encryptedData);;
  parsedData <- try_catch
                  (p <- PartDataParser_parse (buffer decryptedData) blockSize;;
                   ret (Some p))
                  (fun _ => ret None);;
  ret (Some (DATA (mkData blockSize (Array_from encryptedData)
                          (Array_from decryptedData) parsedData))).

Definition blockHandlers (blockType : Z) : option (M state (option Block)) :=
  if blockType =? 1 then Some parseType01
  else if blockType =? 2 then Some parseType02
  else if blockType =? 3 then Some parseType03
  else if blockType =? 4 then Some (s <- get;; modify (set_offset (offset s + 1));; ret None)
  else if blockType =? 5 then Some parseType05
  else if blockType =? 6 then Some parseType06
  else if blockType =? 7 then Some parseType07
  else if blockType =? 8 then Some (s <- get;; modify (set_offset (offset s + 1));; ret None)
  else if blockType =? 9 then Some parseType09
  else None.

(** One round of the [while] loop of [parseMainDataBlocks]: [None] when
    the loop condition fails, else the blocks collected after the body. *)
Definition main_round (endOffset : Z) (blocks : list Block)
  : M state (option (list Block)) :=
  s <- get;;
  if (offset s <? endOffset) && (offset s <? byteLength (dataView s)) then
    word <- lift (getUint32 (dataView s) (offset s));;
    if word =? 0 then
      modify (set_offset (offset s + 4));;
      ret (Some blocks)
    else
      blockType <- lift (getUint8 (dataView s) (offset s));;
      modify (set_offset (offset s + 1));;
      match blockHandlers blockType with
      | Some handler =>
        block <- handler;;
        match block with
        | Some b => ret (Some (blocks ++ [b]))
        | None => ret (Some blocks)
        end
      | None => ret (Some blocks)   (* console.warn, then the next round *)
      end
  else ret None.

Fixpoint main_loop (fuel : nat) (endOffset : Z) (blocks : list Block)
  : M state (list Block) :=
  match fuel with
  | O => out_of_fuel
  | S fuel' =>
    continue <- main_round endOffset blocks;;
    match continue with
    | Some blocks' => main_loop fuel' endOffset blocks'
    | None => ret blocks
    end
  end.

(** Progress is reported through an optional callback whose result is
    never used; the parser is modelled without one. *)
Definition parseMainDataBlocks : M state (list Block) :=
  s <- get;;
  let startOffset := offset s in
  let endOffset := startOffset + mainDataBlocksSize s in
  main_loop (S (length (dataView s))) endOffset [].

(** The [for (let i = 0; i < xoredDataLength; i++)] loop, [n] rounds left. *)
Fixpoint xor_loop (n : nat) (i : Z) (xorKey : Z) : M state unit :=
  match n with
  | O => ret tt
  | S n' =>
    s <- get;;
    b <- lift (getUint8 (dataView s) i);;
    dv' <- lift (setUint8 (dataView s) i (Z.lxor b xorKey));;
    modify (set_dataView dv');;
    xor_loop n' (i + 1) xorKey
  end.

(** The block of [parse] headed "XOR decryption logic". *)
Definition xor_decryption : M state unit :=
  s <- get;;
  flag <- lift (getUint8 (dataView s) 16);;
  if flag =? 0 then ret tt
  else
    sequenceIndex <- lift (findSequence (dataView s) sequence);;
    let xoredDataLength :=
      if sequenceIndex =? -1 then byteLength (dataView s) else sequenceIndex in
    xorKey <- lift (getUint8 (dataView s) 16);;
    xor_loop (Z.to_nat xoredDataLength) 0 xorKey.

Definition parse (arrayBuffer : list byte) : M state Board :=
  modify (set_dataView arrayBuffer);;
  modify (set_offset 0);;
  xor_decryption;;
  parseFileHeader;;
  blocks <- parseMainDataBlocks;;
  ret (mkBoard blocks).

End WithCryptoJS.

End RawPCBParser.

(** * Properties *)

(** ** Bytes and DataView reads *)

Lemma u8_range (b : byte) : 0 <= u8 b < 256.
Proof. unfold u8. pose proof (Byte.to_N_bounded b). lia. Qed.

Lemma to_u8_u8 (z : Z) : 0 <= z < 256 -> u8 (to_u8 z) = z.
Proof.
  intros Hz. unfold to_u8, u8. rewrite Z.mod_small by lia.
  destruct (Byte.of_N (Z.to_N z)) as [b|] eqn:E.
  - apply Byte.to_of_N in E. rewrite E. lia.
  - apply Byte.of_N_None_iff in E. lia.
Qed.

Lemma byte_at_range dv o : 0 <= byte_at dv o < 256.
Proof. apply u8_range. Qed.

Lemma in_bounds_spec dv o w :
  in_bounds dv o w = true <-> 0 <= o /\ o + w <= byteLength dv.
Proof. unfold in_bounds. rewrite andb_true_iff, Z.leb_le, Z.leb_le. tauto. Qed.

(** What a successful read of [w] bytes at [o] tells, and what a failed
    one throws. *)
Definition read_ok {A} (dv : list byte) (o w : Z) (r : outcome A) (P : A -> Prop)
  : Prop :=
  match r with
  | Ret v => 0 <= o /\ o + w <= byteLength dv /\ P v
  | Throw e => e = RangeError
  | OutOfFuel => False
  end.

Lemma getUint8_spec dv o :
  read_ok dv o 1 (getUint8 dv o) (fun v => v = byte_at dv o /\ 0 <= v < 256).
Proof.
  unfold getUint8, read_ok. destruct (in_bounds dv o 1) eqn:E; [|done].
  apply in_bounds_spec in E. pose proof (byte_at_range dv o). lia.
Qed.

Lemma getUint16_spec dv o : read_ok dv o 2 (getUint16 dv o) (fun v => 0 <= v).
Proof.
  unfold getUint16, read_ok. destruct (in_bounds dv o 2) eqn:E; [|done].
  apply in_bounds_spec in E. repeat split; try lia.
  pose proof (byte_at_range dv o). pose proof (byte_at_range dv (o + 1)).
  apply Z.lor_nonneg. split; [lia|]. apply Z.shiftl_nonneg. lia.
Qed.

Lemma getUint32_spec dv o : read_ok dv o 4 (getUint32 dv o) (fun v => 0 <= v).
Proof.
  unfold getUint32, read_ok. destruct (in_bounds dv o 4) eqn:E; [|done].
  apply in_bounds_spec in E. repeat split; try lia.
  pose proof (byte_at_range dv o). pose proof (byte_at_range dv (o + 1)).
  pose proof (byte_at_range dv (o + 2)). pose proof (byte_at_range dv (o + 3)).
  repeat (apply Z.lor_nonneg; split); try apply Z.shiftl_nonneg; lia.
Qed.

Lemma getInt32_spec dv o : read_ok dv o 4 (getInt32 dv o) (fun _ => True).
Proof.
  unfold getInt32. pose proof (getUint32_spec dv o) as H.
  destruct (getUint32 dv o); simpl in *; tauto.
Qed.

Lemma new_Uint8Array_spec dv o n :
  read_ok dv o n (new_Uint8Array dv o n)
          (fun a => a = mkUint8Array dv o n /\ 0 <= n).
Proof.
  unfold new_Uint8Array, read_ok.
  destruct ((0 <=? o) && (0 <=? n) && (o + n <=? byteLength dv)) eqn:E; [|done].
  rewrite !andb_true_iff, !Z.leb_le in E. tauto.
Qed.

(** The scrutinee the goal is stuck on: the innermost one of its head
    matches. *)
Ltac stuck_on t :=
  lazymatch t with
  | match ?r with _ => _ end => stuck_on r
  | _ => t
  end.

(** Destructs the read the goal is stuck on, keeps what it tells, and
    closes the out-of-fuel case no read has. *)
Ltac read_step :=
  let H := fresh "Hrd" in
  match goal with
  | |- ?G =>
    let r := stuck_on G in
    lazymatch r with
    | getUint32 ?dv ?o => pose proof (getUint32_spec dv o) as H
    | getInt32 ?dv ?o => pose proof (getInt32_spec dv o) as H
    | getUint16 ?dv ?o => pose proof (getUint16_spec dv o) as H
    | getUint8 ?dv ?o => pose proof (getUint8_spec dv o) as H
    | new_Uint8Array ?dv ?o ?n => pose proof (new_Uint8Array_spec dv o n) as H
    end;
    destruct r eqn:?
  end;
  cbn [read_ok] in H; [ | subst | exfalso; exact H ]; cbv beta iota.

(** Closes a conjunction whose parts are at hand. *)
Ltac conj_solve :=
  repeat (split; [first [reflexivity | assumption | lia]|]);
  first [reflexivity | assumption | lia].

Ltac unfold_monad := cbv [bind get lift modify out_of_fuel].

(** ** Predicates on decoded values *)

(** A string emitted for a size field [n], from the [n] bytes at [o]. *)
Definition sized_string (dv : list byte) (o n : Z) (str : jsstring) : Prop :=
  (n = 0 -> str = []) /\
  (n <> 0 -> o + n <= byteLength dv /\
     str = TextDecoder_decode (take (Z.to_nat n) (drop (Z.to_nat o) dv))).

Definition pin_ok (p : PartDataParser.Pin) : Prop :=
  PartDataParser.isThruHole_pin p = true <-> PartDataParser.inner_diameter p <> 0.

Definition sub_ok (b : PartDataParser.SubBlock) : Prop :=
  match b with
  | PartDataParser.sub_type_09 _ pins => Forall pin_ok pins
  | _ => True
  end.

Definition known_sub_tag (v : Z) : Prop := v = 1 \/ v = 5 \/ v = 6 \/ v = 9.

(** ** PartDataParser: what every method preserves *)

Module PartFacts.
Import PartDataParser.

(** Methods never touch the view, the two size fields or the ghost trace
    (only the walker of [parse] extends the latter), and never move the
    offset backwards. *)
Definition frame (s s' : state) : Prop :=
  dataView s' = dataView s /\ cur_block_size s' = cur_block_size s /\
  pin_block_size s' = pin_block_size s /\ tag_reads s' = tag_reads s /\
  offset s <= offset s'.

Lemma part_frame_refl s : frame s s.
Proof. unfold frame. repeat split; lia. Qed.

Lemma part_frame_trans s1 s2 s3 : frame s1 s2 -> frame s2 s3 -> frame s1 s3.
Proof.
  unfold frame. intros (?&?&?&?&?) (?&?&?&?&?).
  repeat split; try congruence; lia.
Qed.

(** A method that returns or throws [RangeError], within the frame. *)
Definition method {A} (m : M state A) (Q : state -> A -> state -> Prop) : Prop :=
  forall s,
    match m s with
    | (Ret a, s') => frame s s' /\ Q s a s'
    | (Throw e, s') => e = RangeError /\ frame s s'
    | (OutOfFuel, _) => False
    end.

Ltac frame_solve :=
  unfold frame in *;
  cbn [dataView cur_block_size pin_block_size tag_reads offset
       isThruHole_part set_offset set_isThruHole_part] in *;
  repeat match goal with H : _ /\ _ |- _ => destruct H end;
  repeat split; try reflexivity; try congruence; try lia.

Lemma part_readString_spec n :
  method (readString n) (fun s str s' =>
    offset s' = offset s + n /\ sized_string (dataView s) (offset s) n str /\
    (n = 0 -> s' = s)).
Proof.
  intros s. unfold readString, sized_string. destruct (n =? 0) eqn:E.
  - apply Z.eqb_eq in E. subst. unfold ret. frame_solve; tauto.
  - apply Z.eqb_neq in E. unfold_monad. read_step.
    + destruct Hrd as (?&?&->&?). unfold ret. frame_solve; tauto.
    + frame_solve.
Qed.

(** [size > 0 ? this.readString(size) : ''] *)
Lemma readString_guarded_spec n :
  0 <= n ->
  method (if 0 <? n then readString n else ret [])
         (fun s str s' => offset s' = offset s + n /\
                          sized_string (dataView s) (offset s) n str).
Proof.
  intros Hn s. destruct (0 <? n) eqn:E.
  - pose proof (part_readString_spec n s) as H.
    destruct (readString n s) as [[str|e|] s']; tauto.
  - apply Z.ltb_ge in E. assert (n = 0) as -> by lia.
    unfold ret, sized_string. frame_solve; tauto.
Qed.

Lemma parseSubType01_spec : method parseSubType01 (fun _ b _ => sub_ok b).
Proof.
  intros s. unfold parseSubType01. unfold_monad.
  repeat (read_step; [|frame_solve]). unfold ret. frame_solve.
Qed.

Lemma parseSubType05_spec : method parseSubType05 (fun _ b _ => sub_ok b).
Proof.
  intros s. unfold parseSubType05. unfold_monad.
  repeat (read_step; [|frame_solve]). unfold ret. frame_solve.
Qed.

(** Runs the guarded [readString] call the goal has reached. *)
Ltac call_readString :=
  let H := fresh "Hstr" in
  match goal with
  | |- context [(if 0 <? ?n then readString ?n else ret []) ?s0] =>
    pose proof (readString_guarded_spec n ltac:(lia) s0) as H;
    destruct ((if 0 <? n then readString n else ret []) s0) as [[?str|?e|] ?s];
    unfold frame in H;
    cbn [dataView cur_block_size pin_block_size tag_reads offset
         isThruHole_part set_offset set_isThruHole_part] in H;
    [ destruct H as ((?&?&?&?&?)&?&?) | destruct H as (->&(?&?&?&?&?)) | elim H ];
    cbv beta iota
  end.

Lemma parseSubType06_spec :
  method parseSubType06 (fun s b s' =>
    sub_ok b /\
    exists t, b = sub_type_06 t /\
      getUint32 (dataView s) (offset s + 30) = Ret (label_size t) /\
      sized_string (dataView s) (offset s + 34) (label_size t) (label t) /\
      offset s' = offset s + 34 + label_size t).
Proof.
  intros s. unfold parseSubType06. unfold_monad.
  repeat (read_step; [|frame_solve]).
  call_readString; [|frame_solve].
  unfold ret. split; [frame_solve|]. split; [exact I|].
  eexists; split; [reflexivity|]. cbn [label_size label].
  conj_solve.
Qed.

Lemma parseHeader_spec :
  method parseHeader (fun s h s' =>
    getUint32 (dataView s) (offset s) = Ret (part_size h) /\
    0 <= offset s /\ 0 <= part_size h /\
    getUint32 (dataView s) (offset s + 22) = Ret (part_group_name_size h) /\
    sized_string (dataView s) (offset s + 26) (part_group_name_size h)
                 (part_group_name h) /\
    offset s' = offset s + 26 + part_group_name_size h).
Proof.
  intros s. unfold parseHeader. unfold_monad.
  replace (offset s + 8 + 4 + 4 + 4 + 2) with (offset s + 22) by lia.
  replace (offset s + 22 + 4) with (offset s + 26) by lia.
  repeat (read_step; [|frame_solve]).
  call_readString; [|frame_solve].
  unfold ret. split; [frame_solve|].
  cbn [part_size part_group_name_size part_group_name]. conj_solve.
Qed.

Lemma parsePin_spec dv :
  method (parsePin dv) (fun s p s' =>
    0 <= offset s /\ offset s + 4 <= byteLength dv /\
    pin_ok p /\
    getUint32 dv (offset s + 12) = Ret (inner_diameter p) /\
    getUint32 dv (offset s + 20) = Ret (name_size p) /\
    sized_string (dataView s) (offset s + 24) (name_size p) (name p) /\
    offset s' = offset s + 24 + name_size p + 49 /\ 0 <= name_size p).
Proof.
  intros s. unfold parsePin. unfold_monad.
  repeat (read_step; [|frame_solve]).
  call_readString; [|frame_solve].
  repeat (read_step; [|frame_solve]).
  unfold ret. split; [frame_solve|].
  unfold pin_ok. cbn [inner_diameter name_size name isThruHole_pin offset set_offset].
  split; [lia|]. split; [lia|]. split.
  { rewrite negb_true_iff, Z.eqb_neq. tauto. }
  conj_solve.
Qed.

Lemma pins_loop_spec fuel :
  forall blockSize dv acc s,
    Z.of_nat fuel > byteLength dv - offset s -> (1 <= fuel)%nat ->
    Forall pin_ok acc ->
    match pins_loop fuel blockSize dv acc s with
    | (Ret l, s') => frame s s' /\ Forall pin_ok l
    | (Throw e, s') => e = RangeError /\ frame s s'
    | (OutOfFuel, _) => False
    end.
Proof.
  induction fuel as [|fuel IH]; intros blockSize dv acc s Hfuel Hpos Hacc; [lia|].
  cbn [pins_loop]. unfold_monad.
  destruct (offset s + blockSize <=? cur_block_size s).
  - pose proof (parsePin_spec dv s) as Hpin.
    destruct (parsePin dv s) as [[pin|e|] s1]; [|exact Hpin|exact Hpin].
    destruct Hpin as (Hf & H0 & H4 & Hok & _ & _ & _ & Hoff & Hn).
    assert (offset s + 73 <= offset s1) by lia.
    assert (Hfu : Z.of_nat fuel > byteLength dv - offset s1) by lia.
    assert (Hp : (1 <= fuel)%nat) by lia.
    assert (Ha : Forall pin_ok (acc ++ [pin])).
    { apply Forall_app. split; [assumption|]. constructor; [assumption|constructor]. }
    specialize (IH blockSize dv (acc ++ [pin]) s1 Hfu Hp Ha).
    destruct (pins_loop fuel blockSize dv (acc ++ [pin]) s1) as [[l|e|] s2].
    + destruct IH as [Hf2 Hl]. split; [eapply part_frame_trans; eauto|exact Hl].
    + destruct IH as [He Hf2]. split; [exact He|eapply part_frame_trans; eauto].
    + exact IH.
  - unfold ret. split; [apply part_frame_refl|exact Hacc].
Qed.

Lemma parseSubType09_spec : method parseSubType09 (fun _ b _ => sub_ok b).
Proof.
  intros s. unfold parseSubType09. unfold_monad.
  read_step; [|frame_solve].
  match goal with
  | |- context [pins_loop ?f ?b ?dv ?acc ?s0] =>
    assert (Z.of_nat f > byteLength dv - offset s0) as Hfu
      by (unfold byteLength; cbn [offset set_offset]; lia);
    pose proof (pins_loop_spec f b dv acc s0 Hfu ltac:(lia) ltac:(constructor)) as Hl;
    destruct (pins_loop f b dv acc s0) as [[l|e|] s1]
  end.
  - destruct Hl as [Hf Hl]. unfold ret. split; [frame_solve|exact Hl].
  - destruct Hl as [He Hf]. split; [exact He|frame_solve].
  - exact Hl.
Qed.

Lemma subBlockHandlers_known v :
  match subBlockHandlers v with
  | Some handler => known_sub_tag v /\ method handler (fun _ b _ => sub_ok b)
  | None => ~ known_sub_tag v
  end.
Proof.
  unfold subBlockHandlers, known_sub_tag.
  destruct (v =? 1) eqn:E1; [apply Z.eqb_eq in E1; split; [lia|apply parseSubType01_spec]|].
  destruct (v =? 5) eqn:E5; [apply Z.eqb_eq in E5; split; [lia|apply parseSubType05_spec]|].
  destruct (v =? 6) eqn:E6.
  { apply Z.eqb_eq in E6; split; [lia|].
    intros s. pose proof (parseSubType06_spec s) as H.
    destruct (parseSubType06 s) as [[b|e|] s']; tauto. }
  destruct (v =? 9) eqn:E9; [apply Z.eqb_eq in E9; split; [lia|apply parseSubType09_spec]|].
  apply Z.eqb_neq in E1, E5, E6, E9. lia.
Qed.

(** A position at which the guard of the walker allows a tag to be read. *)
Definition in_view (s : state) (c : Z) : Prop :=
  c + pin_block_size s < byteLength (dataView s) /\ c < byteLength (dataView s).

(** The walker: what the ghost trace gains ([new], latest first), and the
    outcome. *)
Definition walk_post (s : state) (r : outcome (list SubBlock)) (s' : state) : Prop :=
  dataView s' = dataView s /\ cur_block_size s' = cur_block_size s /\
  pin_block_size s' = pin_block_size s /\ offset s <= offset s' /\
  (exists new,
      tag_reads s' = new ++ tag_reads s /\
      Forall (fun c => offset s <= c /\ in_view s c) new /\
      forall c rest, new = c :: rest ->
        Forall (fun c' => known_sub_tag (byte_at (dataView s) c')) rest /\
        (~ known_sub_tag (byte_at (dataView s) c) ->
         (exists l, r = Ret l) /\ offset s' = c + 1)) /\
  match r with
  | Ret l => Forall sub_ok l
  | Throw e => e = RangeError
  | OutOfFuel => False
  end.

Lemma walk_spec fuel :
  forall acc s,
    Z.of_nat fuel > byteLength (dataView s) - offset s -> (1 <= fuel)%nat ->
    Forall sub_ok acc ->
    let '(r, s') := walk fuel acc s in walk_post s r s'.
Proof.
  induction fuel as [|fuel IH]; intros acc s Hfuel Hpos Hacc; [lia|].
  assert (Hstop : walk_post s (Ret acc) s).
  { unfold walk_post. do 4 (split; [reflexivity || lia|]). split; [|exact Hacc].
    exists []. split; [reflexivity|]. split; [constructor|discriminate]. }
  cbn [walk]. unfold_monad.
  destruct (offset s + pin_block_size s <? byteLength (dataView s)) eqn:Hg;
    [|exact Hstop].
  destruct (byteLength (dataView s) <=? offset s) eqn:Hb; [exact Hstop|].
  apply Z.ltb_lt in Hg. apply Z.leb_gt in Hb.
  read_step.
  2:{ unfold walk_post.
      do 4 (split; [reflexivity || lia|]). split; [|reflexivity].
      exists []. split; [reflexivity|]. split; [constructor|discriminate]. }
  destruct Hrd as (Ho & _ & Ha & _).
  set (s1 := set_offset (offset s + 1) (log_tag_read (offset s) s)).
  assert (Hnow : offset s <= offset s /\ in_view s (offset s)).
  { unfold in_view. lia. }
  pose proof (subBlockHandlers_known a) as Hh.
  destruct (subBlockHandlers a) as [handler|].
  - destruct Hh as [Hk Hm]. specialize (Hm s1).
    destruct (handler s1) as [[b|e|] s2]; [| |elim Hm].
    + destruct Hm as [(Hdv & Hcb & Hpb & Htr & Hof) Hb2].
      subst s1. cbn [dataView cur_block_size pin_block_size tag_reads offset
                     set_offset log_tag_read] in *.
      assert (Hfu : Z.of_nat fuel > byteLength (dataView s2) - offset s2)
        by (rewrite Hdv; lia).
      assert (Hp : (1 <= fuel)%nat) by lia.
      assert (Hac : Forall sub_ok (acc ++ [b])).
      { apply Forall_app. split; [assumption|]. constructor; [assumption|constructor]. }
      specialize (IH (acc ++ [b]) s2 Hfu Hp Hac).
      destruct (walk fuel (acc ++ [b]) s2) as [r s3].
      destruct IH as (Hdv3 & Hcb3 & Hpb3 & Hof3 & (new & Hnew & Hall & Hlast) & Hr).
      unfold walk_post. do 4 (split; [congruence || lia|]). split; [|exact Hr].
      exists (new ++ [offset s]). split; [|split].
      * rewrite Hnew, Htr, <- app_assoc. reflexivity.
      * apply Forall_app. split; [|constructor; [exact Hnow|constructor]].
        eapply Forall_impl; [exact Hall|]. unfold in_view. cbn beta.
        intros c. rewrite Hdv, Hpb. lia.
      * intros c rest Heq. destruct new as [|c0 new0]; cbn [app] in Heq.
        -- injection Heq as <- <-. split; [constructor|]. intros Hn. elim Hn.
           rewrite <- Ha. exact Hk.
        -- injection Heq as <- <-.
           destruct (Hlast c0 new0 eq_refl) as [Hrest Hunk].
           rewrite Hdv in Hrest, Hunk. split.
           ++ apply Forall_app. split; [exact Hrest|].
              constructor; [rewrite <- Ha; exact Hk|constructor].
           ++ exact Hunk.
    + destruct Hm as [-> (Hdv & Hcb & Hpb & Htr & Hof)].
      subst s1. cbn [dataView cur_block_size pin_block_size tag_reads offset
                     set_offset log_tag_read] in *.
      unfold walk_post. do 4 (split; [congruence || lia|]). split; [|reflexivity].
      exists [offset s]. split; [rewrite Htr; reflexivity|]. split.
      * constructor; [exact Hnow|constructor].
      * intros c rest [= <- <-]. split; [constructor|]. intros Hn. elim Hn.
        rewrite <- Ha. exact Hk.
  - unfold ret. subst s1. unfold walk_post.
    cbn [dataView cur_block_size pin_block_size tag_reads offset
         set_offset log_tag_read].
    do 4 (split; [reflexivity || lia|]). split; [|exact Hacc].
    exists [offset s]. split; [reflexivity|]. split.
    + constructor; [exact Hnow|constructor].
    + intros c rest [= <- <-]. split; [constructor|]. intros _. split; [eauto|lia].
Qed.

(** The parser object once [parse] has run [init] and stored the budget. *)
Definition started (arrayBuffer : list byte) (t07blockSize : Z) (s0 : state) : state :=
  mkState arrayBuffer 0 t07blockSize 0 (isThruHole_part s0) (tag_reads s0).

(** [parse] is the header, then the walk over the trimmed buffer. *)
Lemma part_parse_unfold arrayBuffer t07blockSize s0 :
  parse arrayBuffer t07blockSize s0 =
  match parseHeader (started arrayBuffer t07blockSize s0) with
  | (Ret h, sh) =>
    let view := ArrayBuffer_slice0 arrayBuffer (4 + part_size h) in
    match walk (S (length view)) [] (set_dataView view sh) with
    | (Ret l, s') => (Ret (mkPartData h l), s')
    | (Throw e, s') => (Throw e, s')
    | (OutOfFuel, s') => (OutOfFuel, s')
    end
  | (Throw e, sh) => (Throw e, sh)
  | (OutOfFuel, sh) => (OutOfFuel, sh)
  end.
Proof.
  unfold parse, init. unfold_monad. unfold started.
  cbn [set_dataView set_offset set_cur_block_size set_pin_block_size
       dataView offset cur_block_size pin_block_size isThruHole_part tag_reads].
  destruct (parseHeader _) as [[h|e|] sh]; [|reflexivity|reflexivity].
  cbv zeta. destruct (walk _ _ _) as [[l|e|] s']; reflexivity.
Qed.

(** The walk [parse] starts always has fuel left. *)
Lemma parse_walk arrayBuffer t07blockSize s0 h sh :
  parseHeader (started arrayBuffer t07blockSize s0) = (Ret h, sh) ->
  let view := ArrayBuffer_slice0 arrayBuffer (4 + part_size h) in
  let '(r, s') := walk (S (length view)) [] (set_dataView view sh) in
  walk_post (set_dataView view sh) r s' /\ 0 <= offset sh /\
  pin_block_size sh = 0 /\ tag_reads sh = tag_reads s0.
Proof.
  intros Hh view.
  pose proof (parseHeader_spec (started arrayBuffer t07blockSize s0)) as Hs.
  rewrite Hh in Hs. destruct Hs as [(_ & _ & Hpb & Htr & Hof) _].
  cbn [started offset pin_block_size tag_reads] in Hpb, Htr, Hof.
  pose proof (walk_spec (S (length view)) [] (set_dataView view sh)) as Hw.
  destruct (walk (S (length view)) [] (set_dataView view sh)) as [r s'].
  split; [|auto].
  apply Hw; [|lia|constructor].
  cbn [dataView offset set_dataView]. unfold byteLength. lia.
Qed.

Lemma part_parse_outcome arrayBuffer t07blockSize s0 :
  match parse arrayBuffer t07blockSize s0 with
  | (Ret pd, _) => Forall sub_ok (sub_blocks pd)
  | (Throw e, _) => e = RangeError
  | (OutOfFuel, _) => False
  end.
Proof.
  rewrite part_parse_unfold.
  pose proof (parseHeader_spec (started arrayBuffer t07blockSize s0)) as Hs.
  pose proof (parse_walk arrayBuffer t07blockSize s0) as Hw.
  destruct (parseHeader _) as [[h|e|] sh]; [|tauto|tauto].
  specialize (Hw h sh eq_refl). cbv zeta in *.
  destruct (walk _ _ _) as [r s'].
  destruct Hw as [(_ & _ & _ & _ & _ & Hr) _].
  destruct r; exact Hr.
Qed.

(** ** PartDataParser: the header by its bytes, and how a walk ends *)

Lemma getUint32_fits dv o :
  0 <= o -> o + 4 <= byteLength dv -> exists v, getUint32 dv o = Ret v.
Proof.
  intros H0 H4. unfold getUint32.
  replace (in_bounds dv o 4) with true by (symmetry; apply in_bounds_spec; lia).
  eauto.
Qed.

Lemma getUint8_fits dv o :
  0 <= o -> o + 1 <= byteLength dv -> getUint8 dv o = Ret (byte_at dv o).
Proof.
  intros H0 H4. unfold getUint8.
  replace (in_bounds dv o 1) with true by (symmetry; apply in_bounds_spec; lia).
  reflexivity.
Qed.

(** The header is returned as soon as its fixed fields and the group
    name lie in the view. *)
Lemma parseHeader_returns s psize nsize :
  getUint32 (dataView s) (offset s) = Ret psize ->
  getUint32 (dataView s) (offset s + 22) = Ret nsize ->
  nsize = 0 \/ offset s + 26 + nsize <= byteLength (dataView s) ->
  exists h s', parseHeader s = (Ret h, s').
Proof.
  intros Hp Hn Hfit.
  pose proof (getUint32_spec (dataView s) (offset s)) as H0. rewrite Hp in H0.
  pose proof (getUint32_spec (dataView s) (offset s + 22)) as H22. rewrite Hn in H22.
  cbn [read_ok] in H0, H22. destruct H0 as (H0 & _ & _). destruct H22 as (_ & H22 & Hnn).
  unfold parseHeader. unfold_monad.
  replace (offset s + 8 + 4 + 4 + 4 + 2) with (offset s + 22) by lia.
  replace (offset s + 22 + 4) with (offset s + 26) by lia.
  rewrite Hp, Hn.
  destruct (getUint32_fits (dataView s) (offset s + 8)) as [x ->]; [lia|lia|].
  destruct (getUint32_fits (dataView s) (offset s + 8 + 4)) as [y ->]; [lia|lia|].
  destruct (getUint32_fits (dataView s) (offset s + 8 + 4 + 4)) as [rot ->]; [lia|lia|].
  rewrite getUint8_fits by lia.
  destruct (0 <? nsize) eqn:E.
  - apply Z.ltb_lt in E. unfold readString.
    replace (nsize =? 0) with false by (symmetry; apply Z.eqb_neq; lia).
    unfold_monad. unfold new_Uint8Array. cbn [dataView offset set_offset].
    replace ((0 <=? offset s + 26) && (0 <=? nsize)
             && (offset s + 26 + nsize <=? byteLength (dataView s))) with true
      by (symmetry; rewrite !andb_true_iff, !Z.leb_le; lia).
    unfold ret. eauto.
  - unfold ret. eauto.
Qed.

(** The header by its bytes: the size of the part is the word at the
    offset, the size of the group name the word 22 bytes on, and the
    header is returned exactly when the name lies in the view. *)
Lemma parseHeader_by_bytes s :
  match getUint32 (dataView s) (offset s), getUint32 (dataView s) (offset s + 22) with
  | Ret psize, Ret nsize =>
    if (nsize =? 0) || (offset s + 26 + nsize <=? byteLength (dataView s)) then
      exists h s', parseHeader s = (Ret h, s') /\ frame s s' /\
                   part_size h = psize /\ part_group_name_size h = nsize /\
                   offset s' = offset s + 26 + nsize /\ 0 <= offset s /\ 0 <= nsize
    else exists s', parseHeader s = (Throw RangeError, s') /\ frame s s'
  | _, _ => exists s', parseHeader s = (Throw RangeError, s') /\ frame s s'
  end.
Proof.
  pose proof (parseHeader_spec s) as Hs.
  pose proof (parseHeader_returns s) as Hret.
  pose proof (getUint32_spec (dataView s) (offset s + 22)) as H22.
  destruct (parseHeader s) as [[h|e|] s'] eqn:Hh; [| |elim Hs].
  - destruct Hs as (Hf & Hp & H0 & _ & Hn & [Hz Hnz] & Hoff).
    rewrite Hp, Hn in *. cbn [read_ok] in H22.
    replace ((part_group_name_size h =? 0)
             || (offset s + 26 + part_group_name_size h <=? byteLength (dataView s)))
      with true.
    + exists h, s'. repeat split; try assumption; try lia; apply Hf.
    + symmetry. apply orb_true_iff. rewrite Z.eqb_eq, Z.leb_le.
      destruct (Z.eq_dec (part_group_name_size h) 0) as [E|E]; [left; exact E|].
      right. apply Hnz. exact E.
  - destruct Hs as [-> Hf].
    destruct (getUint32 (dataView s) (offset s)) as [psize|?|]; [|eauto|eauto].
    destruct (getUint32 (dataView s) (offset s + 22)) as [nsize|?|]; [|eauto|eauto].
    destruct ((nsize =? 0) || (offset s + 26 + nsize <=? byteLength (dataView s))) eqn:E;
      [|eauto].
    apply orb_true_iff in E. rewrite Z.eqb_eq, Z.leb_le in E.
    destruct (Hret psize nsize eq_refl eq_refl E) as (h & s'' & Hx). discriminate.
Qed.




End PartFacts.

(** ** RawPCBParser: what every method preserves *)

Module RawFacts.
Import RawPCBParser.

(** After the XOR block no method writes to the buffer; the size of the
    main region is fixed by [parseFileHeader]; offsets only grow. *)
Definition frame (s s' : state) : Prop :=
  dataView s' = dataView s /\ mainDataBlocksSize s' = mainDataBlocksSize s /\
  offset s <= offset s'.

Lemma frame_refl s : frame s s.
Proof. unfold frame. repeat split; lia. Qed.

Lemma frame_trans s1 s2 s3 : frame s1 s2 -> frame s2 s3 -> frame s1 s3.
Proof. unfold frame. intros (?&?&?) (?&?&?). repeat split; try congruence; lia. Qed.

Definition method {A} (m : M state A) (Q : state -> A -> state -> Prop) : Prop :=
  forall s,
    match m s with
    | (Ret a, s') => frame s s' /\ Q s a s'
    | (Throw e, s') => e = RangeError /\ frame s s'
    | (OutOfFuel, _) => False
    end.

Definition block_ok (b : Block) : Prop :=
  match b with
  | DATA d =>
    match parsed_data d with
    | Some pd => Forall sub_ok (PartDataParser.sub_blocks pd)
    | None => True
    end
  | _ => True
  end.

Definition result_ok (r : option Block) : Prop :=
  match r with
  | Some b => block_ok b
  | None => True
  end.

Ltac frame_solve :=
  unfold frame in *;
  cbn [dataView mainDataBlocksSize offset isThruHole_part
       set_offset set_isThruHole_part] in *;
  repeat match goal with H : _ /\ _ |- _ => destruct H end;
  repeat split; try reflexivity; try congruence; try lia.

Lemma readString_spec n :
  method (readString n) (fun s str s' =>
    offset s' = offset s + n /\ sized_string (dataView s) (offset s) n str /\
    (n = 0 -> s' = s)).
Proof.
  intros s. unfold readString, sized_string. destruct (n =? 0) eqn:E.
  - apply Z.eqb_eq in E. subst. unfold ret. frame_solve; tauto.
  - apply Z.eqb_neq in E. unfold_monad. read_step.
    + destruct Hrd as (?&?&->&?). unfold ret. frame_solve; tauto.
    + frame_solve.
Qed.

Ltac call_readString :=
  let H := fresh "Hstr" in
  match goal with
  | |- context [readString ?n ?s0] =>
    pose proof (readString_spec n s0) as H;
    destruct (readString n s0) as [[?str|?e|] ?s];
    unfold frame in H;
    cbn [dataView mainDataBlocksSize offset isThruHole_part
         set_offset set_isThruHole_part] in H;
    [ destruct H as ((?&?&?)&?&?&?) | destruct H as (->&(?&?&?)) | elim H ];
    cbv beta iota
  end.

Lemma parseType01_spec :
  method parseType01 (fun s r s' => result_ok r /\ offset s' = offset s + 36).
Proof.
  intros s. unfold parseType01. unfold_monad.
  repeat (read_step; [|frame_solve]). unfold ret. frame_solve.
Qed.

Lemma parseType05_spec :
  method parseType05 (fun s r s' => result_ok r /\ offset s' = offset s + 32).
Proof.
  intros s. unfold parseType05. unfold_monad.
  repeat (read_step; [|frame_solve]). unfold ret. frame_solve.
Qed.

Lemma parseType03_spec : method parseType03 (fun s r s' => r = None).
Proof.
  intros s. unfold parseType03. unfold_monad.
  read_step; [|frame_solve]. unfold ret. frame_solve.
Qed.

Lemma parseType09_spec : method parseType09 (fun s r s' => r = None).
Proof.
  intros s. unfold parseType09. unfold_monad.
  read_step; [|frame_solve]. unfold ret. frame_solve.
Qed.

Lemma parseType02_spec :
  method parseType02 (fun s r s' =>
    exists v n, r = Some (VIA v) /\
      getUint32 (dataView s) (offset s + 32) = Ret n /\
      sized_string (dataView s) (offset s + 36) n (via_text v) /\
      offset s' = offset s + 36 + n).
Proof.
  intros s. unfold parseType02. unfold_monad.
  repeat (read_step; [|frame_solve]).
  call_readString; [|frame_solve].
  unfold ret. split; [frame_solve|].
  eexists _, _. split; [reflexivity|]. cbn [via_text]. conj_solve.
Qed.

Lemma parseType06_spec :
  method parseType06 (fun s r s' =>
    exists t, r = Some (TEXT t) /\
      getUint32 (dataView s) (offset s + 30) = Ret (text_length t) /\
      sized_string (dataView s) (offset s + 34) (text_length t) (text t) /\
      offset s' = offset s + 34 + text_length t).
Proof.
  intros s. unfold parseType06. unfold_monad.
  repeat (read_step; [|frame_solve]).
  call_readString; [|frame_solve].
  unfold ret. split; [frame_solve|].
  eexists. split; [reflexivity|]. cbn [text_length text]. conj_solve.
Qed.

Lemma Array_from_fresh (plain : list byte) :
  Array_from (mkUint8Array plain 0 (byteLength plain)) = plain.
Proof.
  unfold Array_from, byteLength. cbn [view_length byteOffset buffer].
  rewrite Nat2Z.id. change (Z.to_nat 0) with 0%nat. rewrite drop_0.
  apply firstn_all.
Qed.

Section WithCryptoJS.
Variable des : list byte -> list byte -> option (list byte).

Lemma PartDataParser_parse_spec arrayBuffer blockSize :
  method (PartDataParser_parse arrayBuffer blockSize)
         (fun _ pd _ => Forall sub_ok (PartDataParser.sub_blocks pd)).
Proof.
  intros s. unfold PartDataParser_parse.
  pose proof (PartFacts.part_parse_outcome arrayBuffer blockSize
                (PartDataParser.constructor (isThruHole_part s))) as H.
  destruct (PartDataParser.parse _ _ _) as [[pd|e|] ps];
    [split; [frame_solve|exact H]|split; [exact H|frame_solve]|exact H].
Qed.

(** [try { decryptWithDES } catch { keep the ciphertext }] *)
Lemma decrypt_or_keep enc (s : state) :
  exists dec,
    try_catch (lift (decryptWithDES des enc)) (fun _ => ret enc) s = (Ret dec, s) /\
    buffer dec = match des keyBytes (Array_from enc) with
                 | Some plain => plain
                 | None => buffer enc
                 end /\
    Array_from dec = match des keyBytes (Array_from enc) with
                     | Some plain => plain
                     | None => Array_from enc
                     end.
Proof.
  unfold try_catch, lift, decryptWithDES, ret.
  destruct (des keyBytes (Array_from enc)) as [plain|].
  - eexists. split; [reflexivity|]. split; [reflexivity|apply Array_from_fresh].
  - eexists. split; [reflexivity|]. split; reflexivity.
Qed.

(** [try { parse } catch { null }]: only the module variable changes. *)
Lemma parse_or_null arrayBuffer blockSize (s : state) :
  exists parsedData g,
    try_catch (p <- PartDataParser_parse arrayBuffer blockSize;; ret (Some p))
              (fun _ => ret None) s = (Ret parsedData, set_isThruHole_part g s) /\
    match parsedData with
    | Some pd => fst (PartDataParser_parse arrayBuffer blockSize s) = Ret pd /\
                 Forall sub_ok (PartDataParser.sub_blocks pd)
    | None => exists e, fst (PartDataParser_parse arrayBuffer blockSize s) = Throw e
    end.
Proof.
  unfold try_catch, bind, ret.
  pose proof (PartDataParser_parse_spec arrayBuffer blockSize s) as Hp.
  unfold PartDataParser_parse in *.
  destruct (PartDataParser.parse _ _ _) as [[pd|e|] ps]; [| |elim Hp].
  - exists (Some pd), (PartDataParser.isThruHole_part ps). cbn [fst]. tauto.
  - exists None, (PartDataParser.isThruHole_part ps). cbn [fst]. split; [reflexivity|eauto].
Qed.

(** A DATA block that fits in the buffer is always returned: whatever the
    decryption and the part parser do is caught inside [parseType07]. *)
Lemma parseType07_spec :
  method (parseType07 des) (fun s r s' =>
    exists d, r = Some (DATA d) /\ block_ok (DATA d) /\
      getUint32 (dataView s) (offset s) = Ret (block_size d) /\
      offset s + 4 + block_size d <= byteLength (dataView s) /\
      offset s' = offset s + 4 + block_size d /\
      encrypted_data d =
        take (Z.to_nat (block_size d)) (drop (Z.to_nat (offset s + 4)) (dataView s)) /\
      decrypted_data d =
        match des keyBytes (encrypted_data d) with
        | Some plain => plain
        | None => encrypted_data d
        end).
Proof.
  intros s. unfold parseType07. unfold_monad.
  read_step; [|frame_solve].
  read_step; [|frame_solve].
  destruct Hrd0 as (?&?&->&?).
  set (enc := mkUint8Array (dataView s) (offset s + 4) a).
  set (s1 := set_offset (offset s + 4 + a) (set_offset (offset s + 4) s)).
  destruct (decrypt_or_keep enc s1) as (dec & Hd & _ & Hdec).
  match goal with
  | |- context [try_catch ?m ?h s1] =>
    change (try_catch m h s1)
      with (try_catch (lift (decryptWithDES des enc)) (fun _ => ret enc) s1)
  end.
  rewrite Hd. cbv beta iota.
  destruct (parse_or_null (buffer dec) a s1) as (pdo & g & Hp & Hpd).
  match goal with
  | |- context [try_catch ?m ?h s1] =>
    change (try_catch m h s1)
      with (try_catch (p <- PartDataParser_parse (buffer dec) a;; ret (Some p))
                      (fun _ => ret None) s1)
  end.
  rewrite Hp. cbv beta iota. unfold ret.
  split; [subst s1; frame_solve|].
  eexists. split; [reflexivity|].
  cbn [block_ok parsed_data block_size encrypted_data decrypted_data].
  split; [destruct pdo; tauto|]. split; [reflexivity|]. split; [lia|].
  split; [subst s1; frame_solve|]. split; [reflexivity|exact Hdec].
Qed.

(** The same, as an equation, when the block is known to fit. *)
Lemma parseType07_fits s n :
  getUint32 (dataView s) (offset s) = Ret n ->
  offset s + 4 + n <= byteLength (dataView s) ->
  let raw := take (Z.to_nat n) (drop (Z.to_nat (offset s + 4)) (dataView s)) in
  exists parsedData g,
    parseType07 des s =
    (Ret (Some (DATA (mkData n raw
                        match des keyBytes raw with
                        | Some plain => plain
                        | None => raw
                        end parsedData))),
     set_isThruHole_part g (set_offset (offset s + 4 + n) (set_offset (offset s + 4) s))).
Proof.
  intros Hn Hfit raw. unfold parseType07. unfold_monad. rewrite Hn.
  pose proof (getUint32_spec (dataView s) (offset s)) as Hr. rewrite Hn in Hr.
  destruct Hr as (H0 & _ & Hnn).
  unfold new_Uint8Array.
  replace ((0 <=? offset s + 4) && (0 <=? n)
           && (offset s + 4 + n <=? byteLength (dataView s))) with true
    by (symmetry; rewrite !andb_true_iff, !Z.leb_le; lia).
  set (enc := mkUint8Array (dataView s) (offset s + 4) n).
  set (s1 := set_offset (offset s + 4 + n) (set_offset (offset s + 4) s)).
  destruct (decrypt_or_keep enc s1) as (dec & Hd & _ & Hdec).
  match goal with
  | |- context [try_catch ?m ?h s1] =>
    change (try_catch m h s1)
      with (try_catch (lift (decryptWithDES des enc)) (fun _ => ret enc) s1)
  end.
  rewrite Hd. cbv beta iota.
  destruct (parse_or_null (buffer dec) n s1) as (pdo & g & Hp & _).
  match goal with
  | |- context [try_catch ?m ?h s1] =>
    change (try_catch m h s1)
      with (try_catch (p <- PartDataParser_parse (buffer dec) n;; ret (Some p))
                      (fun _ => ret None) s1)
  end.
  rewrite Hp. cbv beta iota. unfold ret.
  exists pdo, g. rewrite Hdec. reflexivity.
Qed.

Lemma method_weaken {A} (m : M state A) (Q Q' : state -> A -> state -> Prop) :
  method m Q -> (forall s a s', Q s a s' -> Q' s a s') -> method m Q'.
Proof.
  intros Hm HQ s. specialize (Hm s).
  destruct (m s) as [[a|e|] s']; [|exact Hm|exact Hm].
  split; [tauto|]. apply HQ. tauto.
Qed.

Lemma skip_byte_spec :
  method (s <- get;; modify (set_offset (offset s + 1));; ret (@None Block))
         (fun _ r _ => result_ok r).
Proof. intros s. unfold_monad. unfold ret. frame_solve. Qed.

Lemma blockHandlers_spec v :
  match blockHandlers des v with
  | Some handler => method handler (fun _ r _ => result_ok r)
  | None => True
  end.
Proof.
  unfold blockHandlers.
  repeat match goal with
         | |- context [if ?c then _ else _] => destruct c
         end; try exact I; try exact skip_byte_spec.
  - eapply method_weaken; [apply parseType01_spec|]. cbv beta. tauto.
  - eapply method_weaken; [apply parseType02_spec|]. cbv beta.
    intros ? ? ? (?&?&->&_). exact I.
  - eapply method_weaken; [apply parseType03_spec|]. cbv beta.
    intros ? ? ? ->. exact I.
  - eapply method_weaken; [apply parseType05_spec|]. cbv beta. tauto.
  - eapply method_weaken; [apply parseType06_spec|]. cbv beta.
    intros ? ? ? (?&->&_). exact I.
  - eapply method_weaken; [apply parseType07_spec|]. cbv beta.
    intros ? ? ? (?&->&?&_). assumption.
  - eapply method_weaken; [apply parseType09_spec|]. cbv beta.
    intros ? ? ? ->. exact I.
Qed.

Lemma main_round_spec endOffset blocks :
  method (main_round des endOffset blocks) (fun s r s' =>
    match r with
    | Some blocks' =>
      0 <= offset s < byteLength (dataView s) /\ offset s < offset s' /\
      (Forall block_ok blocks -> Forall block_ok blocks')
    | None => s' = s
    end).
Proof.
  intros s. unfold main_round. unfold_monad.
  destruct ((offset s <? endOffset) && (offset s <? byteLength (dataView s))) eqn:Hg;
    [|unfold ret; split; [apply frame_refl|reflexivity]].
  apply andb_true_iff in Hg. destruct Hg as [_ Hg]. apply Z.ltb_lt in Hg.
  read_step; [|frame_solve].
  destruct (a =? 0); [unfold ret; frame_solve; tauto|].
  read_step; [|frame_solve].
  pose proof (blockHandlers_spec a0) as Hh.
  destruct (blockHandlers des a0) as [handler|];
    [|unfold ret; frame_solve; tauto].
  specialize (Hh (set_offset (offset s + 1) s)).
  destruct (handler (set_offset (offset s + 1) s)) as [[[b|]|e|] s1];
    [| | |elim Hh].
  - unfold ret. destruct Hh as [Hf Hb]. split; [frame_solve|].
    split; [lia|]. split; [frame_solve|].
    intros Hacc. apply Forall_app. split; [assumption|].
    constructor; [exact Hb|constructor].
  - unfold ret. destruct Hh as [Hf Hb]. split; [frame_solve|].
    split; [lia|]. split; [frame_solve|tauto].
  - destruct Hh as [-> Hf]. frame_solve.
Qed.

Lemma main_loop_spec fuel :
  forall endOffset blocks s,
    Z.of_nat fuel > byteLength (dataView s) - offset s -> (1 <= fuel)%nat ->
    Forall block_ok blocks ->
    match main_loop des fuel endOffset blocks s with
    | (Ret l, s') => frame s s' /\ Forall block_ok l
    | (Throw e, s') => e = RangeError /\ frame s s'
    | (OutOfFuel, _) => False
    end.
Proof.
  induction fuel as [|fuel IH]; intros endOffset blocks s Hfuel Hpos Hacc; [lia|].
  cbn [main_loop]. unfold bind.
  pose proof (main_round_spec endOffset blocks s) as Hr.
  destruct (main_round des endOffset blocks s) as [[[blocks'|]|e|] s1];
    [| |exact Hr|exact Hr].
  - destruct Hr as (Hf & Ho & Hlt & Hok).
    assert (Hdv : dataView s1 = dataView s) by apply Hf.
    assert (Hfu : Z.of_nat fuel > byteLength (dataView s1) - offset s1)
      by (rewrite Hdv; lia).
    specialize (IH endOffset blocks' s1 Hfu ltac:(lia) (Hok Hacc)).
    destruct (main_loop des fuel endOffset blocks' s1) as [[l|e|] s2].
    + split; [eapply frame_trans; [exact Hf|apply IH]|apply IH].
    + split; [apply IH|eapply frame_trans; [exact Hf|apply IH]].
    + exact IH.
  - unfold ret. destruct Hr as [Hf ->]. split; [apply frame_refl|exact Hacc].
Qed.

Lemma parseMainDataBlocks_spec s :
  0 <= offset s ->
  match parseMainDataBlocks des s with
  | (Ret l, s') => frame s s' /\ Forall block_ok l
  | (Throw e, s') => e = RangeError /\ frame s s'
  | (OutOfFuel, _) => False
  end.
Proof.
  intros Ho. unfold parseMainDataBlocks. unfold_monad.
  apply main_loop_spec; [unfold byteLength; lia|lia|constructor].
Qed.

End WithCryptoJS.

End RawFacts.

(** ** The XOR block *)

Module XorFacts.
Import RawPCBParser.

Lemma lxor_byte a b : 0 <= a < 256 -> 0 <= b < 256 -> 0 <= Z.lxor a b < 256.
Proof.
  intros Ha Hb. split; [apply Z.lxor_nonneg; lia|].
  destruct (Z.eq_dec (Z.lxor a b) 0) as [->|Hne]; [lia|].
  assert (0 < Z.lxor a b) by (pose proof (proj2 (Z.lxor_nonneg a b)); lia).
  change 256 with (2 ^ 8). apply Z.log2_lt_pow2; [assumption|].
  pose proof (Z.log2_lxor a b ltac:(lia) ltac:(lia)) as Hl.
  assert (Z.log2 a < 8).
  { destruct (Z.eq_dec a 0) as [->|]; [cbn; lia|]. apply Z.log2_lt_pow2; lia. }
  assert (Z.log2 b < 8).
  { destruct (Z.eq_dec b 0) as [->|]; [cbn; lia|]. apply Z.log2_lt_pow2; lia. }
  lia.
Qed.

Lemma lookup_nth (dv : list byte) (k : nat) :
  (k < length dv)%nat -> dv !! k = Some (nth k dv x00).
Proof.
  intros Hk. destruct (nth_lookup_or_length dv k x00) as [H|H]; [exact H|lia].
Qed.

Lemma getUint8_in dv o :
  0 <= o < byteLength dv -> getUint8 dv o = Ret (byte_at dv o).
Proof.
  intros H. unfold getUint8.
  destruct (in_bounds dv o 1) eqn:E; [reflexivity|].
  assert (in_bounds dv o 1 = true) by (apply in_bounds_spec; lia). congruence.
Qed.

Lemma byte_at_insert dv i j x :
  0 <= i < byteLength dv -> 0 <= j ->
  byte_at (<[Z.to_nat i := x]> dv) j = if j =? i then u8 x else byte_at dv j.
Proof.
  unfold byteLength, byte_at. intros Hi Hj. rewrite !nth_lookup.
  destruct (j =? i) eqn:E.
  - apply Z.eqb_eq in E. subst j.
    rewrite list_lookup_insert_eq by lia. reflexivity.
  - apply Z.eqb_neq in E. rewrite list_lookup_insert_ne by lia. reflexivity.
Qed.

(** The bytes of [seq] stand at index [i] of [buf]. *)
Definition occurs_at (buf : list byte) (seq : list Z) (i : Z) : Prop :=
  0 <= i /\ map u8 (take (length seq) (drop (Z.to_nat i) buf)) = seq.

Lemma occurs_at_fits buf seq i :
  (0 < length seq)%nat ->
  occurs_at buf seq i -> i + Z.of_nat (length seq) <= byteLength buf.
Proof.
  intros Hpos [Hi Heq]. apply (f_equal (@length Z)) in Heq.
  rewrite length_map, length_take, length_drop in Heq.
  unfold byteLength. lia.
Qed.

Lemma matches_from_spec rest :
  forall array i j,
    0 <= i + j -> i + j + Z.of_nat (length rest) <= byteLength array ->
    exists b, matches_from array i j rest = Ret b /\
              (b = true <->
               map u8 (take (length rest) (drop (Z.to_nat (i + j)) array)) = rest).
Proof.
  induction rest as [|c rest IH]; intros array i j H0 Hfit.
  - exists true. cbn. rewrite take_0. tauto.
  - cbn [matches_from length] in *. unfold obind.
    rewrite getUint8_in by lia.
    assert (Hk : (Z.to_nat (i + j) < length array)%nat) by (unfold byteLength in Hfit; lia).
    rewrite (drop_S _ _ _ (lookup_nth array _ Hk)). cbn [take map].
    fold (byte_at array (i + j)).
    replace (S (Z.to_nat (i + j))) with (Z.to_nat (i + (j + 1))) by lia.
    destruct (byte_at array (i + j) =? c) eqn:E.
    + apply Z.eqb_eq in E.
      destruct (IH array i (j + 1)) as (b & -> & Hb); [lia|lia|].
      exists b. split; [reflexivity|]. rewrite Hb, E.
      split; [intros ->; reflexivity|intros [= ?]; assumption].
    + apply Z.eqb_neq in E. exists false. split; [reflexivity|].
      split; [discriminate|intros [= ? ?]; contradiction].
Qed.

Lemma findSequence_from_spec array seq n :
  forall i,
    0 <= i ->
    (n <> 0%nat -> i + Z.of_nat n - 1 + Z.of_nat (length seq) <= byteLength array) ->
    exists k, findSequence_from n i array seq = Ret k /\
      ((k = -1 /\ forall j, i <= j < i + Z.of_nat n -> ~ occurs_at array seq j) \/
       (i <= k < i + Z.of_nat n /\ occurs_at array seq k /\
        forall j, i <= j < k -> ~ occurs_at array seq j)).
Proof.
  induction n as [|n IH]; intros i Hi Hfit.
  - exists (-1). split; [reflexivity|]. left. split; [reflexivity|]. intros j Hj. lia.
  - specialize (Hfit ltac:(lia)). cbn [findSequence_from]. unfold obind.
    destruct (matches_from_spec seq array i 0) as (b & -> & Hb); [lia|lia|].
    replace (i + 0) with i in Hb by lia.
    destruct b.
    + exists i. split; [reflexivity|]. right. split; [lia|]. split.
      * split; [lia|]. apply Hb. reflexivity.
      * intros j Hj. lia.
    + destruct (IH (i + 1)) as (k & -> & Hk); [lia|intros; lia|].
      assert (Hno : ~ occurs_at array seq i).
      { intros [_ Ho]. apply Hb in Ho. discriminate. }
      exists k. split; [reflexivity|].
      destruct Hk as [[-> Hk]|(Hr & Ho & Hk)].
      * left. split; [reflexivity|]. intros j Hj.
        destruct (Z.eq_dec j i) as [->|]; [exact Hno|apply Hk; lia].
      * right. split; [lia|]. split; [exact Ho|]. intros j Hj.
        destruct (Z.eq_dec j i) as [->|]; [exact Hno|apply Hk; lia].
Qed.

(** The end of the obfuscated prefix: the first index at which the
    sentinel stands, or the length of the buffer when it stands nowhere. *)
Definition xor_end (buf : list byte) (e : Z) : Prop :=
  (occurs_at buf sequence e /\ forall j, j < e -> ~ occurs_at buf sequence j) \/
  ((forall j, ~ occurs_at buf sequence j) /\ e = byteLength buf).

Lemma sequence_length : (0 < length sequence)%nat.
Proof. unfold sequence. cbn [length]. lia. Qed.

Lemma findSequence_spec array :
  exists k, findSequence array sequence = Ret k /\
    let e := if k =? -1 then byteLength array else k in
    xor_end array e /\ 0 <= e <= byteLength array.
Proof.
  unfold findSequence.
  set (n := Z.to_nat (byteLength array - Z.of_nat (length sequence) + 1)).
  assert (Hlen : 0 <= byteLength array) by (unfold byteLength; lia).
  destruct (findSequence_from_spec array sequence n 0) as (k & Hk & Hcase).
  { lia. }
  { subst n. cbn [length sequence]. lia. }
  exists k. split; [exact Hk|]. cbv zeta. cbn [length sequence] in n.
  destruct Hcase as [[-> Hno]|(Hr & Ho & Hno)].
  - change (-1 =? -1) with true. cbv iota. split; [|lia].
    right. split; [|reflexivity]. intros j Hj.
    pose proof (occurs_at_fits _ _ _ sequence_length Hj) as Hfit.
    pose proof Hj as [Hj0 _]. cbn [length sequence] in Hfit.
    apply (Hno j); [|exact Hj]. subst n. lia.
  - destruct (k =? -1) eqn:E; [apply Z.eqb_eq in E; lia|].
    pose proof (occurs_at_fits _ _ _ sequence_length Ho) as Hfit. split; [|cbn [length sequence] in Hfit; lia].
    left. split; [exact Ho|]. intros j Hj Hocc.
    apply (Hno j); [|exact Hocc]. destruct Hocc as [? _]. lia.
Qed.

Lemma xor_loop_spec n :
  forall i key s,
    0 <= i -> i + Z.of_nat n <= byteLength (dataView s) -> 0 <= key < 256 ->
    exists dv',
      xor_loop n i key s = (Ret tt, set_dataView dv' s) /\
      length dv' = length (dataView s) /\
      forall j, 0 <= j ->
        byte_at dv' j = if (i <=? j) && (j <? i + Z.of_nat n)
                        then Z.lxor (byte_at (dataView s) j) key
                        else byte_at (dataView s) j.
Proof.
  induction n as [|n IH]; intros i key s Hi Hfit Hkey.
  - exists (dataView s). split; [destruct s; reflexivity|]. split; [reflexivity|].
    intros j Hj. destruct (i <=? j) eqn:E1; [|reflexivity].
    destruct (j <? i + Z.of_nat 0) eqn:E2; [|reflexivity].
    apply Z.leb_le in E1. apply Z.ltb_lt in E2. lia.
  - cbn [xor_loop]. unfold_monad. rewrite getUint8_in by lia.
    unfold setUint8.
    assert (Hin : in_bounds (dataView s) i 1 = true) by (apply in_bounds_spec; lia).
    rewrite Hin.
    set (dv1 := <[Z.to_nat i := to_u8 (Z.lxor (byte_at (dataView s) i) key)]> (dataView s)).
    assert (Hl1 : length dv1 = length (dataView s)) by apply length_insert.
    destruct (IH (i + 1) key (set_dataView dv1 s)) as (dv' & Heq & Hl & Hb).
    { lia. }
    { cbn [dataView set_dataView]. unfold byteLength in *. lia. }
    { exact Hkey. }
    exists dv'. split; [rewrite Heq; reflexivity|].
    cbn [dataView set_dataView] in *. split; [congruence|].
    intros j Hj. rewrite (Hb j Hj). subst dv1.
    rewrite byte_at_insert by lia.
    rewrite to_u8_u8 by (apply lxor_byte; [apply byte_at_range|exact Hkey]).
    destruct (Z.eq_dec j i) as [->|Hne].
    + rewrite Z.eqb_refl.
      replace (i + 1 <=? i) with false by (symmetry; apply Z.leb_gt; lia).
      replace (i <=? i) with true by (symmetry; apply Z.leb_le; lia).
      replace (i <? i + Z.of_nat (S n)) with true by (symmetry; apply Z.ltb_lt; lia).
      reflexivity.
    + replace (j =? i) with false by (symmetry; apply Z.eqb_neq; lia).
      destruct (i + 1 <=? j) eqn:E1, (i <=? j) eqn:E2;
        rewrite ?Z.leb_le, ?Z.leb_gt in E1, E2; try lia; cbn [andb]; [|reflexivity].
      replace (i + 1 + Z.of_nat n) with (i + Z.of_nat (S n)) by lia. reflexivity.
Qed.

(** What the XOR block leaves in the buffer [buf] it started from. *)
Definition xor_result (buf dv' : list byte) : Prop :=
  length dv' = length buf /\
  (byte_at buf 16 = 0 -> dv' = buf) /\
  (byte_at buf 16 <> 0 ->
   exists e, xor_end buf e /\
     forall j, 0 <= j ->
       byte_at dv' j = if j <? e then Z.lxor (byte_at buf j) (byte_at buf 16)
                       else byte_at buf j).

Lemma set_dataView_same s : set_dataView (dataView s) s = s.
Proof. destruct s; reflexivity. Qed.

Lemma xor_decryption_short s :
  byteLength (dataView s) <= 16 -> xor_decryption s = (Throw RangeError, s).
Proof.
  intros H. unfold xor_decryption. unfold_monad. unfold getUint8.
  destruct (in_bounds (dataView s) 16 1) eqn:E; [|reflexivity].
  apply in_bounds_spec in E. lia.
Qed.

Lemma xor_decryption_spec s :
  16 < byteLength (dataView s) ->
  exists dv', xor_decryption s = (Ret tt, set_dataView dv' s) /\
              xor_result (dataView s) dv'.
Proof.
  intros H. unfold xor_decryption. unfold_monad.
  rewrite getUint8_in by lia.
  destruct (byte_at (dataView s) 16 =? 0) eqn:E.
  - apply Z.eqb_eq in E. exists (dataView s). unfold ret.
    rewrite set_dataView_same. split; [reflexivity|].
    split; [reflexivity|]. split; [reflexivity|]. intros Hne. contradiction.
  - apply Z.eqb_neq in E.
    destruct (findSequence_spec (dataView s)) as (k & -> & Hend & Hrange).
    cbv zeta in Hend, Hrange. cbv beta iota.
    set (e := if k =? -1 then byteLength (dataView s) else k) in *.
    destruct (xor_loop_spec (Z.to_nat e) 0 (byte_at (dataView s) 16) s)
      as (dv' & -> & Hl & Hb); [lia|lia|apply byte_at_range|].
    exists dv'. split; [reflexivity|]. split; [exact Hl|].
    split; [intros H0; contradiction|]. intros _. exists e. split; [exact Hend|].
    intros j Hj. rewrite (Hb j Hj). rewrite Z2Nat.id by lia.
    replace (0 <=? j) with true by (symmetry; apply Z.leb_le; lia).
    reflexivity.
Qed.

End XorFacts.

(** ** The whole of [RawPCBParser.parse] *)

Module ParseFacts.
Import RawPCBParser.
Import XorFacts.

Section WithCryptoJS.
Variable des : list byte -> list byte -> option (list byte).

(** The parser object when the XOR block starts. *)
Definition entered (arrayBuffer : list byte) (s0 : state) : state :=
  set_offset 0 (set_dataView arrayBuffer s0).

(** The parser object when [parseMainDataBlocks] starts. *)
Definition at_main_region (dv : list byte) (n : Z) (s0 : state) : state :=
  mkState dv 68 n (isThruHole_part s0).

Lemma parse_unfold arrayBuffer s0 :
  parse des arrayBuffer s0 =
  match xor_decryption (entered arrayBuffer s0) with
  | (Ret _, s1) =>
    match parseFileHeader s1 with
    | (Ret _, s2) =>
      match parseMainDataBlocks des s2 with
      | (Ret blocks, s') => (Ret (mkBoard blocks), s')
      | (Throw e, s') => (Throw e, s')
      | (OutOfFuel, s') => (OutOfFuel, s')
      end
    | (Throw e, s2) => (Throw e, s2)
    | (OutOfFuel, s2) => (OutOfFuel, s2)
    end
  | (Throw e, s1) => (Throw e, s1)
  | (OutOfFuel, s1) => (OutOfFuel, s1)
  end.
Proof.
  unfold parse, entered, bind, modify, ret.
  destruct (xor_decryption _) as [[u|e|] s1]; [|reflexivity|reflexivity].
  destruct (parseFileHeader s1) as [[u'|e|] s2]; [|reflexivity|reflexivity].
  destruct (parseMainDataBlocks des s2) as [[l|e|] s3]; reflexivity.
Qed.

Lemma parseFileHeader_eq s :
  parseFileHeader s =
  match getUint32 (dataView s) 64 with
  | Ret n => (Ret tt, mkState (dataView s) 68 n (isThruHole_part s))
  | Throw e => (Throw e, s)
  | OutOfFuel => (OutOfFuel, s)
  end.
Proof.
  unfold parseFileHeader. unfold_monad.
  destruct (getUint32 (dataView s) 64); reflexivity.
Qed.

Lemma parse_short arrayBuffer s0 :
  byteLength arrayBuffer < 68 ->
  fst (parse des arrayBuffer s0) = Throw RangeError /\
  dataView (snd (parse des arrayBuffer s0)) =
  dataView (snd (xor_decryption (entered arrayBuffer s0))).
Proof.
  intros Hlen. rewrite parse_unfold.
  destruct (Z_le_gt_dec (byteLength arrayBuffer) 16) as [Hs|Hs].
  - rewrite (xor_decryption_short (entered arrayBuffer s0)) by exact Hs.
    split; reflexivity.
  - destruct (xor_decryption_spec (entered arrayBuffer s0)) as (dv' & -> & Hl & _);
      [cbn [entered dataView set_offset set_dataView]; lia|].
    cbn [entered dataView set_offset set_dataView] in Hl.
    rewrite parseFileHeader_eq. unfold getUint32.
    destruct (in_bounds _ 64 4) eqn:E; [|split; reflexivity].
    apply in_bounds_spec in E. cbn [dataView set_dataView] in E.
    unfold byteLength in *. lia.
Qed.

Lemma parse_long arrayBuffer s0 :
  68 <= byteLength arrayBuffer ->
  exists dv' n,
    xor_decryption (entered arrayBuffer s0) =
      (Ret tt, set_dataView dv' (entered arrayBuffer s0)) /\
    xor_result arrayBuffer dv' /\
    getUint32 dv' 64 = Ret n /\
    parse des arrayBuffer s0 =
    match parseMainDataBlocks des (at_main_region dv' n s0) with
    | (Ret blocks, s') => (Ret (mkBoard blocks), s')
    | (Throw e, s') => (Throw e, s')
    | (OutOfFuel, s') => (OutOfFuel, s')
    end.
Proof.
  intros Hlen. rewrite parse_unfold.
  destruct (xor_decryption_spec (entered arrayBuffer s0)) as (dv' & Hx & Hr);
    [cbn [entered dataView set_offset set_dataView]; lia|].
  cbn [entered dataView set_offset set_dataView] in Hr.
  pose proof Hr as (Hl & _).
  assert (Hin : in_bounds dv' 64 4 = true)
    by (apply in_bounds_spec; unfold byteLength in *; lia).
  assert (Hn : exists n, getUint32 dv' 64 = Ret n)
    by (unfold getUint32; rewrite Hin; eauto).
  destruct Hn as (n & Hn).
  exists dv', n. split; [exact Hx|]. split; [exact Hr|]. split; [exact Hn|].
  rewrite Hx, parseFileHeader_eq.
  cbn [dataView set_dataView entered set_offset isThruHole_part]. rewrite Hn.
  reflexivity.
Qed.

Lemma parse_outcome arrayBuffer s0 :
  match parse des arrayBuffer s0 with
  | (Ret board, s') =>
    Forall RawFacts.block_ok (main_data_block board) /\
    68 <= byteLength arrayBuffer
  | (Throw e, s') => e = RangeError
  | (OutOfFuel, _) => False
  end /\
  dataView (snd (parse des arrayBuffer s0)) =
  dataView (snd (xor_decryption (entered arrayBuffer s0))).
Proof.
  destruct (Z_lt_ge_dec (byteLength arrayBuffer) 68) as [Hs|Hs].
  - destruct (parse_short arrayBuffer s0 Hs) as [H1 H2]. split; [|exact H2].
    destruct (parse des arrayBuffer s0) as [r s']. cbn [fst] in H1. subst r.
    reflexivity.
  - destruct (parse_long arrayBuffer s0 ltac:(lia)) as (dv' & n & Hx & Hr & Hn & ->).
    rewrite Hx.
    pose proof (RawFacts.parseMainDataBlocks_spec des (at_main_region dv' n s0)) as Hm.
    cbn [at_main_region offset] in Hm. specialize (Hm ltac:(lia)).
    destruct (parseMainDataBlocks des _) as [[l|e|] s']; [| |elim Hm].
    + destruct Hm as [(Hdv & _) Hok]. cbn [snd main_data_block dataView set_dataView].
      split; [split; [exact Hok|lia]|exact Hdv].
    + destruct Hm as [-> (Hdv & _)]. cbn [snd dataView set_dataView].
      split; [reflexivity|exact Hdv].
Qed.

End WithCryptoJS.

End ParseFacts.

(** ** Strings *)

Module StringFacts.

Definition ascii (b : byte) : Prop := u8 b <= 127.

Lemma utf8_run_ascii bs :
  Forall ascii bs -> utf8_run utf8_init bs = map u8 bs.
Proof.
  induction 1 as [|b bs Hb _ IH]; [reflexivity|].
  cbn [utf8_run map]. change (bytes_needed utf8_init =? 0) with true. cbv iota.
  unfold utf8_lead. unfold ascii in Hb.
  replace (u8 b <=? 127) with true by (symmetry; apply Z.leb_le; exact Hb).
  rewrite IH. reflexivity.
Qed.

Lemma keep_unless_BOM (x : Z) (l : jsstring) :
  x <> 65279 ->
  match x :: l with
  | 65279 :: t => t
  | s => s
  end = x :: l.
Proof.
  intros Hx. destruct x as [|p|p]; try reflexivity.
  do 16 (destruct p as [p|p|]; try reflexivity). congruence.
Qed.

Lemma TextDecoder_decode_ascii bs :
  Forall ascii bs -> TextDecoder_decode bs = map u8 bs.
Proof.
  intros H. unfold TextDecoder_decode. rewrite (utf8_run_ascii bs H).
  destruct H as [|b bs Hb _]; [reflexivity|]. cbn [map].
  apply keep_unless_BOM. unfold ascii in Hb. lia.
Qed.

Lemma lengths_ascii bs :
  Forall ascii bs ->
  js_length (map u8 bs) = Z.of_nat (length bs) /\
  utf8_length (map u8 bs) = Z.of_nat (length bs).
Proof.
  induction 1 as [|b bs Hb _ [IH1 IH2]]; [split; reflexivity|].
  unfold ascii in Hb. cbn [map js_length utf8_length fold_right length].
  fold (js_length (map u8 bs)). fold (utf8_length (map u8 bs)).
  rewrite IH1, IH2.
  replace (65536 <=? u8 b) with false by (symmetry; apply Z.leb_gt; lia).
  replace (u8 b <=? 127) with true by (symmetry; apply Z.leb_le; lia).
  lia.
Qed.

(** The bytes a size field [n] read at [size_at] announces. *)
Definition announced (dv : list byte) (size_at n : Z) : list byte :=
  take (Z.to_nat n) (drop (Z.to_nat (size_at + 4)) dv).

(** [str] is emitted for the size field at [size_at], of value [n]:
    nothing is decoded for size 0, else exactly the [n] announced bytes
    are; the lengths agree with [n] when those bytes are ASCII. *)
Definition emitted_for (dv : list byte) (size_at n : Z) (str : jsstring) : Prop :=
  getUint32 dv size_at = Ret n /\
  str = (if n =? 0 then [] else TextDecoder_decode (announced dv size_at n)) /\
  (Forall ascii (announced dv size_at n) ->
   js_length str = n /\ utf8_length str = n).

Lemma sized_emitted dv size_at n str :
  getUint32 dv size_at = Ret n ->
  sized_string dv (size_at + 4) n str ->
  emitted_for dv size_at n str.
Proof.
  intros Hn [H0 Hs]. unfold emitted_for, announced.
  pose proof (getUint32_spec dv size_at) as Hr. rewrite Hn in Hr.
  destruct Hr as (Hpos & _ & Hnn).
  split; [exact Hn|]. destruct (n =? 0) eqn:E.
  - apply Z.eqb_eq in E. subst n. rewrite (H0 eq_refl).
    split; [reflexivity|]. intros _. split; reflexivity.
  - apply Z.eqb_neq in E. destruct (Hs E) as [Hfit ->].
    split; [reflexivity|]. intros Hascii.
    rewrite (TextDecoder_decode_ascii _ Hascii).
    destruct (lengths_ascii _ Hascii) as [-> ->].
    rewrite length_take, length_drop. unfold byteLength in Hfit. lia.
Qed.

End StringFacts.

(** * Test vectors *)

Module Vectors.

Definition zeros (n : nat) : list byte := repeat x00 n.

(** A clear 0x44-byte file header announcing a main region of [main] bytes. *)
Definition file_header (main : Z) : list byte := zeros 64 ++ le32 main.

(** Tag 0x05, block_size 28, layer 1, (100,200)-(300,400), scale 20000, net 7. *)
Definition SEGMENT_block : list byte :=
  bytes_of [5] ++ le32 28 ++ le32 1 ++ le32 100 ++ le32 200 ++ le32 300 ++
  le32 400 ++ le32 20000 ++ le32 7.

(** Tag 0x02 with the given text bytes. *)
Definition VIA_block (text : list Z) : list byte :=
  bytes_of [2] ++ le32 (32 + Z.of_nat (length text)) ++ le32 10 ++ le32 20 ++
  le32 5 ++ le32 3 ++ le32 1 ++ le32 2 ++ le32 9 ++
  le32 (Z.of_nat (length text)) ++ bytes_of text.

(** The page did not load CryptoJS: every [decryptWithDES] throws. *)
Definition no_CryptoJS : list byte -> list byte -> option (list byte) :=
  fun _ _ => None.

(** A CryptoJS whose answer for the ciphertext at hand is [plain]. *)
Definition CryptoJS_answering (plain : list byte)
  : list byte -> list byte -> option (list byte) :=
  fun _ _ => Some plain.

(** An unknown tag 0x0A, then a SEGMENT. *)
Definition unknown_tag_file : list byte :=
  file_header 34 ++ bytes_of [10] ++ SEGMENT_block.

(** A tag 0x04 directly followed by a SEGMENT. *)
Definition sentinel_tag_file : list byte :=
  file_header 34 ++ bytes_of [4] ++ SEGMENT_block.

(** A SEGMENT file obfuscated with key 0x5A, the sentinel, four more bytes. *)
Definition obfuscated_file : list byte :=
  map (fun b => to_u8 (Z.lxor (u8 b) 90)) (file_header 33 ++ SEGMENT_block) ++
  bytes_of RawPCBParser.sequence ++ zeros 4.

(** One DATA block with a ciphertext of 7 bytes.  The first 59 bytes of
    the file happen to read as a part of size 55 with one line. *)
Definition undecryptable_file : list byte :=
  le32 55 ++ zeros 22 ++
  bytes_of [5] ++ le32 28 ++ le32 29 ++ le32 1 ++ le32 2 ++ le32 3 ++ le32 4 ++
  le32 5 ++ zeros 4 ++
  zeros 5 ++ le32 12 ++
  bytes_of [7] ++ le32 7 ++ bytes_of [1; 2; 3; 4; 5; 6; 7].

(** A VIA whose text is the three bytes C3 A9 FF. *)
Definition via_file : list byte :=
  file_header 40 ++ VIA_block [195; 169; 255].

(** The parser object once the tag of a VIA block "GND" has been consumed. *)
Definition at_VIA_block : RawPCBParser.state :=
  RawPCBParser.mkState (file_header 40 ++ VIA_block [71; 78; 68]) 69 40 None.

(** The parser object once the tag of that DATA block has been consumed. *)
Definition at_DATA_block : RawPCBParser.state :=
  RawPCBParser.mkState undecryptable_file 69 12 None.

(** The parser object in front of the tag 0x04 of [sentinel_tag_file]. *)
Definition at_sentinel_tag : RawPCBParser.state :=
  RawPCBParser.mkState sentinel_tag_file 68 34 None.

(** One pin of a pin array, named "AB". *)
Definition pin_bytes (inner_diameter : Z) : list byte :=
  le32 0 ++ le32 10 ++ le32 20 ++ le32 inner_diameter ++ le32 0 ++
  le32 2 ++ bytes_of [65; 66] ++
  le32 5 ++ le32 6 ++ bytes_of [1] ++ zeros 23 ++ le32 9 ++ zeros 13.

(** A part "U1" with a pin array of two pins (surface-mount, through-hole). *)
Definition part_plaintext : list byte :=
  le32 200 ++ zeros 4 ++ le32 1 ++ le32 2 ++ le32 0 ++ bytes_of [1; 0] ++
  le32 2 ++ bytes_of [85; 49] ++
  bytes_of [9] ++ le32 75 ++ pin_bytes 0 ++ pin_bytes 7.

(** The second pin of [part_plaintext], as decoded. *)
Definition through_hole_pin : PartDataParser.Pin :=
  PartDataParser.mkPin 0 10 20 7 0 2 [65; 66] 6 5 1 9 true.

(** One DATA block of 184 ciphertext bytes. *)
Definition part_file : list byte :=
  file_header 189 ++ bytes_of [7] ++ le32 184 ++ zeros 184.

End Vectors.

(** * The claims *)

Import RawPCBParser.
Import Vectors.

(** Three runs of the model, as sanity checks: a header alone, one
    SEGMENT, and the same SEGMENT behind the XOR obfuscation. *)

Example minimal_file_has_no_entity :
  fst (parse no_CryptoJS (file_header 0) (constructor None)) = Ret (mkBoard []).
Proof. vm_compute. reflexivity. Qed.

Example single_SEGMENT_is_decoded :
  fst (parse no_CryptoJS (file_header 33 ++ SEGMENT_block) (constructor None)) =
  Ret (mkBoard [SEGMENT (mkSegment 1 100 200 300 400 20000 7)]).
Proof. vm_compute. reflexivity. Qed.

Example obfuscated_SEGMENT_is_decoded :
  fst (parse no_CryptoJS obfuscated_file (constructor None)) =
  Ret (mkBoard [SEGMENT (mkSegment 1 100 200 300 400 20000 7)]).
Proof. vm_compute. reflexivity. Qed.

Example part_walk_fetches_one_tag :
  PartDataParser.tag_reads
    (snd (PartDataParser.parse part_plaintext 184 (PartDataParser.constructor None)))
  = [28].
Proof. vm_compute. reflexivity. Qed.

(** Claim C1, counterexample: the empty buffer makes [parse] throw; no
    Board and no diagnostics come back. *)
Lemma C1_empty_buffer_throws :
  fst (parse no_CryptoJS [] (constructor None)) = Throw RangeError.
Proof. reflexivity. Qed.

(** Claim C1, as amended: [parse] always terminates, and either returns a
    Board, which happens only for buffers of at least 0x44 bytes, or
    throws a [RangeError] to its caller. *)
Theorem parse_returns_or_throws_RangeError
        (des : list byte -> list byte -> option (list byte))
        (arrayBuffer : list byte) (s0 : state) :
  match fst (parse des arrayBuffer s0) with
  | Ret board => 68 <= byteLength arrayBuffer
  | Throw e => e = RangeError
  | OutOfFuel => False
  end.
Proof.
  destruct (ParseFacts.parse_outcome des arrayBuffer s0) as [H _].
  destruct (parse des arrayBuffer s0) as [[board|e|] s']; cbn [fst]; tauto.
Qed.

(** A DATA block that lies in the buffer and whose decryption throws is
    still returned; its [encrypted_data] are the raw bytes of the block
    and its [decrypted_data] fall back to the same bytes. *)
Lemma parseType07_keeps_ciphertext
      (des : list byte -> list byte -> option (list byte))
      (s : state) (blockSize : Z) :
  let raw := take (Z.to_nat blockSize) (drop (Z.to_nat (offset s + 4)) (dataView s)) in
  getUint32 (dataView s) (offset s) = Ret blockSize ->
  offset s + 4 + blockSize <= byteLength (dataView s) ->
  des keyBytes raw = None ->
  exists parsedData s',
    parseType07 des s = (Ret (Some (DATA (mkData blockSize raw raw parsedData))), s') /\
    offset s' = offset s + 4 + blockSize /\ dataView s' = dataView s.
Proof.
  intros raw Hsize Hfit Hdes.
  destruct (RawFacts.parseType07_fits des s blockSize Hsize Hfit) as (pd & g & ->).
  fold raw. rewrite Hdes. eexists _, _. split; [reflexivity|].
  split; reflexivity.
Qed.

(** The part that the first 59 bytes of [undecryptable_file] read as. *)
Definition part_read_from_file : PartDataParser.PartData :=
  PartDataParser.mkPartData
    (PartDataParser.mkHeader 55 0 0 0 0 0 [])
    [PartDataParser.sub_type_05 (PartDataParser.mkSubType05 28 29 1 2 3 4 5)].

(** Claim C2, the code at the failing input: the DATA block of
    [undecryptable_file] has a ciphertext of 7 bytes and the decryption
    throws.  The entity is emitted, its [encrypted_data] are the 7 raw
    bytes and its [decrypted_data] fall back to them; but its
    [parsed_data] is not empty.  [parseType07] hands
    [decryptedData.buffer] to the part parser, and the buffer of the
    fallback array is the whole file, so [parsed_data] is the part read
    from the first bytes of the file, with one sub-block.  On the 7
    fallback bytes themselves the part parser throws, which leaves
    [parsed_data] null.  When the decryption succeeds the buffer is the
    plaintext and nothing else. *)
Theorem failed_decrypt_parses_whole_file :
  fst (parse no_CryptoJS undecryptable_file (constructor None))
  = Ret (mkBoard [DATA (mkData 7 (bytes_of [1; 2; 3; 4; 5; 6; 7])
                                 (bytes_of [1; 2; 3; 4; 5; 6; 7])
                                 (Some part_read_from_file))]) /\
  no_CryptoJS keyBytes (bytes_of [1; 2; 3; 4; 5; 6; 7]) = None /\
  fst (PartDataParser.parse undecryptable_file 7 (PartDataParser.constructor None))
  = Ret part_read_from_file /\
  length (PartDataParser.sub_blocks part_read_from_file) = 1%nat /\
  fst (PartDataParser.parse (bytes_of [1; 2; 3; 4; 5; 6; 7]) 7
                            (PartDataParser.constructor None))
  = Throw RangeError.
Proof.
  split; [vm_compute; reflexivity|]. split; [reflexivity|].
  split; [vm_compute; reflexivity|]. split; [reflexivity|].
  vm_compute. reflexivity.
Qed.

(** Claim C3, the code at the failing input: after the unknown tag 0x0A
    the outer walker goes on with the next byte, and the SEGMENT that
    follows is parsed and returned. *)
Theorem unknown_tag_walk_goes_on :
  fst (parse no_CryptoJS unknown_tag_file (constructor None)) =
  Ret (mkBoard [SEGMENT (mkSegment 1 100 200 300 400 20000 7)]).
Proof. vm_compute. reflexivity. Qed.

(** No 32-bit word whose low byte is not zero is the padding word. *)
Lemma getUint32_zero_low_byte dv o :
  getUint32 dv o = Ret 0 -> byte_at dv o = 0.
Proof.
  unfold getUint32. destruct (in_bounds dv o 4); [|discriminate].
  intros [= H]. apply Z.lor_eq_0_iff in H. destruct H as [H _].
  apply Z.lor_eq_0_iff in H. tauto.
Qed.

(** Claim C5, counterexample: in front of a tag 0x04 one round of the
    outer walker moves the offset from 68 to 70, not to 69. *)
Lemma C5_sentinel_skips_the_next_byte :
  byte_at (dataView at_sentinel_tag) 68 = 4 /\
  exists s', main_round no_CryptoJS 102 [] at_sentinel_tag = (Ret (Some []), s') /\
             offset s' = 70 /\ offset s' <> offset at_sentinel_tag + 1.
Proof.
  split; [reflexivity|]. eexists. split; [vm_compute; reflexivity|].
  split; [reflexivity|]. cbn. lia.
Qed.

(** Claim C5, as amended: for a tag 0x04 or 0x08 in the main region, one
    round of the outer walker consumes two bytes, the tag and the byte
    after it, appends no entity, and the next round starts at the second
    byte after the tag. *)
Theorem sentinel_tag_consumes_two_bytes
        (des : list byte -> list byte -> option (list byte))
        (endOffset : Z) (blocks : list Block) (s : state) :
  0 <= offset s -> offset s < endOffset ->
  offset s + 4 <= byteLength (dataView s) ->
  byte_at (dataView s) (offset s) = 4 \/ byte_at (dataView s) (offset s) = 8 ->
  main_round des endOffset blocks s = (Ret (Some blocks), set_offset (offset s + 2) s).
Proof.
  intros H0 Hend Hfit Htag. unfold main_round. unfold_monad.
  replace ((offset s <? endOffset) && (offset s <? byteLength (dataView s)))
    with true by (symmetry; rewrite andb_true_iff, !Z.ltb_lt; lia).
  pose proof (getUint32_zero_low_byte (dataView s) (offset s)) as Hlow.
  assert (Hin : in_bounds (dataView s) (offset s) 4 = true)
    by (apply in_bounds_spec; lia).
  destruct (getUint32 (dataView s) (offset s)) as [word|e|] eqn:Hword;
    [|unfold getUint32 in Hword; rewrite Hin in Hword; discriminate..].
  destruct (word =? 0) eqn:E;
    [apply Z.eqb_eq in E; subst word; specialize (Hlow eq_refl); lia|].
  rewrite XorFacts.getUint8_in by lia.
  assert (Hh : blockHandlers des (byte_at (dataView s) (offset s)) =
               Some (s <- get;; modify (set_offset (offset s + 1));; ret None))
    by (destruct Htag as [-> | ->]; reflexivity).
  rewrite Hh. unfold_monad. unfold ret. f_equal.
  unfold set_offset; cbn [dataView offset mainDataBlocksSize isThruHole_part].
  f_equal. lia.
Qed.

(** In front of the tag 0x04 of [sentinel_tag_file]. *)
Lemma sentinel_tag_consumes_two_bytes_witness :
  main_round no_CryptoJS 102 [] at_sentinel_tag =
  (Ret (Some []), set_offset (offset at_sentinel_tag + 2) at_sentinel_tag).
Proof.
  apply (sentinel_tag_consumes_two_bytes no_CryptoJS 102 [] at_sentinel_tag);
    [vm_compute; discriminate | reflexivity | vm_compute; discriminate
    | left; reflexivity].
Defined.

(** Claim C4: when the buffer has a byte at 0x10, the XOR block returns,
    and the buffer it leaves, which is the buffer [parse] ends with, is
    the input itself when that byte is zero; otherwise every byte below
    [e] is XORed with the key byte and every byte from [e] on is kept,
    [e] being the first index at which the sentinel stands in the input,
    or the length of the buffer when it stands nowhere. *)
Theorem xor_pass_spec
        (des : list byte -> list byte -> option (list byte))
        (buf : list byte) (s0 : state) :
  16 < byteLength buf ->
  exists dv',
    xor_decryption (ParseFacts.entered buf s0)
      = (Ret tt, set_dataView dv' (ParseFacts.entered buf s0)) /\
    dataView (snd (parse des buf s0)) = dv' /\
    length dv' = length buf /\
    (byte_at buf 16 = 0 -> dv' = buf) /\
    (byte_at buf 16 <> 0 ->
     exists e, XorFacts.xor_end buf e /\
       forall j, 0 <= j ->
         byte_at dv' j = if j <? e then Z.lxor (byte_at buf j) (byte_at buf 16)
                         else byte_at buf j).
Proof.
  intros Hlen.
  destruct (XorFacts.xor_decryption_spec (ParseFacts.entered buf s0))
    as (dv' & Hx & Hl & H0 & Hk); [exact Hlen|].
  exists dv'. split; [exact Hx|]. split; [|tauto].
  destruct (ParseFacts.parse_outcome des buf s0) as [_ ->]. rewrite Hx. reflexivity.
Qed.

(** On the file obfuscated with key 0x5A. *)
Lemma xor_pass_spec_witness :
  exists dv',
    xor_decryption (ParseFacts.entered obfuscated_file (constructor None))
      = (Ret tt, set_dataView dv' (ParseFacts.entered obfuscated_file (constructor None))) /\
    dataView (snd (parse no_CryptoJS obfuscated_file (constructor None))) = dv' /\
    length dv' = length obfuscated_file /\
    (byte_at obfuscated_file 16 = 0 -> dv' = obfuscated_file) /\
    (byte_at obfuscated_file 16 <> 0 ->
     exists e, XorFacts.xor_end obfuscated_file e /\
       forall j, 0 <= j ->
         byte_at dv' j =
         if j <? e
         then Z.lxor (byte_at obfuscated_file j) (byte_at obfuscated_file 16)
         else byte_at obfuscated_file j).
Proof.
  apply (xor_pass_spec no_CryptoJS obfuscated_file (constructor None)).
  vm_compute. reflexivity.
Defined.

(** Claim C6, counterexample: after [parse] the buffer the caller passed
    no longer holds the bytes it held. *)
Lemma C6_caller_buffer_is_overwritten :
  dataView (snd (parse no_CryptoJS obfuscated_file (constructor None)))
  <> obfuscated_file.
Proof. vm_compute. discriminate. Qed.

(** Claim C6, as amended: [parse] makes no copy.  The buffer of the
    caller ends as the XOR block left it, whether [parse] returns or
    throws, for no later pass writes: unchanged when byte 0x10 is
    missing or zero, else XORed in place below the end of the prefix. *)
Theorem parse_leaves_xored_buffer
        (des : list byte -> list byte -> option (list byte))
        (buf : list byte) (s0 : state) :
  let after := dataView (snd (parse des buf s0)) in
  after = dataView (snd (xor_decryption (ParseFacts.entered buf s0))) /\
  length after = length buf /\
  if (byteLength buf <=? 16) || (byte_at buf 16 =? 0) then after = buf
  else exists e, XorFacts.xor_end buf e /\
         forall j, 0 <= j ->
           byte_at after j = if j <? e then Z.lxor (byte_at buf j) (byte_at buf 16)
                             else byte_at buf j.
Proof.
  cbv zeta. destruct (ParseFacts.parse_outcome des buf s0) as [_ ->].
  split; [reflexivity|].
  destruct (byteLength buf <=? 16) eqn:Hlen.
  - apply Z.leb_le in Hlen. cbn [orb].
    rewrite (XorFacts.xor_decryption_short (ParseFacts.entered buf s0)) by exact Hlen.
    split; reflexivity.
  - apply Z.leb_gt in Hlen. cbn [orb].
    destruct (XorFacts.xor_decryption_spec (ParseFacts.entered buf s0))
      as (dv' & -> & Hl & H0 & Hk); [exact Hlen|].
    cbn [snd dataView set_dataView ParseFacts.entered set_offset] in *.
    split; [exact Hl|].
    destruct (byte_at buf 16 =? 0) eqn:E.
    + apply Z.eqb_eq in E. auto.
    + apply Z.eqb_neq in E. auto.
Qed.

Lemma known_sub_tag_dec v : known_sub_tag v \/ ~ known_sub_tag v.
Proof. unfold known_sub_tag. lia. Qed.


(** Claim C8, counterexample: for a VIA whose size field is 3 and whose
    text bytes are C3 A9 FF, the emitted string is "é" followed by
    U+FFFD: two UTF-16 code units, five bytes of UTF-8. *)
Lemma C8_string_length_differs :
  getUint32 via_file (69 + 32) = Ret 3 /\
  exists v,
    fst (parse no_CryptoJS via_file (constructor None)) = Ret (mkBoard [VIA v]) /\
    via_text v = [233; 65533] /\
    js_length (via_text v) = 2 /\ utf8_length (via_text v) = 5.
Proof.
  split; [vm_compute; reflexivity|]. eexists. split; [vm_compute; reflexivity|].
  cbn [via_text]. repeat split; reflexivity.
Qed.

(** Claim C8, as amended: each of the five string fields is emitted for
    the size field read just before it: the empty string for size 0, with
    no byte consumed, else the [TextDecoder] image of exactly the
    announced bytes, which are consumed; the length of the string is the
    size when those bytes are ASCII. *)
Theorem string_fields_decode_their_size :
  (forall s v s',
      parseType02 s = (Ret (Some (VIA v)), s') ->
      exists n, StringFacts.emitted_for (dataView s) (offset s + 32) n (via_text v) /\
                offset s' = offset s + 36 + n) /\
  (forall s t s',
      parseType06 s = (Ret (Some (TEXT t)), s') ->
      StringFacts.emitted_for (dataView s) (offset s + 30) (text_length t) (text t) /\
      offset s' = offset s + 34 + text_length t) /\
  (forall s h s',
      PartDataParser.parseHeader s = (Ret h, s') ->
      StringFacts.emitted_for (PartDataParser.dataView s) (PartDataParser.offset s + 22)
        (PartDataParser.part_group_name_size h) (PartDataParser.part_group_name h) /\
      PartDataParser.offset s' =
        PartDataParser.offset s + 26 + PartDataParser.part_group_name_size h) /\
  (forall s t s',
      PartDataParser.parseSubType06 s = (Ret (PartDataParser.sub_type_06 t), s') ->
      StringFacts.emitted_for (PartDataParser.dataView s) (PartDataParser.offset s + 30)
        (PartDataParser.label_size t) (PartDataParser.label t) /\
      PartDataParser.offset s' =
        PartDataParser.offset s + 34 + PartDataParser.label_size t) /\
  (forall s p s',
      PartDataParser.parsePin (PartDataParser.dataView s) s = (Ret p, s') ->
      StringFacts.emitted_for (PartDataParser.dataView s) (PartDataParser.offset s + 20)
        (PartDataParser.name_size p) (PartDataParser.name p) /\
      PartDataParser.offset s' =
        PartDataParser.offset s + 24 + PartDataParser.name_size p + 49).
Proof.
  split; [|split; [|split; [|split]]].
  - intros s v s' H. pose proof (RawFacts.parseType02_spec s) as Hs.
    rewrite H in Hs. destruct Hs as [_ (v' & n & [= <-] & Hn & Hstr & Hoff)].
    exists n. split; [|exact Hoff].
    apply StringFacts.sized_emitted; [exact Hn|].
    replace (offset s + 32 + 4) with (offset s + 36) by lia. exact Hstr.
  - intros s t s' H. pose proof (RawFacts.parseType06_spec s) as Hs.
    rewrite H in Hs. destruct Hs as [_ (t' & [= <-] & Hn & Hstr & Hoff)].
    split; [|exact Hoff]. apply StringFacts.sized_emitted; [exact Hn|].
    replace (offset s + 30 + 4) with (offset s + 34) by lia. exact Hstr.
  - intros s h s' H. pose proof (PartFacts.parseHeader_spec s) as Hs.
    rewrite H in Hs. destruct Hs as [_ (_ & _ & _ & Hn & Hstr & Hoff)].
    split; [|exact Hoff]. apply StringFacts.sized_emitted; [exact Hn|].
    replace (PartDataParser.offset s + 22 + 4) with (PartDataParser.offset s + 26) by lia.
    exact Hstr.
  - intros s t s' H. pose proof (PartFacts.parseSubType06_spec s) as Hs.
    rewrite H in Hs. destruct Hs as [_ (_ & t' & [= <-] & Hn & Hstr & Hoff)].
    split; [|exact Hoff]. apply StringFacts.sized_emitted; [exact Hn|].
    replace (PartDataParser.offset s + 30 + 4) with (PartDataParser.offset s + 34) by lia.
    exact Hstr.
  - intros s p s' H. pose proof (PartFacts.parsePin_spec (PartDataParser.dataView s) s) as Hs.
    rewrite H in Hs. destruct Hs as [_ (_ & _ & _ & _ & Hn & Hstr & Hoff & _)].
    split; [|exact Hoff]. apply StringFacts.sized_emitted; [exact Hn|].
    replace (PartDataParser.offset s + 20 + 4) with (PartDataParser.offset s + 24) by lia.
    exact Hstr.
Qed.

(** The VIA "GND": three ASCII bytes, a string of length three. *)
Lemma string_fields_decode_their_size_witness :
  exists n,
    StringFacts.emitted_for (dataView at_VIA_block) (offset at_VIA_block + 32) n
                            [71; 78; 68] /\
    69 + 36 + 3 = offset at_VIA_block + 36 + n.
Proof.
  apply (proj1 string_fields_decode_their_size at_VIA_block
           (mkVia 10 20 5 3 1 2 9 [71; 78; 68])
           (set_offset (69 + 36 + 3) at_VIA_block)).
  vm_compute. reflexivity.
Defined.

(** Claim C9: in every Board [parse] returns, every pin of every pin
    array of every parsed DATA block has [isThruHole_pin] true exactly
    when its [inner_diameter] is not zero. *)
Theorem pin_is_thru_hole_iff_inner_diameter
        (des : list byte -> list byte -> option (list byte))
        (arrayBuffer : list byte) (s0 : state)
        (board : Board) (d : Data) (pd : PartDataParser.PartData)
        (blockSize : Z) (pins : list PartDataParser.Pin) (p : PartDataParser.Pin) :
  fst (parse des arrayBuffer s0) = Ret board ->
  In (DATA d) (main_data_block board) ->
  parsed_data d = Some pd ->
  In (PartDataParser.sub_type_09 blockSize pins) (PartDataParser.sub_blocks pd) ->
  In p pins ->
  PartDataParser.isThruHole_pin p = true <-> PartDataParser.inner_diameter p <> 0.
Proof.
  intros Hparse Hd Hpd Hsub Hp.
  destruct (ParseFacts.parse_outcome des arrayBuffer s0) as [H _].
  destruct (parse des arrayBuffer s0) as [r s']. cbn [fst] in Hparse. subst r.
  destruct H as [Hok _].
  rewrite List.Forall_forall in Hok. specialize (Hok _ Hd).
  cbn [RawFacts.block_ok] in Hok. rewrite Hpd in Hok.
  rewrite List.Forall_forall in Hok. specialize (Hok _ Hsub).
  cbn [sub_ok] in Hok. rewrite List.Forall_forall in Hok.
  exact (Hok _ Hp).
Qed.

(** The through-hole pin of the part CryptoJS answers for [part_file]. *)
Lemma pin_is_thru_hole_iff_inner_diameter_witness :
  PartDataParser.isThruHole_pin through_hole_pin = true <->
  PartDataParser.inner_diameter through_hole_pin <> 0.
Proof.
  eapply (pin_is_thru_hole_iff_inner_diameter
            (CryptoJS_answering part_plaintext) part_file (constructor None)).
  - vm_compute. reflexivity.
  - left. reflexivity.
  - reflexivity.
  - left. reflexivity.
  - right. left. reflexivity.
Defined.

(** ** Independence of what earlier runs left behind

    A parser object keeps its fields between two calls of [parse], and
    the module variable [isThruHole_part] keeps its last value.  The
    lemmas below show that no result depends on them. *)

Module Determinism.

Section Generic.
Context {S : Type} (sim : S -> S -> Prop).

(** [m] gives the same outcome in related states and keeps them related. *)
Definition indep {A} (m : M S A) : Prop :=
  forall s1 s2, sim s1 s2 ->
    fst (m s1) = fst (m s2) /\ sim (snd (m s1)) (snd (m s2)).

Lemma indep_ret {A} (a : A) : indep (ret a).
Proof. intros s1 s2 H. split; [reflexivity|exact H]. Qed.

Lemma indep_lift {A} (o : outcome A) : indep (lift o).
Proof. intros s1 s2 H. split; [reflexivity|exact H]. Qed.

Lemma indep_out_of_fuel {A} : indep (@out_of_fuel S A).
Proof. intros s1 s2 H. split; [reflexivity|exact H]. Qed.

Lemma indep_modify (f : S -> S) :
  (forall s1 s2, sim s1 s2 -> sim (f s1) (f s2)) -> indep (modify f).
Proof. intros Hf s1 s2 H. split; [reflexivity|apply Hf; exact H]. Qed.

Lemma indep_bind {A B} (m : M S A) (k : A -> M S B) :
  indep m -> (forall a, indep (k a)) -> indep (bind m k).
Proof.
  intros Hm Hk s1 s2 H. unfold bind. specialize (Hm s1 s2 H).
  destruct (m s1) as [r1 t1], (m s2) as [r2 t2]. cbn [fst snd] in Hm.
  destruct Hm as [<- Ht]. destruct r1 as [a|e|]; [apply Hk; exact Ht|..];
    (split; [reflexivity|exact Ht]).
Qed.

(** A continuation of [get] that looks at the state only through what
    related states agree on. *)
Lemma indep_get_bind {B} (k : S -> M S B) :
  (forall s1 s2, sim s1 s2 -> k s1 = k s2) ->
  (forall s, indep (k s)) -> indep (bind get k).
Proof.
  intros Heq Hk s1 s2 H. unfold bind, get. rewrite (Heq s1 s2 H).
  apply Hk. exact H.
Qed.

Lemma indep_try_catch {A} (m : M S A) (handler : exn -> M S A) :
  indep m -> (forall e, indep (handler e)) -> indep (try_catch m handler).
Proof.
  intros Hm Hh s1 s2 H. unfold try_catch. specialize (Hm s1 s2 H).
  destruct (m s1) as [r1 t1], (m s2) as [r2 t2]. cbn [fst snd] in Hm.
  destruct Hm as [<- Ht]. destruct r1 as [a|e|]; [|apply Hh; exact Ht|];
    (split; [reflexivity|exact Ht]).
Qed.

End Generic.

Create HintDb indep.

(** One step of a proof of [indep]: follows the shape of the method. *)
Ltac indep_step sim_eq sim_setter :=
  cbv zeta;
  lazymatch goal with
  | |- indep _ (ret _) => apply indep_ret
  | |- indep _ (lift _) => apply indep_lift
  | |- indep _ out_of_fuel => apply indep_out_of_fuel
  | |- indep _ (modify _) => apply indep_modify; solve [sim_setter]
  | |- indep _ (bind get _) => apply indep_get_bind; [solve [sim_eq] | intros ?]
  | |- indep _ (bind _ _) => apply indep_bind; [ | intros ?]
  | |- indep _ (try_catch _ _) => apply indep_try_catch; [ | intros ?]
  | |- indep _ (if ?c then _ else _) => destruct c
  | |- indep _ (match ?c with Some _ => _ | None => _ end) => destruct c
  | |- indep _ _ => solve [auto with indep]
  end.

(** *** PartDataParser *)

Module Part.
Import PartDataParser.

(** Two parser objects that differ at most in the module variable. *)
Definition psim (s1 s2 : state) : Prop :=
  dataView s1 = dataView s2 /\ offset s1 = offset s2 /\
  cur_block_size s1 = cur_block_size s2 /\
  pin_block_size s1 = pin_block_size s2 /\ tag_reads s1 = tag_reads s2.

Ltac psim_eq :=
  let H1 := fresh in let H2 := fresh in let H3 := fresh in
  let H4 := fresh in let H5 := fresh in
  intros ? ? (H1 & H2 & H3 & H4 & H5); cbv zeta;
  rewrite ?H1, ?H2, ?H3, ?H4, ?H5; reflexivity.

Ltac psim_setter :=
  let H1 := fresh in let H2 := fresh in let H3 := fresh in
  let H4 := fresh in let H5 := fresh in
  intros ? ? (H1 & H2 & H3 & H4 & H5); unfold psim;
  cbn [dataView offset cur_block_size pin_block_size tag_reads
       set_dataView set_offset set_cur_block_size set_pin_block_size
       set_isThruHole_part log_tag_read];
  repeat split; congruence.

Ltac go := repeat indep_step psim_eq psim_setter.

Lemma part_readString_indep n : indep psim (readString n).
Proof. unfold readString. go. Qed.
#[local] Hint Resolve part_readString_indep : indep.

Lemma parseHeader_indep : indep psim parseHeader.
Proof. unfold parseHeader. go. Qed.

Lemma parseSubType01_indep : indep psim parseSubType01.
Proof. unfold parseSubType01. go. Qed.

Lemma parseSubType05_indep : indep psim parseSubType05.
Proof. unfold parseSubType05. go. Qed.

Lemma parseSubType06_indep : indep psim parseSubType06.
Proof. unfold parseSubType06. go. Qed.

Lemma parsePin_indep dv : indep psim (parsePin dv).
Proof. unfold parsePin. go. Qed.
#[local] Hint Resolve parseHeader_indep parseSubType01_indep parseSubType05_indep
  parseSubType06_indep parsePin_indep : indep.

Lemma pins_loop_indep fuel :
  forall blockSize dv pins, indep psim (pins_loop fuel blockSize dv pins).
Proof.
  induction fuel as [|fuel IH]; intros blockSize dv pins; cbn [pins_loop]; go.
Qed.
#[local] Hint Resolve pins_loop_indep : indep.

Lemma parseSubType09_indep : indep psim parseSubType09.
Proof. unfold parseSubType09. go. Qed.
#[local] Hint Resolve parseSubType09_indep : indep.

Lemma subBlockHandlers_indep v handler :
  subBlockHandlers v = Some handler -> indep psim handler.
Proof.
  unfold subBlockHandlers.
  repeat match goal with
         | |- context [if ?c then _ else _] => destruct c
         end; intros [= <-]; auto with indep.
Qed.

Lemma walk_indep fuel : forall sub_blocks, indep psim (walk fuel sub_blocks).
Proof.
  induction fuel as [|fuel IH]; intros sub_blocks; cbn [walk].
  - go.
  - apply indep_get_bind; [psim_eq|intros s]. cbv zeta.
    destruct (_ <? _); [|go]. destruct (_ <=? _); [go|].
    apply indep_bind; [go|intros tag]. apply indep_bind; [go|intros _].
    apply indep_bind; [go|intros _].
    destruct (subBlockHandlers tag) as [handler|] eqn:E; [|go].
    apply indep_bind; [exact (subBlockHandlers_indep _ _ E)|intros b]. apply IH.
Qed.
#[local] Hint Resolve walk_indep : indep.

Lemma parse_indep arrayBuffer t07blockSize :
  indep psim (parse arrayBuffer t07blockSize).
Proof. unfold parse, init. go. Qed.

Lemma parse_any_state arrayBuffer t07blockSize g1 g2 :
  fst (parse arrayBuffer t07blockSize (constructor g1)) =
  fst (parse arrayBuffer t07blockSize (constructor g2)).
Proof.
  apply parse_indep. unfold psim, constructor. cbn. tauto.
Qed.

End Part.

(** *** RawPCBParser *)

Module Raw.
Import RawPCBParser.

(** Two parser objects that differ at most in the module variable. *)
Definition rsim (s1 s2 : state) : Prop :=
  dataView s1 = dataView s2 /\ offset s1 = offset s2 /\
  mainDataBlocksSize s1 = mainDataBlocksSize s2.

(** ... and in the size left by an earlier [parseFileHeader]. *)
Definition wsim (s1 s2 : state) : Prop :=
  dataView s1 = dataView s2 /\ offset s1 = offset s2.

Ltac rsim_eq :=
  let H1 := fresh in let H2 := fresh in let H3 := fresh in
  intros ? ? (H1 & H2 & H3); cbv zeta; rewrite ?H1, ?H2, ?H3; reflexivity.

Ltac rsim_setter :=
  let H1 := fresh in let H2 := fresh in let H3 := fresh in
  intros ? ? (H1 & H2 & H3); unfold rsim;
  cbn [dataView offset mainDataBlocksSize set_dataView set_offset
       set_mainDataBlocksSize set_isThruHole_part];
  repeat split; congruence.

Ltac wsim_eq :=
  let H1 := fresh in let H2 := fresh in
  intros ? ? (H1 & H2); cbv zeta; rewrite ?H1, ?H2; reflexivity.

Ltac wsim_setter :=
  let H1 := fresh in let H2 := fresh in
  intros ? ? (H1 & H2); unfold wsim;
  cbn [dataView offset set_dataView set_offset];
  repeat split; congruence.

Ltac go := repeat indep_step rsim_eq rsim_setter.
Ltac wgo := repeat indep_step wsim_eq wsim_setter.

Lemma xor_loop_indep n : forall i xorKey, indep wsim (xor_loop n i xorKey).
Proof. induction n as [|n IH]; intros i xorKey; cbn [xor_loop]; wgo. Qed.

Lemma xor_decryption_indep : indep wsim xor_decryption.
Proof. unfold xor_decryption. wgo. apply xor_loop_indep. Qed.

Lemma readString_indep n : indep rsim (readString n).
Proof. unfold readString. go. Qed.
#[local] Hint Resolve readString_indep : indep.

Lemma parseType01_indep : indep rsim parseType01.
Proof. unfold parseType01. go. Qed.

Lemma parseType02_indep : indep rsim parseType02.
Proof. unfold parseType02. go. Qed.

Lemma parseType03_indep : indep rsim parseType03.
Proof. unfold parseType03. go. Qed.

Lemma parseType05_indep : indep rsim parseType05.
Proof. unfold parseType05. go. Qed.

Lemma parseType06_indep : indep rsim parseType06.
Proof. unfold parseType06. go. Qed.

Lemma parseType09_indep : indep rsim parseType09.
Proof. unfold parseType09. go. Qed.

(** The part parser starts from a fresh object: only the module variable
    could reach it, and it does not look at it. *)
Lemma PartDataParser_parse_indep arrayBuffer blockSize :
  indep rsim (PartDataParser_parse arrayBuffer blockSize).
Proof.
  intros s1 s2 (H1 & H2 & H3). unfold PartDataParser_parse.
  pose proof (Part.parse_any_state arrayBuffer blockSize
                (isThruHole_part s1) (isThruHole_part s2)) as H.
  destruct (PartDataParser.parse _ _ (PartDataParser.constructor (isThruHole_part s1)))
    as [r1 p1].
  destruct (PartDataParser.parse _ _ (PartDataParser.constructor (isThruHole_part s2)))
    as [r2 p2].
  cbn [fst snd] in *. split; [exact H|].
  unfold rsim. cbn [dataView offset mainDataBlocksSize set_isThruHole_part]. tauto.
Qed.
#[local] Hint Resolve parseType01_indep parseType02_indep parseType03_indep
  parseType05_indep parseType06_indep parseType09_indep
  PartDataParser_parse_indep : indep.

Section WithCryptoJS.
Variable des : list byte -> list byte -> option (list byte).

Lemma parseType07_indep : indep rsim (parseType07 des).
Proof. unfold parseType07. go. Qed.

Lemma blockHandlers_indep v handler :
  blockHandlers des v = Some handler -> indep rsim handler.
Proof.
  unfold blockHandlers.
  repeat match goal with
         | |- context [if ?c then _ else _] => destruct c
         end; intros [= <-]; auto using parseType07_indep with indep; go.
Qed.

Lemma main_round_indep endOffset blocks :
  indep rsim (main_round des endOffset blocks).
Proof.
  unfold main_round. apply indep_get_bind; [rsim_eq|intros s].
  destruct (_ && _); [|go]. apply indep_bind; [go|intros word].
  destruct (word =? 0); [go|].
  apply indep_bind; [go|intros blockType]. apply indep_bind; [go|intros _].
  destruct (blockHandlers des blockType) as [handler|] eqn:E; [|go].
  apply indep_bind; [exact (blockHandlers_indep _ _ E)|intros block]. go.
Qed.

Lemma main_loop_indep fuel :
  forall endOffset blocks, indep rsim (main_loop des fuel endOffset blocks).
Proof.
  induction fuel as [|fuel IH]; intros endOffset blocks; cbn [main_loop]; [go|].
  apply indep_bind; [apply main_round_indep|intros continue].
  destruct continue; [apply IH|go].
Qed.

Lemma parseMainDataBlocks_indep : indep rsim (parseMainDataBlocks des).
Proof.
  unfold parseMainDataBlocks. apply indep_get_bind; [rsim_eq|intros s].
  apply main_loop_indep.
Qed.

End WithCryptoJS.

End Raw.

End Determinism.

(** Claim C10: on the same bytes [parse] gives the same outcome, the same
    Board with the same entities in the same order or the same exception,
    whatever an earlier run left in the fields of the parser object and
    in the module variable [isThruHole_part]. *)
Theorem parse_deterministic
        (des : list byte -> list byte -> option (list byte))
        (b : list byte) (s1 s2 : state) :
  fst (parse des b s1) = fst (parse des b s2).
Proof.
  rewrite !ParseFacts.parse_unfold.
  assert (Hw : Determinism.Raw.wsim (ParseFacts.entered b s1) (ParseFacts.entered b s2))
    by (split; reflexivity).
  destruct (Determinism.Raw.xor_decryption_indep _ _ Hw) as [Hr (Hdv & Hoff)].
  destruct (xor_decryption (ParseFacts.entered b s1)) as [r1 t1].
  destruct (xor_decryption (ParseFacts.entered b s2)) as [r2 t2].
  cbn [fst snd] in Hr, Hdv, Hoff. subst r2.
  destruct r1 as [u|e|]; [|reflexivity|reflexivity].
  rewrite !ParseFacts.parseFileHeader_eq, Hdv.
  destruct (getUint32 (dataView t2) 64) as [n|e|]; [|reflexivity|reflexivity].
  assert (Hs : Determinism.Raw.rsim (mkState (dataView t2) 68 n (isThruHole_part t1))
                                    (mkState (dataView t2) 68 n (isThruHole_part t2)))
    by (repeat split).
  destruct (Determinism.Raw.parseMainDataBlocks_indep des _ _ Hs) as [Hm _].
  destruct (parseMainDataBlocks des (mkState _ _ _ (isThruHole_part t1))) as [m1 u1].
  destruct (parseMainDataBlocks des (mkState _ _ _ (isThruHole_part t2))) as [m2 u2].
  cbn [fst] in Hm. subst m2. destruct m1; reflexivity.
Qed.

(** * Further properties of the outer walker *)

(** ** Ranges of what the DataView reads return *)

Lemma lor_below (a b n : Z) :
  0 <= n -> 0 <= a < 2 ^ n -> 0 <= b < 2 ^ n -> 0 <= Z.lor a b < 2 ^ n.
Proof.
  intros Hn Ha Hb. split; [apply Z.lor_nonneg; lia|].
  destruct (Z.eq_dec (Z.lor a b) 0) as [->|Hne];
    [apply Z.pow_pos_nonneg; lia|].
  assert (0 < Z.lor a b) by (pose proof (proj2 (Z.lor_nonneg a b)); lia).
  assert (0 < n).
  { destruct (Z.eq_dec n 0) as [->|]; [|lia]. change (2 ^ 0) with 1 in *.
    assert (a = 0) as -> by lia. assert (b = 0) as -> by lia.
    exfalso. apply Hne. reflexivity. }
  apply Z.log2_lt_pow2; [assumption|].
  rewrite Z.log2_lor by lia.
  assert (Z.log2 a < n).
  { destruct (Z.eq_dec a 0) as [->|]; [cbn; lia|]. apply Z.log2_lt_pow2; lia. }
  assert (Z.log2 b < n).
  { destruct (Z.eq_dec b 0) as [->|]; [cbn; lia|]. apply Z.log2_lt_pow2; lia. }
  lia.
Qed.

Lemma shiftl_byte_below (b s n : Z) :
  0 <= s -> s + 8 <= n -> 0 <= b < 256 -> 0 <= Z.shiftl b s < 2 ^ n.
Proof.
  intros Hs Hn Hb. rewrite Z.shiftl_mul_pow2 by lia.
  assert (0 < 2 ^ s) by (apply Z.pow_pos_nonneg; lia).
  split; [nia|].
  apply Z.lt_le_trans with (256 * 2 ^ s); [nia|].
  change 256 with (2 ^ 8). rewrite <- Z.pow_add_r by lia.
  apply Z.pow_le_mono_r; lia.
Qed.

Lemma getUint32_range dv o v : getUint32 dv o = Ret v -> 0 <= v < 2 ^ 32.
Proof.
  unfold getUint32. destruct (in_bounds dv o 4); [|discriminate]. intros [= <-].
  pose proof (byte_at_range dv o). pose proof (byte_at_range dv (o + 1)).
  pose proof (byte_at_range dv (o + 2)). pose proof (byte_at_range dv (o + 3)).
  repeat apply lor_below; try lia; try (apply shiftl_byte_below; lia).
Qed.

Lemma getUint16_range dv o v : getUint16 dv o = Ret v -> 0 <= v < 2 ^ 16.
Proof.
  unfold getUint16. destruct (in_bounds dv o 2); [|discriminate]. intros [= <-].
  pose proof (byte_at_range dv o). pose proof (byte_at_range dv (o + 1)).
  repeat apply lor_below; try lia; try (apply shiftl_byte_below; lia).
Qed.

Lemma getInt32_range dv o v : getInt32 dv o = Ret v -> - 2 ^ 31 <= v < 2 ^ 31.
Proof.
  unfold getInt32. destruct (getUint32 dv o) as [u|e|] eqn:E; try discriminate.
  intros [= <-]. apply getUint32_range in E.
  change (2 ^ 32) with 4294967296 in *. change (2 ^ 31) with 2147483648 in *.
  destruct (2147483648 <=? u) eqn:C; [apply Z.leb_le in C|apply Z.leb_gt in C]; lia.
Qed.

(** ** The numbers of a part *)

Module PartRanges.
Import PartDataParser.
Import PartFacts.

Definition word (v : Z) : Prop := 0 <= v < 2 ^ 32.
Definition octet (v : Z) : Prop := 0 <= v < 256.

(** The range of every number of a part, as its parser reads it
    ([getUint32] or [getUint8]). *)
Definition header_ranges (h : Header) : Prop :=
  word (part_size h) /\ word (part_x h) /\ word (part_y h) /\
  word (part_rotation h) /\ octet (visibility h) /\ word (part_group_name_size h).

Definition pin_ranges (p : Pin) : Prop :=
  word (un1 p) /\ word (pin_x p) /\ word (pin_y p) /\ word (inner_diameter p) /\
  word (rotation p) /\ word (name_size p) /\ word (height p) /\ word (width p) /\
  octet (shape p) /\ word (net_index p).

Definition sub_ranges (b : SubBlock) : Prop :=
  match b with
  | sub_type_01 a =>
    word (arc_block_size a) /\ word (arc_layer a) /\ word (arc_x1 a) /\
    word (arc_y1 a) /\ word (arc_radius a) /\ word (arc_angle_start a) /\
    word (arc_angle_end a) /\ word (arc_scale a) /\ word (unknown_arc a)
  | sub_type_05 l =>
    word (line_block_size l) /\ word (line_layer l) /\ word (line_x1 l) /\
    word (line_y1 l) /\ word (line_x2 l) /\ word (line_y2 l) /\ word (line_scale l)
  | sub_type_06 t =>
    word (label_block_size t) /\ word (label_layer t) /\ word (label_x t) /\
    word (label_y t) /\ word (font_size t) /\ word (font_scale t) /\
    word (font_rotation t) /\ octet (label_visibility t) /\ word (label_size t)
  | sub_type_09 block_size pins => word block_size /\ Forall pin_ranges pins
  end.

Definition part_ranges (pd : PartData) : Prop :=
  header_ranges (header pd) /\ Forall sub_ranges (sub_blocks pd).

(** What a method returns, when it returns. *)
Definition returns {A} (m : M state A) (Q : A -> Prop) : Prop :=
  forall s, match m s with (Ret a, _) => Q a | _ => True end.

(** Turns what the reads left into ranges. *)
Ltac read_ranges :=
  repeat match goal with
         | H : getUint32 _ _ = Ret _ |- _ => apply getUint32_range in H
         | H : _ /\ _ |- _ => destruct H
         end.

(** Runs the guarded [readString] call the goal has reached. *)
Ltac skip_readString :=
  match goal with
  | |- context [(if 0 <? ?n then readString ?n else ret []) ?s0] =>
    destruct ((if 0 <? n then readString n else ret []) s0) as [[?str|?e|] ?s];
    cbv beta iota
  end.

Lemma parseHeader_ranges : returns parseHeader header_ranges.
Proof.
  intros s. unfold parseHeader. unfold_monad.
  repeat (read_step; [|exact I]).
  skip_readString; [|exact I|exact I].
  unfold ret, header_ranges, word, octet.
  cbn [part_size part_x part_y part_rotation visibility part_group_name_size].
  read_ranges. repeat split; lia.
Qed.

Lemma parseSubType01_ranges : returns parseSubType01 sub_ranges.
Proof.
  intros s. unfold parseSubType01. unfold_monad.
  repeat (read_step; [|exact I]).
  unfold ret, sub_ranges, word.
  cbn [arc_block_size arc_layer arc_x1 arc_y1 arc_radius arc_angle_start
       arc_angle_end arc_scale unknown_arc].
  read_ranges. repeat split; lia.
Qed.

Lemma parseSubType05_ranges : returns parseSubType05 sub_ranges.
Proof.
  intros s. unfold parseSubType05. unfold_monad.
  repeat (read_step; [|exact I]).
  unfold ret, sub_ranges, word.
  cbn [line_block_size line_layer line_x1 line_y1 line_x2 line_y2 line_scale].
  read_ranges. repeat split; lia.
Qed.

Lemma parseSubType06_ranges : returns parseSubType06 sub_ranges.
Proof.
  intros s. unfold parseSubType06. unfold_monad.
  repeat (read_step; [|exact I]).
  skip_readString; [|exact I|exact I].
  unfold ret, sub_ranges, word, octet.
  cbn [label_block_size label_layer label_x label_y font_size font_scale
       font_rotation label_visibility label_size].
  read_ranges. repeat split; lia.
Qed.

Lemma parsePin_ranges dv : returns (parsePin dv) pin_ranges.
Proof.
  intros s. unfold parsePin. unfold_monad.
  repeat (read_step; [|exact I]).
  skip_readString; [|exact I|exact I].
  repeat (read_step; [|exact I]).
  unfold ret, pin_ranges, word, octet.
  cbn [un1 pin_x pin_y inner_diameter rotation name_size height width shape net_index].
  read_ranges. repeat split; lia.
Qed.

Lemma pins_loop_ranges fuel :
  forall blockSize dv acc s,
    Forall pin_ranges acc ->
    match pins_loop fuel blockSize dv acc s with
    | (Ret l, _) => Forall pin_ranges l
    | _ => True
    end.
Proof.
  induction fuel as [|fuel IH]; intros blockSize dv acc s Hacc; [exact I|].
  cbn [pins_loop]. unfold_monad.
  destruct (offset s + blockSize <=? cur_block_size s); [|exact Hacc].
  pose proof (parsePin_ranges dv s) as Hpin.
  destruct (parsePin dv s) as [[pin|e|] s1]; [|exact I|exact I].
  apply IH. apply Forall_app. split; [exact Hacc|].
  constructor; [exact Hpin|constructor].
Qed.

Lemma parseSubType09_ranges : returns parseSubType09 sub_ranges.
Proof.
  intros s. unfold parseSubType09. unfold_monad.
  read_step; [|exact I].
  match goal with
  | |- context [pins_loop ?f ?b ?dv ?acc ?s0] =>
    pose proof (pins_loop_ranges f b dv acc s0 ltac:(constructor)) as Hl;
    destruct (pins_loop f b dv acc s0) as [[l|e|] s1]; [|exact I|exact I]
  end.
  unfold ret, sub_ranges, word. read_ranges. split; [lia|assumption].
Qed.

Lemma subBlockHandlers_ranges v :
  match subBlockHandlers v with
  | Some handler => returns handler sub_ranges
  | None => True
  end.
Proof.
  unfold subBlockHandlers.
  repeat match goal with
         | |- context [if ?c then _ else _] => destruct c
         end; try exact I.
  - apply parseSubType01_ranges.
  - apply parseSubType05_ranges.
  - apply parseSubType06_ranges.
  - apply parseSubType09_ranges.
Qed.

Lemma walk_ranges fuel :
  forall acc s,
    Forall sub_ranges acc ->
    match walk fuel acc s with
    | (Ret l, _) => Forall sub_ranges l
    | _ => True
    end.
Proof.
  induction fuel as [|fuel IH]; intros acc s Hacc; [exact I|].
  cbn [walk]. unfold_monad.
  destruct (offset s + pin_block_size s <? byteLength (dataView s)); [|exact Hacc].
  destruct (byteLength (dataView s) <=? offset s); [exact Hacc|].
  read_step; [|exact I].
  pose proof (subBlockHandlers_ranges a) as Hh.
  destruct (subBlockHandlers a) as [handler|]; [|exact Hacc].
  match goal with
  | |- context [handler ?s1] =>
    specialize (Hh s1); destruct (handler s1) as [[b|e|] s2]; [|exact I|exact I]
  end.
  apply IH. apply Forall_app. split; [exact Hacc|].
  constructor; [exact Hh|constructor].
Qed.

(** Every number of a part that is returned lies in the range of the
    read that produced it. *)
Lemma parse_ranges arrayBuffer t07blockSize s0 pd :
  fst (parse arrayBuffer t07blockSize s0) = Ret pd -> part_ranges pd.
Proof.
  rewrite part_parse_unfold.
  pose proof (parseHeader_ranges (started arrayBuffer t07blockSize s0)) as Hh.
  destruct (parseHeader _) as [[h|e|] sh]; try discriminate.
  cbv zeta.
  match goal with
  | |- context [walk ?f ?acc ?s1] =>
    pose proof (walk_ranges f acc s1 ltac:(constructor)) as Hw;
    destruct (walk f acc s1) as [[l|e|] s']; try discriminate
  end.
  cbn [fst]. intros [= <-]. split; assumption.
Qed.

End PartRanges.

(** ** What each round of the outer walker adds *)

Module WalkerFacts.
Import RawPCBParser.
Import RawFacts.

Definition u32 (v : Z) : Prop := 0 <= v < 2 ^ 32.
Definition i32 (v : Z) : Prop := - 2 ^ 31 <= v < 2 ^ 31.

(** The range of every number of an entity, as its parser reads it
    ([getUint32], [getInt32] or [getUint16]); for a DATA entity, the
    size of the recorded ciphertext, the bytes of the ciphertext and of
    the plaintext, and every number of the part parsed from it. *)
Definition block_ranges (b : Block) : Prop :=
  match b with
  | ARC a =>
    u32 (arc_layer a) /\ u32 (arc_x1 a) /\ u32 (arc_y1 a) /\ i32 (arc_r a) /\
    i32 (arc_angle_start a) /\ i32 (arc_angle_end a) /\ i32 (arc_scale a) /\
    i32 (arc_net_index a)
  | VIA v =>
    i32 (via_x v) /\ i32 (via_y v) /\ i32 (outer_radius v) /\ i32 (inner_radius v) /\
    u32 (layer_a_index v) /\ u32 (layer_b_index v) /\ u32 (via_net_index v)
  | SEGMENT g =>
    u32 (seg_layer g) /\ i32 (seg_x1 g) /\ i32 (seg_y1 g) /\ i32 (seg_x2 g) /\
    i32 (seg_y2 g) /\ i32 (seg_scale g) /\ u32 (seg_net_index g)
  | TEXT t =>
    u32 (unknown_1 t) /\ u32 (pos_x t) /\ u32 (pos_y t) /\ u32 (text_size t) /\
    u32 (divider t) /\ u32 (empty t) /\ 0 <= one t < 2 ^ 16 /\ u32 (text_length t)
  | DATA d =>
    u32 (block_size d) /\
    length (encrypted_data d) = Z.to_nat (block_size d) /\
    Forall (fun b => 0 <= u8 b < 256) (encrypted_data d) /\
    Forall (fun b => 0 <= u8 b < 256) (decrypted_data d) /\
    match parsed_data d with
    | Some pd => PartRanges.part_ranges pd
    | None => True
    end
  end.

(** Turns the equations the reads left into ranges. *)
Ltac ranges :=
  repeat match goal with
         | H : getUint32 _ _ = Ret _ |- _ => apply getUint32_range in H
         | H : getInt32 _ _ = Ret _ |- _ => apply getInt32_range in H
         | H : getUint16 _ _ = Ret _ |- _ => apply getUint16_range in H
         end.

(** A handler that returns an entity has consumed at least the four
    bytes of a size field, all of them inside the buffer. *)
Definition adds_block (s : state) (r : option Block) (s' : state) : Prop :=
  match r with
  | Some b =>
    block_ranges b /\ offset s + 4 <= offset s' <= byteLength (dataView s)
  | None => True
  end.

Lemma parseType01_extent : method parseType01 adds_block.
Proof.
  intros s. unfold parseType01. unfold_monad.
  repeat (read_step; [|frame_solve]). unfold ret. split; [frame_solve|].
  ranges. cbn [adds_block block_ranges arc_layer arc_x1 arc_y1 arc_r
               arc_angle_start arc_angle_end arc_scale arc_net_index
               offset set_offset dataView]. unfold u32, i32. lia.
Qed.

Lemma parseType05_extent : method parseType05 adds_block.
Proof.
  intros s. unfold parseType05. unfold_monad.
  repeat (read_step; [|frame_solve]). unfold ret. split; [frame_solve|].
  ranges. cbn [adds_block block_ranges seg_layer seg_x1 seg_y1 seg_x2 seg_y2
               seg_scale seg_net_index offset set_offset dataView].
  unfold u32, i32. lia.
Qed.

Lemma parseType02_extent : method parseType02 adds_block.
Proof.
  intros s. unfold parseType02. unfold_monad.
  repeat (read_step; [|frame_solve]).
  call_readString; [|frame_solve].
  unfold ret. split; [frame_solve|].
  match goal with H : sized_string _ _ _ _ |- _ => destruct H as [_ Hfit] end.
  ranges. cbn [adds_block block_ranges via_x via_y outer_radius inner_radius
               layer_a_index layer_b_index via_net_index offset set_offset dataView].
  unfold u32, i32. repeat split; lia.
Qed.

Lemma parseType06_extent : method parseType06 adds_block.
Proof.
  intros s. unfold parseType06. unfold_monad.
  repeat (read_step; [|frame_solve]).
  call_readString; [|frame_solve].
  unfold ret. split; [frame_solve|].
  match goal with H : sized_string _ _ _ _ |- _ => destruct H as [_ Hfit] end.
  ranges. cbn [adds_block block_ranges unknown_1 pos_x pos_y text_size divider
               empty one text_length offset set_offset dataView].
  unfold u32, i32. repeat split; lia.
Qed.

Lemma skip_extent (m : M state (option Block)) :
  method m (fun _ r _ => r = None) -> method m adds_block.
Proof.
  intros H. eapply method_weaken; [exact H|]. cbv beta. intros s r s' ->. exact I.
Qed.

Section WithCryptoJS.
Variable des : list byte -> list byte -> option (list byte).

(** The [parsed_data] of a DATA entity is a part that the part parser
    returned. *)
Lemma parseType07_part s :
  match parseType07 des s with
  | (Ret (Some (DATA d)), _) =>
    match parsed_data d with
    | Some pd =>
      exists arrayBuffer t g,
        fst (PartDataParser.parse arrayBuffer t (PartDataParser.constructor g)) = Ret pd
    | None => True
    end
  | _ => True
  end.
Proof.
  unfold parseType07. unfold_monad.
  read_step; [|exact I].
  read_step; [|exact I].
  destruct Hrd0 as (?&?&->&?).
  set (enc := mkUint8Array (dataView s) (offset s + 4) a).
  set (s1 := set_offset (offset s + 4 + a) (set_offset (offset s + 4) s)).
  destruct (decrypt_or_keep des enc s1) as (dec & Hd & _ & _).
  match goal with
  | |- context [try_catch ?m ?h s1] =>
    change (try_catch m h s1)
      with (try_catch (lift (decryptWithDES des enc)) (fun _ => ret enc) s1)
  end.
  rewrite Hd. cbv beta iota.
  destruct (parse_or_null des (buffer dec) a s1) as (pdo & g & Hp & Hpd).
  match goal with
  | |- context [try_catch ?m ?h s1] =>
    change (try_catch m h s1)
      with (try_catch (p <- PartDataParser_parse (buffer dec) a;; ret (Some p))
                      (fun _ => ret None) s1)
  end.
  rewrite Hp. cbv beta iota. unfold ret. cbn [parsed_data].
  destruct pdo as [pd|]; [|exact I]. destruct Hpd as [Hpd _].
  unfold PartDataParser_parse in Hpd.
  exists (buffer dec), a, (isThruHole_part s1).
  destruct (PartDataParser.parse _ _ _) as [r ps]. exact Hpd.
Qed.

Lemma bytes_in_range (l : list byte) : Forall (fun b => 0 <= u8 b < 256) l.
Proof. apply List.Forall_forall. intros b _. apply u8_range. Qed.

Lemma parseType07_extent : method (parseType07 des) adds_block.
Proof.
  intros s0. pose proof (parseType07_part s0) as Hpart. revert s0 Hpart.
  assert (Hm : method (parseType07 des) (fun s r s' =>
            (match r with
             | Some (DATA d) =>
               match parsed_data d with
               | Some pd => PartRanges.part_ranges pd
               | None => True
               end
             | _ => True
             end -> adds_block s r s'))).
  { eapply method_weaken; [apply (parseType07_spec des)|]. cbv beta.
    intros s r s' (d & -> & _ & Hn & Hfit & Hoff & Henc & _) Hpd.
    pose proof (getUint32_spec (dataView s) (offset s)) as Hr. rewrite Hn in Hr.
    destruct Hr as (H0 & _ & _). apply getUint32_range in Hn.
    cbn [adds_block block_ranges]. unfold u32. split; [|lia].
    split; [exact Hn|]. split.
    { rewrite Henc, length_take, length_drop. unfold byteLength in Hfit. lia. }
    split; [apply bytes_in_range|]. split; [apply bytes_in_range|exact Hpd]. }
  intros s Hpart. specialize (Hm s).
  destruct (parseType07 des s) as [[r|e|] s']; [|exact Hm|exact Hm].
  destruct Hm as [Hf Hadd]. split; [exact Hf|]. apply Hadd.
  destruct r as [[a|v|g|t|d]|]; try exact I.
  destruct (parsed_data d) as [pd|]; [|exact I].
  destruct Hpart as (buf & t & g & Hpd).
  exact (PartRanges.parse_ranges buf t _ pd Hpd).
Qed.

Lemma blockHandlers_extent v :
  match blockHandlers des v with
  | Some handler => method handler adds_block
  | None => True
  end.
Proof.
  unfold blockHandlers.
  repeat match goal with
         | |- context [if ?c then _ else _] => destruct c
         end; try exact I.
  - apply parseType01_extent.
  - apply parseType02_extent.
  - apply skip_extent, parseType03_spec.
  - apply skip_extent. intros s. unfold_monad. unfold ret. frame_solve.
  - apply parseType05_extent.
  - apply parseType06_extent.
  - apply parseType07_extent.
  - apply skip_extent. intros s. unfold_monad. unfold ret. frame_solve.
  - apply skip_extent, parseType09_spec.
Qed.

(** One round either appends nothing and moves on, or appends one entity
    that lies inside the buffer and takes at least five bytes of it. *)
Lemma main_round_extent endOffset blocks s :
  match main_round des endOffset blocks s with
  | (Ret (Some blocks'), s') =>
    dataView s' = dataView s /\ 0 <= offset s < byteLength (dataView s) /\
    offset s < endOffset /\
    ((blocks' = blocks /\ offset s < offset s') \/
     (exists b, blocks' = blocks ++ [b] /\ block_ranges b /\
                offset s + 5 <= offset s' <= byteLength (dataView s)))
  | (Ret None, s') =>
    s' = s /\ (endOffset <= offset s \/ byteLength (dataView s) <= offset s)
  | _ => True
  end.
Proof.
  unfold main_round. unfold_monad.
  destruct ((offset s <? endOffset) && (offset s <? byteLength (dataView s))) eqn:Hg.
  2:{ unfold ret. split; [reflexivity|].
      apply andb_false_iff in Hg. rewrite !Z.ltb_ge in Hg. tauto. }
  apply andb_true_iff in Hg. rewrite !Z.ltb_lt in Hg. destruct Hg as [Hend Hlen].
  read_step; [|exact I].
  destruct (a =? 0).
  { unfold ret. cbn [dataView offset set_offset]. repeat split; try lia. left. split; [reflexivity|lia]. }
  read_step; [|exact I].
  pose proof (blockHandlers_extent a0) as Hh.
  destruct (blockHandlers des a0) as [handler|].
  2:{ unfold ret. cbn [dataView offset set_offset]. repeat split; try lia. left. split; [reflexivity|lia]. }
  specialize (Hh (set_offset (offset s + 1) s)).
  destruct (handler (set_offset (offset s + 1) s)) as [[[b|]|e|] s1]; try exact I.
  - unfold ret. destruct Hh as [(Hdv & _ & Hof) [Hb Hext]].
    cbn [dataView offset set_offset] in *. repeat split; try lia; try assumption.
    right. exists b. repeat split; try assumption; lia.
  - unfold ret. destruct Hh as [(Hdv & _ & Hof) _].
    cbn [dataView offset set_offset] in *. repeat split; try lia; try assumption.
    left. split; [reflexivity|lia].
Qed.

(** The loop only appends, and every entity it appends accounts for five
    bytes of what was left of the buffer. *)
Lemma main_loop_extent fuel :
  forall endOffset blocks s l s',
    main_loop des fuel endOffset blocks s = (Ret l, s') ->
    exists new,
      l = blocks ++ new /\ Forall block_ranges new /\
      5 * Z.of_nat (length new) <= Z.max 0 (byteLength (dataView s) - offset s).
Proof.
  induction fuel as [|fuel IH]; intros endOffset blocks s l s' H; [discriminate|].
  cbn [main_loop] in H. unfold bind in H.
  pose proof (main_round_extent endOffset blocks s) as Hr.
  destruct (main_round des endOffset blocks s) as [[[blocks'|]|e|] s1];
    try discriminate.
  - destruct Hr as (Hdv & Ho & _ & Hcase).
    destruct (IH _ _ _ _ _ H) as (new & -> & Hnew & Hlen). rewrite Hdv in Hlen.
    destruct Hcase as [[-> Hlt]|(b & -> & Hb & Hext)].
    + exists new. split; [reflexivity|]. split; [exact Hnew|lia].
    + exists (b :: new). rewrite <- app_assoc. split; [reflexivity|].
      split; [constructor; assumption|]. cbn [length]. lia.
  - unfold ret in H. injection H as <- <-. exists []. rewrite app_nil_r.
    split; [reflexivity|]. split; [constructor|]. cbn [length]. lia.
Qed.

End WithCryptoJS.

End WalkerFacts.

(** ** Boards *)

(** A returned Board is what the loop collected from offset 0x44 of the
    deobfuscated buffer, which is as long as the input. *)
Lemma parse_returns_main_loop
      (des : list byte -> list byte -> option (list byte))
      (buf : list byte) (s0 : state) (board : Board) :
  fst (parse des buf s0) = Ret board ->
  exists dv' n s',
    length dv' = length buf /\
    main_loop des (S (length dv')) (68 + n) []
              (ParseFacts.at_main_region dv' n s0)
      = (Ret (main_data_block board), s').
Proof.
  intros H.
  destruct (ParseFacts.parse_outcome des buf s0) as [Ho _].
  destruct (parse des buf s0) as [r s1] eqn:E. cbn [fst] in H. subst r.
  destruct Ho as [_ Hlen].
  destruct (ParseFacts.parse_long des buf s0 Hlen) as (dv' & n & _ & (Hl & _) & _ & Hp).
  rewrite Hp in E. unfold parseMainDataBlocks in E. revert E. unfold_monad.
  cbn [ParseFacts.at_main_region offset dataView mainDataBlocksSize].
  intros E. destruct (main_loop des _ _ _ _) as [[l|e|] s'] eqn:El; try discriminate.
  injection E as <- <-. exists dv', n, s'. split; [exact Hl|]. exact El.
Qed.

(** Every number of every entity of a returned Board lies in the range of
    the read that produced it ([getUint32], [getInt32], [getUint16] or
    [getUint8]): the centre of an ARC is unsigned while its radius,
    angles, scale and net index are signed; the coordinates and radii of
    a VIA and the coordinates and scale of a SEGMENT are signed, their
    layers and net indices unsigned; every TEXT number is unsigned.  The
    ciphertext recorded in a DATA entity has exactly [block_size] bytes,
    its bytes and those of the plaintext are below 256, and when a part
    was parsed from it, every number of its header, of its sub-blocks
    and of their pins is an unsigned 32-bit number, a visibility or the
    shape of a pin a byte. *)
Theorem board_entities_are_in_range
        (des : list byte -> list byte -> option (list byte))
        (buf : list byte) (s0 : state) (board : Board) :
  fst (parse des buf s0) = Ret board ->
  Forall WalkerFacts.block_ranges (main_data_block board).
Proof.
  intros H. destruct (parse_returns_main_loop des buf s0 board H)
    as (dv' & n & s' & _ & Hloop).
  destruct (WalkerFacts.main_loop_extent des _ _ _ _ _ _ Hloop) as (new & -> & Hnew & _).
  exact Hnew.
Qed.

(** On the file whose DATA block holds a part with one line. *)
Lemma board_entities_are_in_range_witness :
  Forall WalkerFacts.block_ranges
         (main_data_block
            (mkBoard [DATA (mkData 7 (bytes_of [1; 2; 3; 4; 5; 6; 7])
                                     (bytes_of [1; 2; 3; 4; 5; 6; 7])
                                     (Some part_read_from_file))])).
Proof.
  apply (board_entities_are_in_range no_CryptoJS undecryptable_file (constructor None)).
  vm_compute. reflexivity.
Defined.

(** A Board decoded from [n] bytes has at most [(n - 68) / 5] entities:
    each entity takes at least five bytes behind the file header. *)
Theorem board_size_is_bounded
        (des : list byte -> list byte -> option (list byte))
        (buf : list byte) (s0 : state) (board : Board) :
  fst (parse des buf s0) = Ret board ->
  5 * Z.of_nat (length (main_data_block board)) <= byteLength buf - 68.
Proof.
  intros H. destruct (parse_returns_main_loop des buf s0 board H)
    as (dv' & n & s' & Hl & Hloop).
  destruct (ParseFacts.parse_outcome des buf s0) as [Ho _].
  destruct (parse des buf s0) as [r s1]. cbn [fst] in H. subst r.
  destruct Ho as [_ Hlen].
  destruct (WalkerFacts.main_loop_extent des _ _ _ _ _ _ Hloop) as (new & -> & _ & Hb).
  cbn [ParseFacts.at_main_region offset dataView app] in Hb.
  unfold byteLength in *. rewrite Hl in Hb. cbn [app]. lia.
Qed.

Lemma board_size_is_bounded_witness :
  5 * Z.of_nat (length (main_data_block
                          (mkBoard [SEGMENT (mkSegment 1 100 200 300 400 20000 7)])))
  <= byteLength (file_header 33 ++ SEGMENT_block) - 68.
Proof.
  apply (board_size_is_bounded no_CryptoJS (file_header 33 ++ SEGMENT_block)
                               (constructor None)).
  vm_compute. reflexivity.
Defined.

(** A clear file whose main-region size is 0 decodes to the empty Board,
    whatever bytes follow the file header. *)
Theorem empty_main_region_gives_empty_board
        (des : list byte -> list byte -> option (list byte))
        (buf : list byte) (s0 : state) :
  68 <= byteLength buf -> byte_at buf 16 = 0 -> getUint32 buf 64 = Ret 0 ->
  fst (parse des buf s0) = Ret (mkBoard []).
Proof.
  intros Hlen Hclear Hsize.
  destruct (ParseFacts.parse_long des buf s0 Hlen) as (dv' & n & _ & (_ & Hsame & _) & Hn & ->).
  rewrite (Hsame Hclear) in *. rewrite Hsize in Hn. injection Hn as <-.
  unfold parseMainDataBlocks. unfold_monad.
  cbn [ParseFacts.at_main_region offset dataView mainDataBlocksSize main_loop].
  unfold bind, main_round. unfold_monad.
  cbn [offset]. replace (68 <? 68 + 0) with false by reflexivity.
  reflexivity.
Qed.

Lemma empty_main_region_gives_empty_board_witness :
  fst (parse no_CryptoJS (file_header 0 ++ SEGMENT_block) (constructor None))
  = Ret (mkBoard []).
Proof.
  apply empty_main_region_gives_empty_board;
    [vm_compute; discriminate | reflexivity | reflexivity].
Defined.

(** ** Rounds of the outer walker *)

Lemma set_offset_twice o1 o2 (s : state) :
  set_offset o2 (set_offset o1 s) = set_offset o2 s.
Proof. reflexivity. Qed.

Lemma set_offset_same (s : state) o : o = offset s -> set_offset o s = s.
Proof. intros ->. destruct s. reflexivity. Qed.

Lemma getUint32_zeros dv o :
  0 <= o -> o + 4 <= byteLength dv ->
  (forall j, o <= j < o + 4 -> byte_at dv j = 0) ->
  getUint32 dv o = Ret 0.
Proof.
  intros H0 Hlen Hz. unfold getUint32.
  replace (in_bounds dv o 4) with true by (symmetry; apply in_bounds_spec; lia).
  rewrite !Hz by lia. reflexivity.
Qed.

Lemma getUint32_low_byte dv o v :
  getUint32 dv o = Ret v -> byte_at dv o <> 0 -> v <> 0.
Proof.
  intros Hv Hb ->. apply Hb. unfold getUint32 in Hv.
  destruct (in_bounds dv o 4); [|discriminate].
  injection Hv as H. apply Z.lor_eq_0_iff in H. destruct H as [H _].
  apply Z.lor_eq_0_iff in H. tauto.
Qed.

(** One to three bytes left in front of the end of the main region make
    the walker throw a RangeError: the padding test reads four bytes
    before any tag is looked at.  The blocks collected so far are lost
    with the exception, and the offset stays where it was. *)
Theorem short_tail_throws
        (des : list byte -> list byte -> option (list byte))
        (fuel : nat) (endOffset : Z) (blocks : list Block) (s : state) :
  offset s < endOffset ->
  offset s < byteLength (dataView s) < offset s + 4 ->
  main_loop des (S fuel) endOffset blocks s = (Throw RangeError, s).
Proof.
  intros Hend [Hlo Hhi]. cbn [main_loop]. unfold bind, main_round. unfold_monad.
  replace ((offset s <? endOffset) && (offset s <? byteLength (dataView s)))
    with true by (symmetry; rewrite andb_true_iff, !Z.ltb_lt; lia).
  unfold getUint32.
  replace (in_bounds (dataView s) (offset s) 4) with false; [reflexivity|].
  symmetry. unfold in_bounds. apply andb_false_iff. right. apply Z.leb_gt. lia.
Qed.

Lemma short_tail_throws_witness :
  main_loop no_CryptoJS 1 70 [SEGMENT (mkSegment 1 100 200 300 400 20000 7)]
            (mkState (file_header 2 ++ bytes_of [5; 0]) 68 2 None)
  = (Throw RangeError, mkState (file_header 2 ++ bytes_of [5; 0]) 68 2 None).
Proof.
  apply (short_tail_throws no_CryptoJS 0 70); vm_compute; intuition discriminate.
Defined.

(** A block with tag 0x03 or 0x09 is skipped by its declared size without
    a look at its payload: when the size points to the end of the buffer
    or beyond it, the walk ends there normally, with the blocks collected
    so far and the offset possibly behind the buffer. *)
Theorem skipped_block_may_overrun
        (des : list byte -> list byte -> option (list byte))
        (fuel : nat) (endOffset : Z) (blocks : list Block) (s : state) (n : Z) :
  0 <= offset s < endOffset ->
  offset s + 5 <= byteLength (dataView s) ->
  byte_at (dataView s) (offset s) = 3 \/ byte_at (dataView s) (offset s) = 9 ->
  getUint32 (dataView s) (offset s + 1) = Ret n ->
  byteLength (dataView s) <= offset s + 5 + n ->
  main_loop des (S (S fuel)) endOffset blocks s
  = (Ret blocks, set_offset (offset s + 5 + n) s).
Proof.
  intros [H0 Hend] Hlen Htag Hn Hover.
  assert (Hin : in_bounds (dataView s) (offset s) 4 = true)
    by (apply in_bounds_spec; lia).
  destruct (getUint32 (dataView s) (offset s)) as [word|e|] eqn:Hword;
    [|unfold getUint32 in Hword; rewrite Hin in Hword; discriminate..].
  assert (Hnz : (word =? 0) = false).
  { apply Z.eqb_neq. apply (getUint32_low_byte _ _ _ Hword). lia. }
  assert (Hround : main_round des endOffset blocks s
                   = (Ret (Some blocks), set_offset (offset s + 5 + n) s)).
  { unfold main_round. unfold_monad.
    replace ((offset s <? endOffset) && (offset s <? byteLength (dataView s)))
      with true by (symmetry; rewrite andb_true_iff, !Z.ltb_lt; lia).
    rewrite Hword, Hnz. rewrite XorFacts.getUint8_in by lia.
    assert (Hh : blockHandlers des (byte_at (dataView s) (offset s)) = Some parseType03
                 \/ blockHandlers des (byte_at (dataView s) (offset s)) = Some parseType09)
      by (destruct Htag as [-> | ->]; [left|right]; reflexivity).
    destruct Hh as [-> | ->]; unfold parseType03, parseType09; unfold_monad;
      cbn [dataView offset set_offset]; rewrite Hn; unfold ret;
      f_equal; unfold set_offset;
      cbn [dataView offset mainDataBlocksSize isThruHole_part]; f_equal; lia. }
  cbn [main_loop]. unfold bind at 1. rewrite Hround.
  unfold bind, main_round. unfold_monad. cbn [dataView offset set_offset].
  replace (offset s + 5 + n <? byteLength (dataView s)) with false
    by (symmetry; apply Z.ltb_ge; lia).
  rewrite andb_false_r. reflexivity.
Qed.

Lemma skipped_block_may_overrun_witness :
  main_loop no_CryptoJS 2 80 []
            (mkState (file_header 12 ++ bytes_of [9; 255; 255; 255; 255; 5; 5; 5; 5; 5; 5; 5])
                     68 12 None)
  = (Ret [],
     set_offset (68 + 5 + 4294967295)
       (mkState (file_header 12 ++ bytes_of [9; 255; 255; 255; 255; 5; 5; 5; 5; 5; 5; 5])
                68 12 None)).
Proof.
  apply (skipped_block_may_overrun no_CryptoJS 0 80 []
           (mkState (file_header 12 ++ bytes_of [9; 255; 255; 255; 255; 5; 5; 5; 5; 5; 5; 5])
                    68 12 None) 4294967295).
  - vm_compute. intuition discriminate.
  - vm_compute. discriminate.
  - right. reflexivity.
  - reflexivity.
  - vm_compute. discriminate.
Defined.

(** [k] zero words in front of the walker cost [k] rounds and add
    nothing: the walk goes on [4 * k] bytes further with the same blocks.
    The last of these words may reach up to three bytes over the end of
    the main region. *)
Theorem zero_words_are_skipped
        (des : list byte -> list byte -> option (list byte)) (k : nat) :
  forall (fuel : nat) (endOffset : Z) (blocks : list Block) (s : state),
    0 <= offset s ->
    offset s + 4 * Z.of_nat k <= byteLength (dataView s) ->
    offset s + 4 * Z.of_nat k < endOffset + 4 ->
    (forall j, offset s <= j < offset s + 4 * Z.of_nat k ->
               byte_at (dataView s) j = 0) ->
    main_loop des (k + fuel) endOffset blocks s
    = main_loop des fuel endOffset blocks (set_offset (offset s + 4 * Z.of_nat k) s).
Proof.
  induction k as [|k IH]; intros fuel endOffset blocks s H0 Hlen Hend Hz.
  - cbn [Nat.add]. rewrite set_offset_same by (cbn; lia). reflexivity.
  - cbn [Nat.add main_loop]. unfold bind at 1.
    assert (Hround : main_round des endOffset blocks s
                     = (Ret (Some blocks), set_offset (offset s + 4) s)).
    { unfold main_round. unfold_monad.
      replace ((offset s <? endOffset) && (offset s <? byteLength (dataView s)))
        with true by (symmetry; rewrite andb_true_iff, !Z.ltb_lt; lia).
      rewrite getUint32_zeros by (try lia; intros j Hj; apply Hz; lia).
      reflexivity. }
    rewrite Hround.
    rewrite (IH fuel endOffset blocks (set_offset (offset s + 4) s));
      cbn [offset dataView set_offset]; try lia.
    + f_equal. unfold set_offset. cbn [offset dataView mainDataBlocksSize isThruHole_part].
      f_equal. lia.
    + intros j Hj. apply Hz. lia.
Qed.

Lemma zero_words_are_skipped_witness :
  main_loop no_CryptoJS (2 + 1) 76 [] (mkState (file_header 8 ++ zeros 8) 68 8 None)
  = main_loop no_CryptoJS 1 76 []
              (set_offset (68 + 4 * Z.of_nat 2)
                          (mkState (file_header 8 ++ zeros 8) 68 8 None)).
Proof.
  apply (zero_words_are_skipped no_CryptoJS 2 1 76 []
           (mkState (file_header 8 ++ zeros 8) 68 8 None)).
  - vm_compute. discriminate.
  - vm_compute. discriminate.
  - reflexivity.
  - cbn [offset dataView]. intros j Hj.
    assert (Hc : j = 68 \/ j = 69 \/ j = 70 \/ j = 71 \/ j = 72 \/ j = 73 \/ j = 74 \/ j = 75)
      by lia.
    destruct Hc as [-> | [-> | [-> | [-> | [-> | [-> | [-> | ->]]]]]]]; reflexivity.
Defined.

(** A main-region size that reaches the end of the buffer or goes beyond
    it is as good as any other that does: the walk stops at the end of
    the buffer. *)
Theorem region_is_cut_at_buffer_end
        (des : list byte -> list byte -> option (list byte)) (fuel : nat) :
  forall (e1 e2 : Z) (blocks : list Block) (s : state),
    byteLength (dataView s) <= e1 -> byteLength (dataView s) <= e2 ->
    main_loop des fuel e1 blocks s = main_loop des fuel e2 blocks s.
Proof.
  induction fuel as [|fuel IH]; intros e1 e2 blocks s H1 H2; [reflexivity|].
  cbn [main_loop]. unfold bind.
  assert (Hsame : main_round des e1 blocks s = main_round des e2 blocks s).
  { unfold main_round. unfold_monad.
    destruct (offset s <? byteLength (dataView s)) eqn:E.
    - apply Z.ltb_lt in E.
      replace (offset s <? e1) with true by (symmetry; apply Z.ltb_lt; lia).
      replace (offset s <? e2) with true by (symmetry; apply Z.ltb_lt; lia).
      reflexivity.
    - rewrite !andb_false_r. reflexivity. }
  rewrite Hsame.
  pose proof (WalkerFacts.main_round_extent des e2 blocks s) as Hr.
  destruct (main_round des e2 blocks s) as [[[blocks'|]|e|] s1]; try reflexivity.
  destruct Hr as (Hdv & _). apply IH; rewrite Hdv; assumption.
Qed.

Lemma region_is_cut_at_buffer_end_witness :
  main_loop no_CryptoJS 102 101 [] (mkState (file_header 33 ++ SEGMENT_block) 68 33 None)
  = main_loop no_CryptoJS 102 4294967363 []
              (mkState (file_header 33 ++ SEGMENT_block) 68 33 None).
Proof.
  apply region_is_cut_at_buffer_end; vm_compute; discriminate.
Defined.

(** ** Parsing the buffer that [parse] has changed *)

Lemma u8_inj (a b : byte) : u8 a = u8 b -> a = b.
Proof.
  unfold u8. intros H. apply N2Z.inj in H.
  pose proof (Byte.of_to_N a) as Ha. pose proof (Byte.of_to_N b) as Hb.
  rewrite H in Ha. congruence.
Qed.

(** Two buffers of one length with the same byte at every index are the
    same buffer. *)
Lemma byte_at_ext (a : list byte) :
  forall b, length a = length b ->
            (forall j, 0 <= j < byteLength a -> byte_at a j = byte_at b j) ->
            a = b.
Proof.
  induction a as [|x a IH]; intros [|y b] Hl H; try discriminate; [reflexivity|].
  unfold byteLength in *. cbn [length] in *. f_equal.
  - apply u8_inj. apply (H 0). lia.
  - apply IH; [lia|]. intros j Hj. specialize (H (j + 1) ltac:(lia)).
    unfold byte_at in *. replace (Z.to_nat (j + 1)) with (S (Z.to_nat j)) in H by lia.
    exact H.
Qed.

(** The XOR loop is its own inverse: run a second time over the same
    range with the same key, it restores every byte of the buffer. *)
Theorem xor_loop_twice (n : nat) (i key : Z) (s : state) :
  0 <= i -> i + Z.of_nat n <= byteLength (dataView s) -> 0 <= key < 256 ->
  exists s1, xor_loop n i key s = (Ret tt, s1) /\
             xor_loop n i key s1 = (Ret tt, s).
Proof.
  intros Hi Hfit Hkey.
  destruct (XorFacts.xor_loop_spec n i key s Hi Hfit Hkey) as (dv1 & H1 & Hl1 & Hb1).
  exists (set_dataView dv1 s). split; [exact H1|].
  destruct (XorFacts.xor_loop_spec n i key (set_dataView dv1 s)) as (dv2 & H2 & Hl2 & Hb2);
    [exact Hi|cbn [dataView set_dataView]; unfold byteLength in *; lia|exact Hkey|].
  rewrite H2. cbn [dataView set_dataView] in *.
  assert (Hdv : dv2 = dataView s).
  { apply byte_at_ext; [congruence|]. intros j Hj.
    rewrite (Hb2 j) by lia. rewrite (Hb1 j) by lia.
    destruct ((i <=? j) && (j <? i + Z.of_nat n)); [|reflexivity].
    rewrite Z.lxor_assoc, Z.lxor_nilpotent, Z.lxor_0_r. reflexivity. }
  rewrite Hdv. f_equal. destruct s; reflexivity.
Qed.

Lemma xor_loop_twice_witness :
  exists s1,
    xor_loop 3 1 90 (mkState (bytes_of [1; 2; 3; 4; 5]) 0 0 None) = (Ret tt, s1) /\
    xor_loop 3 1 90 s1 = (Ret tt, mkState (bytes_of [1; 2; 3; 4; 5]) 0 0 None).
Proof.
  apply (xor_loop_twice 3 1 90 (mkState (bytes_of [1; 2; 3; 4; 5]) 0 0 None));
    vm_compute; intuition discriminate.
Defined.

(** [parse] overwrites the obfuscated prefix of the buffer it is given,
    yet the buffer it leaves decodes as before: a second [parse], by any
    parser object, of the buffer the first one left gives the outcome of
    the first, provided the sentinel does not stand at an index below 17
    (where it would keep the flag byte out of the XOR-ed prefix). *)
Theorem parse_again_gives_same_outcome
        (des : list byte -> list byte -> option (list byte))
        (buf : list byte) (s0 s1 : state) :
  (forall j, j <= 16 -> ~ XorFacts.occurs_at buf sequence j) ->
  fst (parse des (dataView (snd (parse des buf s0))) s1) = fst (parse des buf s0).
Proof.
  intros Hno.
  destruct (ParseFacts.parse_outcome des buf s0) as [Hout Hdv].
  destruct (Z_lt_ge_dec (byteLength buf) 68) as [Hs|Hs].
  - (* both throw: the changed buffer is as short as the first *)
    destruct (ParseFacts.parse_short des buf s0 Hs) as [-> _].
    rewrite Hdv.
    assert (Hlen : length (dataView (snd (xor_decryption (ParseFacts.entered buf s0))))
                   = length buf).
    { destruct (Z_le_gt_dec (byteLength buf) 16) as [H16|H16].
      - rewrite (XorFacts.xor_decryption_short (ParseFacts.entered buf s0)) by exact H16.
        reflexivity.
      - destruct (XorFacts.xor_decryption_spec (ParseFacts.entered buf s0))
          as (dv' & -> & Hl & _);
          [cbn [ParseFacts.entered dataView set_offset set_dataView]; lia|exact Hl]. }
    apply ParseFacts.parse_short. unfold byteLength in *. lia.
  - destruct (ParseFacts.parse_long des buf s0 ltac:(lia))
      as (dv' & n & Hx & (Hl & Hclear & Hxor) & Hn & Hp).
    rewrite Hdv, Hx. cbn [snd dataView set_dataView]. rewrite Hp.
    assert (Hflag : byte_at dv' 16 = 0).
    { destruct (Z.eq_dec (byte_at buf 16) 0) as [Hz|Hnz];
        [rewrite (Hclear Hz); exact Hz|].
      destruct (Hxor Hnz) as (e & Hend & Hb). rewrite (Hb 16) by lia.
      assert (He : 16 < e).
      { destruct Hend as [[Hocc _]|[_ ->]]; [|lia].
        destruct (Z_lt_ge_dec 16 e) as [?|Hle]; [assumption|].
        elim (Hno e ltac:(lia) Hocc). }
      replace (16 <? e) with true by (symmetry; apply Z.ltb_lt; exact He).
      apply Z.lxor_nilpotent. }
    destruct (ParseFacts.parse_long des dv' s1 ltac:(unfold byteLength in *; lia))
      as (dv2 & n2 & _ & (_ & Hclear2 & _) & Hn2 & ->).
    rewrite (Hclear2 Hflag) in *. rewrite Hn in Hn2. injection Hn2 as <-.
    destruct (Determinism.Raw.parseMainDataBlocks_indep des
                (ParseFacts.at_main_region dv' n s1) (ParseFacts.at_main_region dv' n s0))
      as [Hfst _]; [repeat split|].
    destruct (parseMainDataBlocks des (ParseFacts.at_main_region dv' n s1)) as [[l1|e1|] t1],
             (parseMainDataBlocks des (ParseFacts.at_main_region dv' n s0)) as [[l0|e0|] t0];
      cbn [fst] in *; congruence.
Qed.

Lemma parse_again_gives_same_outcome_witness :
  fst (parse no_CryptoJS
             (dataView (snd (parse no_CryptoJS obfuscated_file (constructor None))))
             (constructor (Some true)))
  = fst (parse no_CryptoJS obfuscated_file (constructor None)).
Proof.
  apply parse_again_gives_same_outcome.
  intros j Hj [H0 Hocc].
  assert (Hc : j = 0 \/ j = 1 \/ j = 2 \/ j = 3 \/ j = 4 \/ j = 5 \/ j = 6 \/ j = 7 \/
               j = 8 \/ j = 9 \/ j = 10 \/ j = 11 \/ j = 12 \/ j = 13 \/ j = 14 \/
               j = 15 \/ j = 16) by lia.
  repeat (destruct Hc as [-> | Hc]; [vm_compute in Hocc; discriminate|]).
  subst j. vm_compute in Hocc. discriminate.
Defined.

(** ** [findSequence] for any sequence *)

(** [findSequence] never throws: it returns the first index at which the
    sequence stands in the array, or -1 when it stands nowhere.  The empty
    sequence is found at index 0. *)
Theorem findSequence_finds_first (array : list byte) (seq : list Z) :
  exists k, findSequence array seq = Ret k /\
    ((k = -1 /\ forall j, ~ XorFacts.occurs_at array seq j) \/
     (0 <= k /\ XorFacts.occurs_at array seq k /\
      forall j, j < k -> ~ XorFacts.occurs_at array seq j)).
Proof.
  unfold findSequence.
  set (n := Z.to_nat (byteLength array - Z.of_nat (length seq) + 1)).
  assert (Hlen : 0 <= byteLength array) by (unfold byteLength; lia).
  destruct (XorFacts.findSequence_from_spec array seq n 0) as (k & Hk & Hcase);
    [lia|intros Hn0; subst n; lia|].
  exists k. split; [exact Hk|].
  destruct Hcase as [[-> Hnone]|(Hr & Ho & Hfirst)].
  - left. split; [reflexivity|]. intros j Hj.
    destruct seq as [|c seq].
    + apply (Hnone 0); [subst n; cbn [length]; lia|].
      split; [lia|]. rewrite take_0. reflexivity.
    + assert (Hpos : (0 < length (c :: seq))%nat) by (cbn [length]; lia).
      pose proof (XorFacts.occurs_at_fits array (c :: seq) j Hpos Hj) as Hfit.
      pose proof Hj as [Hj0 _]. apply (Hnone j); [subst n; lia|exact Hj].
  - right. split; [lia|]. split; [exact Ho|]. intros j Hj Hocc.
    pose proof Hocc as [Hj0 _]. apply (Hfirst j); [lia|exact Hocc].
Qed.

(** ** Parts: short plaintexts, empty parts and pin arrays *)

Module PinFacts.
Import PartDataParser.
Import PartFacts.

(** The bytes a pin takes in the plaintext. *)
Definition pin_extent (p : Pin) : Z := 73 + name_size p.

Fixpoint pins_extent (pins : list Pin) : Z :=
  match pins with
  | [] => 0
  | p :: rest => pin_extent p + pins_extent rest
  end.

Lemma pins_extent_app l1 l2 : pins_extent (l1 ++ l2) = pins_extent l1 + pins_extent l2.
Proof. induction l1 as [|p l1 IH]; cbn [app pins_extent]; lia. Qed.

Lemma readString_keeps_flag n s :
  isThruHole_part (snd (readString n s)) = isThruHole_part s.
Proof.
  unfold readString. destruct (n =? 0); [reflexivity|]. unfold_monad.
  destruct (new_Uint8Array (dataView s) (offset s) n); reflexivity.
Qed.

(** A pin that is returned has set the module variable to its own flag. *)
Lemma parsePin_flag dv s :
  match parsePin dv s with
  | (Ret p, s1) => isThruHole_part s1 = Some (isThruHole_pin p)
  | _ => True
  end.
Proof.
  unfold parsePin. unfold_monad.
  repeat (read_step; [|exact I]).
  match goal with
  | |- context [(if 0 <? ?n then readString ?n else ret []) ?s0] =>
    assert (Hk : isThruHole_part (snd ((if 0 <? n then readString n else ret []) s0))
                 = isThruHole_part s0)
      by (destruct (0 <? n); [apply readString_keeps_flag|reflexivity]);
    destruct ((if 0 <? n then readString n else ret []) s0) as [[str|e|] s1];
    try exact I
  end.
  cbn [snd isThruHole_part set_offset set_isThruHole_part] in Hk.
  repeat (read_step; [|exact I]).
  unfold ret. cbn [isThruHole_part set_offset isThruHole_pin]. exact Hk.
Qed.

(** What a pin array that is returned has consumed, why it stopped, and
    what it left in the module variable. *)
Lemma pins_loop_trace fuel :
  forall blockSize dv acc s l s',
    pins_loop fuel blockSize dv acc s = (Ret l, s') ->
    exists new,
      l = acc ++ new /\
      offset s' = offset s + pins_extent new /\
      cur_block_size s < offset s' + blockSize /\
      cur_block_size s' = cur_block_size s /\
      isThruHole_part s' = match last new with
                           | Some p => Some (isThruHole_pin p)
                           | None => isThruHole_part s
                           end.
Proof.
  induction fuel as [|fuel IH]; intros blockSize dv acc s l s' H; [discriminate|].
  cbn [pins_loop] in H. revert H. unfold_monad.
  destruct (offset s + blockSize <=? cur_block_size s) eqn:Hg.
  - pose proof (parsePin_spec dv s) as Hpin. pose proof (parsePin_flag dv s) as Hflag.
    destruct (parsePin dv s) as [[pin|e|] s1]; try discriminate.
    intros H. destruct Hpin as ((_ & Hcb & _) & _ & _ & _ & _ & _ & _ & Hoff & _).
    destruct (IH _ _ _ _ _ _ H) as (new & -> & Hof & Hstop & Hcb' & Hfl).
    exists (pin :: new). rewrite <- app_assoc. split; [reflexivity|].
    cbn [pins_extent]. unfold pin_extent.
    split; [lia|]. split; [lia|]. split; [congruence|].
    rewrite Hfl. destruct new as [|q new]; [exact Hflag|].
    change (last (pin :: q :: new)) with (last (q :: new)).
    destruct (last (q :: new)) eqn:E; [reflexivity|].
    apply last_None in E. discriminate.
  - unfold ret. intros [= <- <-]. exists []. rewrite app_nil_r.
    apply Z.leb_gt in Hg. cbn [pins_extent last]. repeat split; lia.
Qed.

End PinFacts.

(** A pin array that is returned has consumed its four-byte size and
    [73 + name_size] bytes for every pin; it stopped because one more
    array of the announced size no longer fits the budget that
    [RawPCBParser] passes (the size of the DATA block); and the module
    variable [isThruHole_part] holds the flag of its last pin, or what it
    held before when the array has no pin. *)
Theorem pin_array_extent
        (s s' : PartDataParser.state) (blockSize : Z) (pins : list PartDataParser.Pin) :
  PartDataParser.parseSubType09 s = (Ret (PartDataParser.sub_type_09 blockSize pins), s') ->
  getUint32 (PartDataParser.dataView s) (PartDataParser.offset s) = Ret blockSize /\
  PartDataParser.offset s' = PartDataParser.offset s + 4 + PinFacts.pins_extent pins /\
  PartDataParser.cur_block_size s < PartDataParser.offset s' + blockSize /\
  PartDataParser.isThruHole_part s' =
    match last pins with
    | Some p => Some (PartDataParser.isThruHole_pin p)
    | None => PartDataParser.isThruHole_part s
    end.
Proof.
  unfold PartDataParser.parseSubType09. unfold_monad.
  destruct (getUint32 (PartDataParser.dataView s) (PartDataParser.offset s))
    as [bs|e|]; try discriminate.
  destruct (PartDataParser.pins_loop _ _ _ _ _) as [[l|e|] s1] eqn:Hl; try discriminate.
  unfold ret. intros [= -> -> ->].
  destruct (PinFacts.pins_loop_trace _ _ _ _ _ _ _ Hl) as (new & Hnew & Hof & Hstop & _ & Hfl).
  cbn [app] in Hnew. subst new.
  cbn [PartDataParser.offset PartDataParser.cur_block_size PartDataParser.isThruHole_part
       PartDataParser.set_offset] in *.
  split; [reflexivity|]. split; [lia|]. split; [lia|exact Hfl].
Qed.

Lemma part_header_too_short
      (arrayBuffer : list byte) (t07blockSize : Z) (s0 : PartDataParser.state) :
  byteLength arrayBuffer < 26 ->
  fst (PartDataParser.parse arrayBuffer t07blockSize s0) = Throw RangeError.
Proof.
  intros Hlen. rewrite PartFacts.part_parse_unfold.
  assert (Hh : exists sh, PartDataParser.parseHeader
                            (PartFacts.started arrayBuffer t07blockSize s0)
                          = (Throw RangeError, sh)).
  { pose proof (PartFacts.parseHeader_spec (PartFacts.started arrayBuffer t07blockSize s0))
      as Hs.
    destruct (PartDataParser.parseHeader _) as [[h|e|] sh]; [|destruct Hs as [-> _]; eauto|elim Hs].
    destruct Hs as (_ & _ & _ & _ & Hn & _).
    cbn [PartFacts.started PartDataParser.dataView PartDataParser.offset] in Hn.
    unfold getUint32 in Hn. destruct (in_bounds arrayBuffer (0 + 22) 4) eqn:E; [|discriminate].
    apply in_bounds_spec in E. lia. }
  destruct Hh as (sh & ->). reflexivity.
Qed.

(** A part that is returned had its whole header in the plaintext: the
    26 bytes of the fixed fields and the bytes of the group name.  A
    shorter plaintext makes [parse] throw. *)
Theorem returned_part_has_whole_header
        (arrayBuffer : list byte) (t07blockSize : Z) (s0 : PartDataParser.state)
        (pd : PartDataParser.PartData) :
  fst (PartDataParser.parse arrayBuffer t07blockSize s0) = Ret pd ->
  26 + PartDataParser.part_group_name_size (PartDataParser.header pd)
  <= byteLength arrayBuffer.
Proof.
  rewrite PartFacts.part_parse_unfold.
  pose proof (PartFacts.parseHeader_spec (PartFacts.started arrayBuffer t07blockSize s0))
    as Hs.
  destruct (PartDataParser.parseHeader _) as [[h|e|] sh]; try discriminate.
  destruct Hs as (_ & _ & _ & _ & Hn & [Hz Hnz] & _).
  cbn [PartFacts.started PartDataParser.dataView PartDataParser.offset] in Hn, Hz, Hnz.
  cbv zeta. destruct (PartDataParser.walk _ _ _) as [[l|e|] s']; try discriminate.
  cbn [fst]. intros [= <-]. cbn [PartDataParser.header].
  destruct (Z.eq_dec (PartDataParser.part_group_name_size h) 0) as [E|E].
  - rewrite E. unfold getUint32 in Hn.
    destruct (in_bounds arrayBuffer (0 + 22) 4) eqn:Hin; [|discriminate].
    apply in_bounds_spec in Hin. lia.
  - destruct (Hnz E) as [Hfit _]. lia.
Qed.

(** A plaintext that holds a whole part header (the size of the part at
    byte 0, the size of the group name at byte 22, and the name) and in
    which the part, by its [part_size], or the plaintext itself ends at
    or before the end of that header, is returned as a part with that
    header and no sub-block: the walker reads no tag and the offset
    stays behind the header. *)
Theorem part_without_sub_blocks
        (arrayBuffer : list byte) (t07blockSize : Z) (s0 : PartDataParser.state)
        (psize nsize : Z) :
  getUint32 arrayBuffer 0 = Ret psize ->
  getUint32 arrayBuffer 22 = Ret nsize ->
  nsize = 0 \/ 26 + nsize <= byteLength arrayBuffer ->
  4 + psize <= 26 + nsize \/ byteLength arrayBuffer <= 26 + nsize ->
  exists h s',
    PartDataParser.parse arrayBuffer t07blockSize s0
    = (Ret (PartDataParser.mkPartData h []), s') /\
    PartDataParser.part_size h = psize /\
    PartDataParser.part_group_name_size h = nsize /\
    PartDataParser.offset s' = 26 + nsize /\
    PartDataParser.tag_reads s' = PartDataParser.tag_reads s0.
Proof.
  intros Hp Hn Hfit Hsmall. rewrite PartFacts.part_parse_unfold.
  pose proof (PartFacts.parseHeader_by_bytes
                (PartFacts.started arrayBuffer t07blockSize s0)) as Hb.
  cbn [PartFacts.started PartDataParser.dataView PartDataParser.offset] in Hb.
  rewrite !Z.add_0_l, Hp, Hn in Hb.
  replace ((nsize =? 0) || (26 + nsize <=? byteLength arrayBuffer)) with true in Hb
    by (symmetry; apply orb_true_iff; rewrite Z.eqb_eq, Z.leb_le; exact Hfit).
  destruct Hb as (h & sh & -> & (_ & _ & Hpb & Htr & _) & Hps & Hns & Hoff & _ & Hnn).
  cbn [PartFacts.started PartDataParser.pin_block_size PartDataParser.tag_reads]
    in Hpb, Htr.
  cbv zeta. rewrite Hps.
  set (view := ArrayBuffer_slice0 arrayBuffer (4 + psize)).
  assert (Hview : byteLength view = Z.min (4 + psize) (byteLength arrayBuffer)).
  { pose proof (getUint32_spec arrayBuffer 0) as H0. rewrite Hp in H0.
    destruct H0 as (_ & _ & H0).
    subst view. unfold ArrayBuffer_slice0, byteLength. rewrite length_take. lia. }
  cbn [PartDataParser.walk]. unfold_monad.
  cbn [PartDataParser.offset PartDataParser.pin_block_size PartDataParser.dataView
       PartDataParser.set_dataView].
  replace (PartDataParser.offset sh + PartDataParser.pin_block_size sh <? byteLength view)
    with false by (symmetry; apply Z.ltb_ge; lia).
  unfold ret. exists h, (PartDataParser.set_dataView view sh).
  cbn [PartDataParser.offset PartDataParser.tag_reads PartDataParser.set_dataView].
  auto.
Qed.

(** A part of size 0 in front of the bytes of a line sub-block. *)
Definition empty_part : list byte :=
  le32 0 ++ zeros 22 ++ bytes_of [5] ++ zeros 32.

Lemma part_without_sub_blocks_witness :
  exists h s',
    PartDataParser.parse empty_part 59 (PartDataParser.constructor None)
    = (Ret (PartDataParser.mkPartData h []), s') /\
    PartDataParser.part_size h = 0 /\
    PartDataParser.part_group_name_size h = 0 /\
    PartDataParser.offset s' = 26 + 0 /\
    PartDataParser.tag_reads s' = PartDataParser.tag_reads (PartDataParser.constructor None).
Proof.
  apply (part_without_sub_blocks empty_part 59 (PartDataParser.constructor None) 0 0);
    [vm_compute; reflexivity | vm_compute; reflexivity | left; reflexivity
     | left; vm_compute; discriminate].
Defined.

Lemma returned_part_has_whole_header_witness :
  26 + PartDataParser.part_group_name_size
         (PartDataParser.header
            (PartDataParser.mkPartData (PartDataParser.mkHeader 0 0 0 0 0 0 []) []))
  <= byteLength empty_part.
Proof.
  apply (returned_part_has_whole_header empty_part 59 (PartDataParser.constructor None)).
  vm_compute. reflexivity.
Defined.

(** The parser object of [part_plaintext] behind the tag of its pin array. *)
Definition at_pin_array : PartDataParser.state :=
  PartDataParser.mkState part_plaintext 29 184 0 None [28].

Lemma pin_array_extent_witness :
  getUint32 (PartDataParser.dataView at_pin_array) (PartDataParser.offset at_pin_array)
  = Ret 75 /\
  PartDataParser.offset (snd (PartDataParser.parseSubType09 at_pin_array))
  = PartDataParser.offset at_pin_array + 4
    + PinFacts.pins_extent
        [PartDataParser.mkPin 0 10 20 0 0 2 [65; 66] 6 5 1 9 false; through_hole_pin] /\
  PartDataParser.cur_block_size at_pin_array
  < PartDataParser.offset (snd (PartDataParser.parseSubType09 at_pin_array)) + 75 /\
  PartDataParser.isThruHole_part (snd (PartDataParser.parseSubType09 at_pin_array))
  = match last [PartDataParser.mkPin 0 10 20 0 0 2 [65; 66] 6 5 1 9 false;
                through_hole_pin] with
    | Some p => Some (PartDataParser.isThruHole_pin p)
    | None => PartDataParser.isThruHole_part at_pin_array
    end.
Proof.
  apply (pin_array_extent at_pin_array
           (snd (PartDataParser.parseSubType09 at_pin_array)) 75
           [PartDataParser.mkPin 0 10 20 0 0 2 [65; 66] 6 5 1 9 false; through_hole_pin]).
  vm_compute. reflexivity.
Defined.

(** ** DATA blocks whose plaintext is no part *)

(** A DATA block that fits: the entity it yields, and where its
    [parsed_data] comes from.  The part parser is handed the [.buffer] of
    the decrypted array: the plaintext, or the whole file when the
    decryption failed. *)
Lemma parseType07_parsed
      (des : list byte -> list byte -> option (list byte)) (s : state) (n : Z) :
  getUint32 (dataView s) (offset s) = Ret n ->
  offset s + 4 + n <= byteLength (dataView s) ->
  let raw := take (Z.to_nat n) (drop (Z.to_nat (offset s + 4)) (dataView s)) in
  let handed := match des keyBytes raw with
                | Some plain => plain
                | None => dataView s
                end in
  exists parsedData s',
    parseType07 des s =
    (Ret (Some (DATA (mkData n raw
                        match des keyBytes raw with
                        | Some plain => plain
                        | None => raw
                        end parsedData))), s') /\
    match parsedData with
    | Some pd =>
      fst (PartDataParser.parse handed n (PartDataParser.constructor (isThruHole_part s)))
      = Ret pd
    | None =>
      exists e,
      fst (PartDataParser.parse handed n (PartDataParser.constructor (isThruHole_part s)))
      = Throw e
    end.
Proof.
  intros Hn Hfit raw handed. unfold parseType07. unfold_monad. rewrite Hn.
  pose proof (getUint32_spec (dataView s) (offset s)) as Hr. rewrite Hn in Hr.
  destruct Hr as (H0 & _ & Hnn).
  unfold new_Uint8Array.
  replace ((0 <=? offset s + 4) && (0 <=? n)
           && (offset s + 4 + n <=? byteLength (dataView s))) with true
    by (symmetry; rewrite !andb_true_iff, !Z.leb_le; lia).
  set (enc := mkUint8Array (dataView s) (offset s + 4) n).
  set (s1 := set_offset (offset s + 4 + n) (set_offset (offset s + 4) s)).
  destruct (RawFacts.decrypt_or_keep des enc s1) as (dec & Hd & Hbuf & Hdec).
  match goal with
  | |- context [try_catch ?m ?h s1] =>
    change (try_catch m h s1)
      with (try_catch (lift (decryptWithDES des enc)) (fun _ => ret enc) s1)
  end.
  rewrite Hd. cbv beta iota.
  destruct (RawFacts.parse_or_null des (buffer dec) n s1) as (pdo & g & Hp & Hpd).
  match goal with
  | |- context [try_catch ?m ?h s1] =>
    change (try_catch m h s1)
      with (try_catch (p <- PartDataParser_parse (buffer dec) n;; ret (Some p))
                      (fun _ => ret None) s1)
  end.
  rewrite Hp. cbv beta iota. unfold ret.
  exists pdo, (set_isThruHole_part g s1). rewrite Hdec. split; [reflexivity|].
  assert (Hfst : fst (PartDataParser_parse (buffer dec) n s1)
                 = fst (PartDataParser.parse handed n
                          (PartDataParser.constructor (isThruHole_part s)))).
  { unfold PartDataParser_parse. rewrite Hbuf.
    change (Array_from enc) with raw. change (buffer enc) with (dataView s).
    change (isThruHole_part s1) with (isThruHole_part s). fold handed.
    destruct (PartDataParser.parse handed n _) as [r ps]. reflexivity. }
  rewrite Hfst in Hpd. destruct pdo as [pd|]; [tauto|exact Hpd].
Qed.

(** A DATA block whose plaintext has fewer than 26 bytes (it may be
    empty) is kept, with its ciphertext and its plaintext, and its
    [parsed_data] is [null]. *)
Theorem short_plaintext_is_not_parsed
        (des : list byte -> list byte -> option (list byte))
        (s : state) (n : Z) (plain : list byte) :
  getUint32 (dataView s) (offset s) = Ret n ->
  offset s + 4 + n <= byteLength (dataView s) ->
  des keyBytes (take (Z.to_nat n) (drop (Z.to_nat (offset s + 4)) (dataView s)))
  = Some plain ->
  byteLength plain < 26 ->
  exists s',
    parseType07 des s =
    (Ret (Some (DATA (mkData n (take (Z.to_nat n)
                                     (drop (Z.to_nat (offset s + 4)) (dataView s)))
                             plain None))), s').
Proof.
  intros Hn Hfit Hdes Hshort.
  destruct (parseType07_parsed des s n Hn Hfit) as (pdo & s' & Heq & Hpd).
  cbv zeta in *. rewrite Hdes in *. exists s'.
  destruct pdo as [pd|]; [|exact Heq].
  pose proof (part_header_too_short plain n
                (PartDataParser.constructor (isThruHole_part s)) Hshort) as Hthrow.
  congruence.
Qed.

Lemma short_plaintext_is_not_parsed_witness :
  exists s',
    parseType07 (CryptoJS_answering (bytes_of [1; 2; 3])) at_DATA_block =
    (Ret (Some (DATA (mkData 7 (take (Z.to_nat 7)
                                     (drop (Z.to_nat (offset at_DATA_block + 4))
                                           (dataView at_DATA_block)))
                             (bytes_of [1; 2; 3]) None))), s').
Proof.
  apply (short_plaintext_is_not_parsed (CryptoJS_answering (bytes_of [1; 2; 3]))
                                       at_DATA_block 7 (bytes_of [1; 2; 3])).
  - reflexivity.
  - vm_compute. discriminate.
  - reflexivity.
  - vm_compute. reflexivity.
Defined.

(** ** The size field of the fixed-size blocks *)

Lemma getUint32_agree (dv1 dv2 : list byte) (o : Z) :
  length dv2 = length dv1 ->
  (forall j, o <= j -> byte_at dv2 j = byte_at dv1 j) ->
  getUint32 dv2 o = getUint32 dv1 o.
Proof.
  intros Hl Hb. unfold getUint32, in_bounds, byteLength. rewrite Hl.
  destruct ((0 <=? o) && (o + 4 <=? Z.of_nat (length dv1))); [|reflexivity].
  rewrite !Hb by lia. reflexivity.
Qed.

Lemma getInt32_agree (dv1 dv2 : list byte) (o : Z) :
  length dv2 = length dv1 ->
  (forall j, o <= j -> byte_at dv2 j = byte_at dv1 j) ->
  getInt32 dv2 o = getInt32 dv1 o.
Proof. intros Hl Hb. unfold getInt32. rewrite (getUint32_agree dv1 dv2 o Hl Hb). reflexivity. Qed.

(** The size a block declares does not decide where it ends. *)
Lemma size_field_read (dv1 dv2 : list byte) (o : Z) :
  length dv2 = length dv1 ->
  (exists a1 a2, getUint32 dv1 o = Ret a1 /\ getUint32 dv2 o = Ret a2) \/
  (getUint32 dv1 o = Throw RangeError /\ getUint32 dv2 o = Throw RangeError).
Proof.
  intros Hl. unfold getUint32, in_bounds, byteLength. rewrite Hl.
  destruct ((0 <=? o) && (o + 4 <=? Z.of_nat (length dv1))); eauto.
Qed.

(** An ARC or a SEGMENT is decoded, and the offset moved, without a look
    at the [block_size] the block declares: on two buffers that differ
    only in bytes at or before that field, [parseType01] gives the same
    entity or error and leaves the same offset, and so does
    [parseType05]. *)
Theorem declared_size_of_fixed_blocks_is_ignored (s : state) (dv2 : list byte) :
  length dv2 = length (dataView s) ->
  (forall j, offset s + 4 <= j -> byte_at dv2 j = byte_at (dataView s) j) ->
  (fst (parseType01 (set_dataView dv2 s)) = fst (parseType01 s) /\
   offset (snd (parseType01 (set_dataView dv2 s))) = offset (snd (parseType01 s))) /\
  (fst (parseType05 (set_dataView dv2 s)) = fst (parseType05 s) /\
   offset (snd (parseType05 (set_dataView dv2 s))) = offset (snd (parseType05 s))).
Proof.
  intros Hl Hb.
  assert (Hu : forall k, 4 <= k ->
                 getUint32 dv2 (offset s + k) = getUint32 (dataView s) (offset s + k))
    by (intros k Hk; apply getUint32_agree; [exact Hl|intros j Hj; apply Hb; lia]).
  assert (Hi : forall k, 4 <= k ->
                 getInt32 dv2 (offset s + k) = getInt32 (dataView s) (offset s + k))
    by (intros k Hk; apply getInt32_agree; [exact Hl|intros j Hj; apply Hb; lia]).
  split.
  - unfold parseType01. unfold_monad. cbn [dataView offset set_dataView].
    rewrite !Hu, !Hi by lia.
    destruct (size_field_read (dataView s) dv2 (offset s) Hl)
      as [(a1 & a2 & -> & ->)|[-> ->]]; [|split; reflexivity].
    repeat match goal with
           | |- context [match ?r with Ret _ => _ | Throw _ => _ | OutOfFuel => _ end] =>
             lazymatch r with
             | getUint32 _ _ => destruct r
             | getInt32 _ _ => destruct r
             end
           end; split; reflexivity.
  - unfold parseType05. unfold_monad. cbn [dataView offset set_dataView].
    rewrite !Hu, !Hi by lia.
    destruct (size_field_read (dataView s) dv2 (offset s) Hl)
      as [(a1 & a2 & -> & ->)|[-> ->]]; [|split; reflexivity].
    repeat match goal with
           | |- context [match ?r with Ret _ => _ | Throw _ => _ | OutOfFuel => _ end] =>
             lazymatch r with
             | getUint32 _ _ => destruct r
             | getInt32 _ _ => destruct r
             end
           end; split; reflexivity.
Qed.

(** The parser object behind the tag of a SEGMENT, and the same file
    with a SEGMENT that declares 4000000000 bytes. *)
Definition at_SEGMENT_block : state :=
  mkState (Vectors.file_header 33 ++ Vectors.SEGMENT_block) 69 33 None.

Definition oversized_SEGMENT_file : list byte :=
  Vectors.file_header 33 ++ bytes_of [5] ++ le32 4000000000 ++
  drop 5 Vectors.SEGMENT_block.

Lemma declared_size_of_fixed_blocks_is_ignored_witness :
  (fst (parseType01 (set_dataView oversized_SEGMENT_file at_SEGMENT_block))
   = fst (parseType01 at_SEGMENT_block) /\
   offset (snd (parseType01 (set_dataView oversized_SEGMENT_file at_SEGMENT_block)))
   = offset (snd (parseType01 at_SEGMENT_block))) /\
  (fst (parseType05 (set_dataView oversized_SEGMENT_file at_SEGMENT_block))
   = fst (parseType05 at_SEGMENT_block) /\
   offset (snd (parseType05 (set_dataView oversized_SEGMENT_file at_SEGMENT_block)))
   = offset (snd (parseType05 at_SEGMENT_block))).
Proof.
  apply (declared_size_of_fixed_blocks_is_ignored at_SEGMENT_block oversized_SEGMENT_file).
  - reflexivity.
  - cbn [offset dataView at_SEGMENT_block]. intros j Hj. unfold byte_at.
    destruct (Z.to_nat j) as [|n] eqn:E; [lia|].
    do 72 (destruct n as [|n]; [lia|]).
    do 30 (destruct n as [|n]; [reflexivity|]).
    destruct n; reflexivity.
Defined.

(** * [hexToBytes]

    The constructor of [RawPCBParser] computes the DES key with
    [hexToBytes(MASTER_KEY)].  A JavaScript string is the list of its
    UTF-16 code units here. *)

Module Hex.

(** [string.substr(start, length)] for a [start] inside the string. *)
Definition substr (s : list Z) (start len : nat) : list Z := take len (drop start s).

(** The value of a digit of radix 16, of either case. *)
Definition hex_value (c : Z) : option Z :=
  if (48 <=? c) && (c <=? 57) then Some (c - 48)
  else if (65 <=? c) && (c <=? 70) then Some (c - 55)
  else if (97 <=? c) && (c <=? 102) then Some (c - 87)
  else None.

(** The white space and line terminators that [parseInt] skips. *)
Definition StrWhiteSpaceChar (c : Z) : bool :=
  (c =? 9) || (c =? 10) || (c =? 11) || (c =? 12) || (c =? 13) || (c =? 32) ||
  (c =? 160) || (c =? 5760) || ((8192 <=? c) && (c <=? 8202)) || (c =? 8232) ||
  (c =? 8233) || (c =? 8239) || (c =? 8287) || (c =? 12288) || (c =? 65279).

Fixpoint trim_start (s : list Z) : list Z :=
  match s with
  | c :: rest => if StrWhiteSpaceChar c then trim_start rest else s
  | [] => []
  end.

(** A leading [-] or [+]. *)
Definition strip_sign (s : list Z) : Z * list Z :=
  match s with
  | c :: rest => if c =? 45 then (-1, rest) else if c =? 43 then (1, rest) else (1, s)
  | [] => (1, s)
  end.

(** A leading [0x] or [0X], which radix 16 allows. *)
Definition strip_prefix (s : list Z) : list Z :=
  match s with
  | c :: x :: rest => if (c =? 48) && ((x =? 120) || (x =? 88)) then rest else s
  | _ => s
  end.

(** The value of the longest prefix of digits. *)
Fixpoint digits_value (acc : Z) (s : list Z) : Z :=
  match s with
  | c :: rest =>
    match hex_value c with
    | Some d => digits_value (16 * acc + d) rest
    | None => acc
    end
  | [] => acc
  end.

(** [parseInt(s, 16)]; [None] is [NaN].  The strings [hexToBytes] passes
    have at most two code units, so the value is exact. *)
Definition parseInt16 (s : list Z) : option Z :=
  let '(sign, s1) := strip_sign (trim_start s) in
  let s2 := strip_prefix s1 in
  match s2 with
  | c :: _ =>
    match hex_value c with
    | Some _ => Some (sign * digits_value 0 s2)
    | None => None
    end
  | [] => None
  end.

(** The conversion a store into a [Uint8Array] applies: [NaN] becomes 0,
    an integer is taken modulo 256. *)
Definition ToUint8 (v : option Z) : byte :=
  match v with
  | Some n => to_u8 n
  | None => x00
  end.

(** What the round at index [i] stores. *)
Definition cell (hexString : list Z) (i : nat) : byte :=
  ToUint8 (parseInt16 (substr hexString i 2)).

(** The [for (let i = 0; i < len; i += 2)] loop, [n] rounds left; [i] is
    even in every round, so that [i / 2] is an index.  A store behind the
    end of a typed array does nothing. *)
Fixpoint hex_loop (n : nat) (i : nat) (hexString : list Z) (bytes : list byte)
  : list byte :=
  match n with
  | O => bytes
  | S n' => hex_loop n' (i + 2) hexString (<[(i / 2)%nat := cell hexString i]> bytes)
  end.

(** [new Uint8Array(len / 2)] drops the fraction of its argument. *)
Definition hexToBytes (hexString : list Z) : list byte :=
  let len := length hexString in
  hex_loop ((len + 1) / 2) 0 hexString (repeat x00 (len / 2)).

(** ["DCFC12AC00000000"] *)
Definition MASTER_KEY : list Z :=
  [68; 67; 70; 67; 49; 50; 65; 67; 48; 48; 48; 48; 48; 48; 48; 48].

(** The header dump of [parseFileHeader] writes each byte as
    [toString(16).padStart(2, '0')]. *)
Definition digit_char (d : Z) : Z := if d <? 10 then 48 + d else 87 + d.

Definition toString16 (n : Z) : list Z :=
  if n <? 16 then [digit_char n] else [digit_char (n / 16); digit_char (n mod 16)].

Definition padStart (s : list Z) (targetLength : nat) (c : Z) : list Z :=
  repeat c (targetLength - length s) ++ s.

Definition hex2 (b : byte) : list Z := padStart (toString16 (u8 b)) 2 48.

End Hex.


Module HexFacts.
Import Hex.

Lemma hex_loop_length n : forall i s bytes, length (hex_loop n i s bytes) = length bytes.
Proof.
  induction n as [|n IH]; intros i s bytes; [reflexivity|].
  cbn [hex_loop]. rewrite IH. apply length_insert.
Qed.

(** The cells the loop has written, and the ones it has left. *)
Lemma hex_loop_lookup n :
  forall k s bytes j,
    hex_loop n (2 * k) s bytes !! j =
    if ((k <=? j) && (j <? k + n) && (j <? length bytes))%nat
    then Some (cell s (2 * j)) else bytes !! j.
Proof.
  induction n as [|n IH]; intros k s bytes j.
  - cbn [hex_loop]. destruct (k <=? j)%nat eqn:E1; [|reflexivity].
    destruct (j <? k + 0)%nat eqn:E2; [|reflexivity].
    apply Nat.leb_le in E1. apply Nat.ltb_lt in E2. lia.
  - cbn [hex_loop].
    replace (2 * k + 2)%nat with (2 * (k + 1))%nat by lia.
    replace (2 * k / 2)%nat with k by (rewrite Nat.mul_comm, Nat.div_mul; lia).
    rewrite IH, length_insert.
    destruct (Nat.eq_dec j k) as [->|Hne].
    + replace (k + 1 <=? k)%nat with false by (symmetry; apply Nat.leb_gt; lia).
      replace (k <=? k)%nat with true by (symmetry; apply Nat.leb_le; lia).
      replace (k <? k + S n)%nat with true by (symmetry; apply Nat.ltb_lt; lia).
      cbn [andb]. destruct (k <? length bytes)%nat eqn:E.
      * apply Nat.ltb_lt in E. apply list_lookup_insert_eq. exact E.
      * apply Nat.ltb_ge in E. rewrite list_insert_ge by lia. reflexivity.
    + rewrite list_lookup_insert_ne by lia.
      destruct (Nat.le_gt_cases (k + 1) j) as [Hle|Hgt].
      * replace (k + 1 <=? j)%nat with true by (symmetry; apply Nat.leb_le; lia).
        replace (k <=? j)%nat with true by (symmetry; apply Nat.leb_le; lia).
        replace (k + 1 + n)%nat with (k + S n)%nat by lia. reflexivity.
      * replace (k + 1 <=? j)%nat with false by (symmetry; apply Nat.leb_gt; lia).
        replace (k <=? j)%nat with false by (symmetry; apply Nat.leb_gt; lia).
        reflexivity.
Qed.


Lemma hexToBytes_length s : length (hexToBytes s) = (length s / 2)%nat.
Proof. unfold hexToBytes. rewrite hex_loop_length. apply repeat_length. Qed.

Lemma hexToBytes_lookup s j :
  (j < length s / 2)%nat -> hexToBytes s !! j = Some (cell s (2 * j)).
Proof.
  intros Hj. unfold hexToBytes.
  rewrite (hex_loop_lookup _ 0 s _ j). rewrite repeat_length.
  assert (Hle : (length s / 2 <= (length s + 1) / 2)%nat)
    by (apply Nat.Div0.div_le_mono; lia).
  replace (0 <=? j)%nat with true by (symmetry; apply Nat.leb_le; lia).
  replace (j <? 0 + (length s + 1) / 2)%nat with true by (symmetry; apply Nat.ltb_lt; lia).
  replace (j <? length s / 2)%nat with true by (symmetry; apply Nat.ltb_lt; lia).
  reflexivity.
Qed.

Lemma hex_value_range c d :
  hex_value c = Some d ->
  (48 <= c <= 57 \/ 65 <= c <= 70 \/ 97 <= c <= 102) /\ 0 <= d < 16.
Proof.
  unfold hex_value.
  destruct ((48 <=? c) && (c <=? 57)) eqn:E1;
    [apply andb_true_iff in E1; rewrite !Z.leb_le in E1; intros [= <-]; lia|].
  destruct ((65 <=? c) && (c <=? 70)) eqn:E2;
    [apply andb_true_iff in E2; rewrite !Z.leb_le in E2; intros [= <-]; lia|].
  destruct ((97 <=? c) && (c <=? 102)) eqn:E3;
    [apply andb_true_iff in E3; rewrite !Z.leb_le in E3; intros [= <-]; lia|].
  discriminate.
Qed.

Lemma hex_digit_is_no_space c :
  48 <= c <= 57 \/ 65 <= c <= 70 \/ 97 <= c <= 102 -> StrWhiteSpaceChar c = false.
Proof.
  intros H. unfold StrWhiteSpaceChar.
  repeat (apply orb_false_intro); try (apply Z.eqb_neq; lia).
  apply andb_false_iff. left. apply Z.leb_gt. lia.
Qed.

(** [parseInt] of two hex digits. *)
Lemma parseInt16_pair a b x y :
  hex_value a = Some x -> hex_value b = Some y ->
  parseInt16 [a; b] = Some (16 * x + y).
Proof.
  intros Ha Hb.
  destruct (hex_value_range _ _ Ha) as [Hra _].
  destruct (hex_value_range _ _ Hb) as [Hrb _].
  unfold parseInt16. cbn [trim_start]. rewrite (hex_digit_is_no_space a Hra).
  unfold strip_sign.
  replace (a =? 45) with false by (symmetry; apply Z.eqb_neq; lia).
  replace (a =? 43) with false by (symmetry; apply Z.eqb_neq; lia).
  unfold strip_prefix.
  replace ((b =? 120) || (b =? 88)) with false
    by (symmetry; apply orb_false_intro; apply Z.eqb_neq; lia).
  rewrite andb_false_r. rewrite Ha. cbn [digits_value]. rewrite Ha, Hb.
  f_equal. lia.
Qed.

Lemma substr_pair s j a b :
  s !! (2 * j)%nat = Some a -> s !! (2 * j + 1)%nat = Some b ->
  substr s (2 * j) 2 = [a; b].
Proof.
  intros Ha Hb. unfold substr. rewrite (drop_S _ _ _ Ha).
  replace (S (2 * j)) with (2 * j + 1)%nat by lia. rewrite (drop_S _ _ _ Hb).
  reflexivity.
Qed.

End HexFacts.

Import Hex.

Example keyBytes_is_hexToBytes_MASTER_KEY : hexToBytes MASTER_KEY = RawPCBParser.keyBytes.
Proof. vm_compute. reflexivity. Qed.

Lemma hexToBytes_at_pair (s : list Z) (j : nat) (a b x y : Z) :
  s !! (2 * j)%nat = Some a -> s !! (2 * j + 1)%nat = Some b ->
  hex_value a = Some x -> hex_value b = Some y ->
  hexToBytes s !! j = Some (to_u8 (16 * x + y)).
Proof.
  intros Ha Hb Hx Hy.
  assert (Hj : (j < length s / 2)%nat).
  { pose proof (lookup_lt_Some _ _ _ Hb) as Hlt.
    pose proof (Nat.div_le_lower_bound (length s) 2 (j + 1)). lia. }
  rewrite (HexFacts.hexToBytes_lookup s j Hj). unfold cell.
  rewrite (HexFacts.substr_pair s j a b Ha Hb).
  rewrite (HexFacts.parseInt16_pair a b x y Hx Hy). reflexivity.
Qed.

(** Two hex digits (of either case) at the indices [2 * j] and
    [2 * j + 1] of the string give byte [j] of the result, with the first
    digit as its high half. *)
Theorem hexToBytes_pair (s : list Z) (j : nat) (a b x y : Z) :
  s !! (2 * j)%nat = Some a -> s !! (2 * j + 1)%nat = Some b ->
  hex_value a = Some x -> hex_value b = Some y ->
  hexToBytes s !! j = Some (to_u8 (16 * x + y)).
Proof.
  intros Ha Hb Hx Hy.
  assert (Hj : (j < length s / 2)%nat).
  { pose proof (lookup_lt_Some _ _ _ Hb) as Hlt.
    pose proof (Nat.div_le_lower_bound (length s) 2 (j + 1)). lia. }
  rewrite (HexFacts.hexToBytes_lookup s j Hj). unfold cell.
  rewrite (HexFacts.substr_pair s j a b Ha Hb).
  rewrite (HexFacts.parseInt16_pair a b x y Hx Hy). reflexivity.
Qed.

Lemma hexToBytes_pair_witness :
  hexToBytes MASTER_KEY !! 1%nat = Some (to_u8 (16 * 15 + 12)).
Proof.
  apply (hexToBytes_pair MASTER_KEY 1 70 67 15 12); reflexivity.
Defined.

(** A character behind the last full pair is ignored: the result has one
    byte for every full pair and nothing for the odd character. *)
Theorem hexToBytes_ignores_odd_tail (s : list Z) (c : Z) :
  Nat.Even (length s) -> hexToBytes (s ++ [c]) = hexToBytes s.
Proof.
  intros [h Hh].
  assert (Hhalf : (length (s ++ [c]) / 2 = length s / 2)%nat).
  { rewrite length_app. cbn [length]. rewrite Hh.
    rewrite (Nat.mul_comm 2 h), Nat.div_add_l, Nat.div_mul by lia.
    cbn. lia. }
  apply list_eq. intros j.
  destruct (Nat.lt_ge_cases j (length s / 2)) as [Hj|Hj].
  - rewrite !HexFacts.hexToBytes_lookup by (rewrite ?Hhalf; exact Hj).
    f_equal. unfold cell, substr.
    assert (Hfit : (2 * j + 2 <= length s)%nat).
    { rewrite Hh in *. rewrite (Nat.mul_comm 2 h), Nat.div_mul in Hj by lia. lia. }
    rewrite drop_app_le by lia.
    rewrite take_app_le by (rewrite length_drop; lia). reflexivity.
  - rewrite !lookup_ge_None_2; [reflexivity| |];
      rewrite HexFacts.hexToBytes_length, ?Hhalf; exact Hj.
Qed.

Lemma hexToBytes_ignores_odd_tail_witness :
  hexToBytes ([68; 67] ++ [70]) = hexToBytes [68; 67].
Proof.
  apply hexToBytes_ignores_odd_tail. exists 1%nat. reflexivity.
Defined.

Lemma to_u8_of_u8 (b : byte) : to_u8 (u8 b) = b.
Proof. apply u8_inj. apply to_u8_u8. apply u8_range. Qed.

Lemma hex_value_digit_char d : 0 <= d < 16 -> hex_value (digit_char d) = Some d.
Proof.
  intros Hd. unfold digit_char, hex_value.
  destruct (d <? 10) eqn:E; [apply Z.ltb_lt in E|apply Z.ltb_ge in E].
  - replace ((48 <=? 48 + d) && (48 + d <=? 57)) with true
      by (symmetry; apply andb_true_iff; rewrite !Z.leb_le; lia).
    f_equal. lia.
  - replace ((48 <=? 87 + d) && (87 + d <=? 57)) with false
      by (symmetry; apply andb_false_iff; right; apply Z.leb_gt; lia).
    replace ((65 <=? 87 + d) && (87 + d <=? 70)) with false
      by (symmetry; apply andb_false_iff; right; apply Z.leb_gt; lia).
    replace ((97 <=? 87 + d) && (87 + d <=? 102)) with true
      by (symmetry; apply andb_true_iff; rewrite !Z.leb_le; lia).
    f_equal. lia.
Qed.

Lemma hex2_digits (b : byte) :
  hex2 b = [digit_char (u8 b / 16); digit_char (u8 b mod 16)].
Proof.
  unfold hex2, toString16, padStart. pose proof (u8_range b) as Hb.
  destruct (u8 b <? 16) eqn:E; [apply Z.ltb_lt in E|reflexivity].
  cbn [length Nat.sub repeat app].
  rewrite Z.div_small, Z.mod_small by lia. reflexivity.
Qed.

Lemma flat_map_hex2_lookup (bs : list byte) :
  forall j b, bs !! j = Some b ->
    flat_map hex2 bs !! (2 * j)%nat = Some (digit_char (u8 b / 16)) /\
    flat_map hex2 bs !! (2 * j + 1)%nat = Some (digit_char (u8 b mod 16)).
Proof.
  induction bs as [|b0 bs IH]; intros j b Hj; [discriminate|].
  cbn [flat_map]. rewrite hex2_digits. destruct j as [|j].
  - injection Hj as <-. split; reflexivity.
  - cbn [lookup list_lookup] in Hj. destruct (IH j b Hj) as [H1 H2].
    replace (2 * S j)%nat with (S (S (2 * j))) by lia.
    replace (S (S (2 * j)) + 1)%nat with (S (S (2 * j + 1))) by lia.
    split; assumption.
Qed.

Lemma flat_map_hex2_length (bs : list byte) :
  length (flat_map hex2 bs) = (2 * length bs)%nat.
Proof.
  induction bs as [|b bs IH]; [reflexivity|].
  cbn [flat_map]. rewrite length_app, IH, hex2_digits. cbn [length]. lia.
Qed.

(** [hexToBytes] inverts the formatting of the header dump of
    [parseFileHeader]: from the two-digit lower-case hex of each byte,
    written without separators, it gives the bytes back. *)
Theorem hexToBytes_of_hex2 (bs : list byte) : hexToBytes (flat_map hex2 bs) = bs.
Proof.
  apply list_eq. intros j.
  destruct (bs !! j) as [b|] eqn:Hb.
  - destruct (flat_map_hex2_lookup bs j b Hb) as [H1 H2].
    pose proof (u8_range b) as Hr.
    rewrite (hexToBytes_at_pair _ j _ _ (u8 b / 16) (u8 b mod 16) H1 H2).
    + f_equal. transitivity (to_u8 (u8 b)); [f_equal|apply to_u8_of_u8].
      symmetry. apply Z.div_mod. lia.
    + apply hex_value_digit_char. split; [apply Z.div_pos; lia|].
      apply Z.div_lt_upper_bound; lia.
    + apply hex_value_digit_char. apply Z.mod_pos_bound. lia.
  - apply lookup_ge_None in Hb. apply lookup_ge_None.
    rewrite HexFacts.hexToBytes_length, flat_map_hex2_length.
    rewrite Nat.mul_comm, Nat.div_mul by lia. exact Hb.
Qed.


(** * The conversions around [CryptoJS.DES.decrypt]

    [decryptWithDES] packs the ciphertext into a CryptoJS [WordArray]
    with [u8ToWordArray] and unpacks the plaintext with [wordArrayToU8]. *)

Module WordArrays.

(** JavaScript's 32-bit integer operators, on mathematical integers. *)
Definition ToInt32 (x : Z) : Z := (x + 2 ^ 31) mod 2 ^ 32 - 2 ^ 31.
Definition ToUint32 (x : Z) : Z := x mod 2 ^ 32.

(** [a << n], [a >>> n], [a | b], [a & b] *)
Definition shl (a n : Z) : Z := ToInt32 (Z.shiftl (ToInt32 a) (ToUint32 n mod 32)).
Definition ushr (a n : Z) : Z := Z.shiftr (ToUint32 a) (ToUint32 n mod 32).
Definition bor (a b : Z) : Z := ToInt32 (Z.lor (ToInt32 a) (ToInt32 b)).
Definition band (a b : Z) : Z := ToInt32 (Z.land (ToInt32 a) (ToInt32 b)).

(** A JavaScript array of numbers; [None] is a hole.  Reading a hole or
    behind the end gives [undefined], which the integer operators take
    for 0. *)
Abbreviation jsarray := (list (option Z)).

Definition array_get (a : jsarray) (k : Z) : Z :=
  match a !! Z.to_nat k with
  | Some (Some v) => v
  | _ => 0
  end.

(** [a[k] = v] for [0 <= k]: a store behind the end extends the array. *)
Definition array_set (a : jsarray) (k : Z) (v : Z) : jsarray :=
  if k <? Z.of_nat (length a) then <[Z.to_nat k := Some v]> a
  else a ++ repeat None (Z.to_nat k - length a) ++ [Some v].

(** A CryptoJS [WordArray]: big-endian 32-bit words and a byte count. *)
Record WordArray : Type := mkWordArray { words : jsarray; sigBytes : Z }.

(** The [for] loop of [u8ToWordArray], [n] rounds left. *)
Fixpoint words_loop (n : nat) (i : Z) (u8s : list byte) (words : jsarray) : jsarray :=
  match n with
  | O => words
  | S n' =>
    let k := ushr i 2 in
    words_loop n' (i + 1) u8s
               (array_set words k
                          (bor (array_get words k)
                               (shl (byte_at u8s i) (24 - (i mod 4) * 8))))
  end.

Definition u8ToWordArray (u8s : list byte) : WordArray :=
  let len := byteLength u8s in
  mkWordArray (words_loop (length u8s) 0 u8s []) len.

(** The [for] loop of [wordArrayToU8], [n] rounds left. *)
Fixpoint bytes_loop (n : nat) (i : Z) (words : jsarray) (u8s : list byte) : list byte :=
  match n with
  | O => u8s
  | S n' =>
    bytes_loop n' (i + 1) words
               (<[Z.to_nat i :=
                    to_u8 (band (ushr (array_get words (ushr i 2))
                                      (24 - (i mod 4) * 8)) 255)]> u8s)
  end.

(** [new Uint8Array(sigBytes)] throws for a negative length. *)
Definition wordArrayToU8 (wordArray : WordArray) : outcome (list byte) :=
  let words := words wordArray in
  let sigBytes := sigBytes wordArray in
  if sigBytes <? 0 then Throw RangeError
  else Ret (bytes_loop (Z.to_nat sigBytes) 0 words (repeat x00 (Z.to_nat sigBytes))).

End WordArrays.

Module WordFacts.
Import WordArrays.

(** Byte lane [s] (a shift of 0, 8, 16 or 24) of the low 32 bits of [x]. *)
Definition extract (x s : Z) : Z :=
  Z.land (Z.shiftr (Z.land x (Z.ones 32)) s) (Z.ones 8).

Ltac pow_consts :=
  change (2 ^ 32) with 4294967296 in *; change (2 ^ 31) with 2147483648 in *;
  change (2 ^ 8) with 256 in *; change (2 ^ 24) with 16777216 in *;
  change (2 ^ 16) with 65536 in *; change (2 ^ 2) with 4 in *;
  change (2 ^ 0) with 1 in *.

Ltac euclid := pow_consts; Z.div_mod_to_equations; lia.

Lemma ToUint32_land x : ToUint32 x = Z.land x (Z.ones 32).
Proof. unfold ToUint32. rewrite Z.land_ones by lia. reflexivity. Qed.

Lemma ToUint32_ToInt32 x : ToUint32 (ToInt32 x) = ToUint32 x.
Proof. unfold ToUint32, ToInt32. euclid. Qed.

Lemma land_ToInt32 x : Z.land (ToInt32 x) (Z.ones 32) = Z.land x (Z.ones 32).
Proof. rewrite <- !ToUint32_land. apply ToUint32_ToInt32. Qed.

Lemma ToInt32_small x : - 2 ^ 31 <= x < 2 ^ 31 -> ToInt32 x = x.
Proof. intros H. unfold ToInt32. euclid. Qed.

Lemma ToUint32_small x : 0 <= x < 2 ^ 32 -> ToUint32 x = x.
Proof. intros H. unfold ToUint32. apply Z.mod_small. exact H. Qed.

(** The shift [24 - (i % 4) * 8] of byte [i]. *)
Definition lane_shift (i : Z) : Z := 24 - (i mod 4) * 8.

Lemma lane_shift_cases i :
  lane_shift i = 24 \/ lane_shift i = 16 \/ lane_shift i = 8 \/ lane_shift i = 0.
Proof. unfold lane_shift. euclid. Qed.

Lemma shift_count s :
  s = 24 \/ s = 16 \/ s = 8 \/ s = 0 -> ToUint32 s mod 32 = s.
Proof. intros [-> | [-> | [-> | ->]]]; reflexivity. Qed.

Lemma ushr_index i : 0 <= i < 2 ^ 32 -> ushr i 2 = i / 4.
Proof.
  intros H. unfold ushr. rewrite (ToUint32_small i H).
  change (ToUint32 2 mod 32) with 2. rewrite Z.shiftr_div_pow2 by lia. reflexivity.
Qed.

(** [(w >>> s) & 0xff] is lane [s] of [w]. *)
Lemma band_ushr w s :
  s = 24 \/ s = 16 \/ s = 8 \/ s = 0 -> band (ushr w s) 255 = extract w s.
Proof.
  intros Hs. unfold band, ushr, extract. rewrite (shift_count s Hs).
  rewrite <- ToUint32_land.
  set (a := Z.shiftr (ToUint32 w) s).
  assert (Ha : 0 <= a < 2 ^ 32).
  { subst a. rewrite Z.shiftr_div_pow2 by lia. unfold ToUint32.
    assert (0 < 2 ^ s) by (apply Z.pow_pos_nonneg; lia).
    pose proof (Z.mod_pos_bound w (2 ^ 32) ltac:(lia)).
    split; [apply Z.div_pos; lia|].
    apply Z.div_lt_upper_bound; [lia|]. nia. }
  change (ToInt32 255) with (Z.ones 8). rewrite !Z.land_ones by lia.
  rewrite ToInt32_small.
  - unfold ToInt32. euclid.
  - pose proof (Z.mod_pos_bound (ToInt32 a) (2 ^ 8) ltac:(lia)). pow_consts. lia.
Qed.

Lemma extract_bor a c s :
  extract (bor a c) s = Z.lor (extract a s) (extract c s).
Proof.
  unfold extract, bor. rewrite land_ToInt32.
  rewrite Z.land_lor_distr_l, !land_ToInt32, Z.shiftr_lor, Z.land_lor_distr_l.
  reflexivity.
Qed.

Lemma extract_range x s : 0 <= extract x s < 256.
Proof.
  unfold extract. rewrite (Z.land_ones _ 8) by lia.
  apply (Z.mod_pos_bound _ (2 ^ 8)). lia.
Qed.

(** [b << s] holds [b] in lane [s] and 0 in the other lanes. *)
Lemma extract_shl b s s' :
  0 <= b < 256 ->
  s = 24 \/ s = 16 \/ s = 8 \/ s = 0 ->
  s' = 24 \/ s' = 16 \/ s' = 8 \/ s' = 0 ->
  extract (shl b s) s' = if s' =? s then b else 0.
Proof.
  intros Hb Hs Hs'. unfold extract, shl. rewrite land_ToInt32.
  rewrite (shift_count s Hs). rewrite (ToInt32_small b) by (pow_consts; lia).
  rewrite Z.shiftl_mul_pow2 by lia.
  rewrite !Z.land_ones, Z.shiftr_div_pow2 by lia.
  destruct Hs as [-> | [-> | [-> | ->]]], Hs' as [-> | [-> | [-> | ->]]];
    cbn [Z.eqb Pos.eqb]; euclid.
Qed.

Lemma extract_0 s : extract 0 s = 0.
Proof. unfold extract. rewrite Z.land_0_l, Z.shiftr_0_l. apply Z.land_0_l. Qed.

Lemma array_get_set (a : jsarray) (k v k' : Z) :
  0 <= k <= Z.of_nat (length a) -> 0 <= k' ->
  array_get (array_set a k v) k' = if k' =? k then v else array_get a k'.
Proof.
  intros Hk Hk'. unfold array_get, array_set.
  destruct (k <? Z.of_nat (length a)) eqn:E.
  - apply Z.ltb_lt in E. destruct (k' =? k) eqn:Ek.
    + apply Z.eqb_eq in Ek. subst k'. rewrite list_lookup_insert_eq by lia. reflexivity.
    + apply Z.eqb_neq in Ek. rewrite list_lookup_insert_ne by lia. reflexivity.
  - apply Z.ltb_ge in E. assert (k = Z.of_nat (length a)) as -> by lia.
    rewrite Nat2Z.id, Nat.sub_diag. cbn [repeat app].
    destruct (k' =? Z.of_nat (length a)) eqn:Ek.
    + apply Z.eqb_eq in Ek. subst k'. rewrite Nat2Z.id.
      rewrite lookup_app_r by lia. rewrite Nat.sub_diag. reflexivity.
    + apply Z.eqb_neq in Ek.
      destruct (Z_lt_ge_dec k' (Z.of_nat (length a))) as [Hlt|Hge].
      * rewrite lookup_app_l by lia. reflexivity.
      * rewrite !lookup_ge_None_2; [reflexivity|lia|rewrite length_app; cbn [length]; lia].
Qed.

Lemma array_set_length (a : jsarray) (k v : Z) :
  0 <= k <= Z.of_nat (length a) ->
  Z.of_nat (length (array_set a k v)) =
  if k <? Z.of_nat (length a) then Z.of_nat (length a) else Z.of_nat (length a) + 1.
Proof.
  intros Hk. unfold array_set. destruct (k <? Z.of_nat (length a)) eqn:E.
  - rewrite length_insert. reflexivity.
  - apply Z.ltb_ge in E. assert (k = Z.of_nat (length a)) as -> by lia.
    rewrite Nat2Z.id, Nat.sub_diag. cbn [repeat app]. rewrite length_app. cbn [length]. lia.
Qed.

(** The byte the words hold for index [j]. *)
Definition lane (words : jsarray) (j : Z) : Z :=
  extract (array_get words (j / 4)) (lane_shift j).

(** The words once the bytes below [i] are in. *)
Definition filled (u8s : list byte) (i : Z) (words : jsarray) : Prop :=
  Z.of_nat (length words) = (i + 3) / 4 /\
  forall j, 0 <= j -> lane words j = if j <? i then byte_at u8s j else 0.

Lemma words_loop_filled (u8s : list byte) (n : nat) :
  forall i words,
    0 <= i -> i + Z.of_nat n <= 2 ^ 32 ->
    filled u8s i words ->
    filled u8s (i + Z.of_nat n) (words_loop n i u8s words).
Proof.
  induction n as [|n IH]; intros i words H0 Hmax Hf.
  - cbn [words_loop]. replace (i + Z.of_nat 0) with i by lia. exact Hf.
  - cbn [words_loop]. replace (i + Z.of_nat (S n)) with (i + 1 + Z.of_nat n) by lia.
    apply IH; [lia|lia|]. clear IH.
    destruct Hf as [Hlen Hlane].
    rewrite ushr_index by lia. fold (lane_shift i).
    assert (Hk : 0 <= i / 4 <= Z.of_nat (length words)) by (rewrite Hlen; euclid).
    split.
    + rewrite array_set_length by exact Hk. rewrite Hlen.
      destruct (i / 4 <? (i + 3) / 4) eqn:E;
        [apply Z.ltb_lt in E|apply Z.ltb_ge in E]; euclid.
    + intros j Hj. unfold lane. rewrite array_get_set by (try exact Hk; euclid).
      destruct (j / 4 =? i / 4) eqn:E.
      * apply Z.eqb_eq in E. rewrite extract_bor.
        rewrite extract_shl by (try apply lane_shift_cases; apply byte_at_range).
        pose proof (Hlane j Hj) as Hold. unfold lane in Hold. rewrite E in Hold.
        rewrite Hold.
        destruct (Z.eq_dec j i) as [->|Hne].
        -- rewrite Z.eqb_refl, Z.ltb_irrefl.
           replace (i <? i + 1) with true by (symmetry; apply Z.ltb_lt; lia).
           apply Z.lor_0_l.
        -- replace (lane_shift j =? lane_shift i) with false
             by (symmetry; apply Z.eqb_neq; unfold lane_shift; euclid).
           rewrite Z.lor_0_r.
           replace (j <? i + 1) with (j <? i); [reflexivity|].
           destruct (j <? i) eqn:E1; symmetry;
             [apply Z.ltb_lt in E1; apply Z.ltb_lt|apply Z.ltb_ge in E1; apply Z.ltb_ge]; lia.
      * apply Z.eqb_neq in E. pose proof (Hlane j Hj) as Hold. unfold lane in Hold.
        rewrite Hold.
        assert (j <> i) by (intros ->; apply E; reflexivity).
        replace (j <? i + 1) with (j <? i); [reflexivity|].
        destruct (j <? i) eqn:E1; symmetry;
          [apply Z.ltb_lt in E1; apply Z.ltb_lt|apply Z.ltb_ge in E1; apply Z.ltb_ge]; lia.
Qed.

Lemma filled_start (u8s : list byte) : filled u8s 0 [].
Proof.
  split; [reflexivity|]. intros j Hj. unfold lane, array_get.
  rewrite lookup_nil. rewrite extract_0.
  replace (j <? 0) with false by (symmetry; apply Z.ltb_ge; lia). reflexivity.
Qed.

(** What a round of [wordArrayToU8] stores at index [i]. *)
Definition stored (words : jsarray) (i : Z) : byte :=
  to_u8 (band (ushr (array_get words (ushr i 2)) (24 - (i mod 4) * 8)) 255).

Lemma bytes_loop_length n : forall i words u8s,
  length (bytes_loop n i words u8s) = length u8s.
Proof.
  induction n as [|n IH]; intros i words u8s; [reflexivity|].
  cbn [bytes_loop]. rewrite IH. apply length_insert.
Qed.

Lemma bytes_loop_lookup n :
  forall (k : nat) words u8s (j : nat),
    bytes_loop n (Z.of_nat k) words u8s !! j =
    if ((k <=? j) && (j <? k + n) && (j <? length u8s))%nat
    then Some (stored words (Z.of_nat j)) else u8s !! j.
Proof.
  induction n as [|n IH]; intros k words u8s j.
  - cbn [bytes_loop]. destruct (k <=? j)%nat eqn:E1; [|reflexivity].
    destruct (j <? k + 0)%nat eqn:E2; [|reflexivity].
    apply Nat.leb_le in E1. apply Nat.ltb_lt in E2. lia.
  - cbn [bytes_loop]. fold (stored words (Z.of_nat k)).
    replace (Z.of_nat k + 1) with (Z.of_nat (k + 1)) by lia.
    rewrite IH, length_insert, Nat2Z.id.
    destruct (Nat.eq_dec j k) as [->|Hne].
    + replace (k + 1 <=? k)%nat with false by (symmetry; apply Nat.leb_gt; lia).
      replace (k <=? k)%nat with true by (symmetry; apply Nat.leb_le; lia).
      replace (k <? k + S n)%nat with true by (symmetry; apply Nat.ltb_lt; lia).
      cbn [andb]. destruct (k <? length u8s)%nat eqn:E.
      * apply Nat.ltb_lt in E. apply list_lookup_insert_eq. exact E.
      * apply Nat.ltb_ge in E. rewrite list_insert_ge by lia. reflexivity.
    + rewrite list_lookup_insert_ne by lia.
      destruct (Nat.le_gt_cases (k + 1) j) as [Hle|Hgt].
      * replace (k + 1 <=? j)%nat with true by (symmetry; apply Nat.leb_le; lia).
        replace (k <=? j)%nat with true by (symmetry; apply Nat.leb_le; lia).
        replace (k + 1 + n)%nat with (k + S n)%nat by lia. reflexivity.
      * replace (k + 1 <=? j)%nat with false by (symmetry; apply Nat.leb_gt; lia).
        replace (k <=? j)%nat with false by (symmetry; apply Nat.leb_gt; lia).
        reflexivity.
Qed.

End WordFacts.

Import WordArrays.

(** The two conversions around [CryptoJS.DES.decrypt] lose nothing:
    the bytes packed into big-endian words come back unchanged, for any
    array of fewer than 2^32 bytes. *)
Theorem wordArrayToU8_u8ToWordArray (u8s : list byte) :
  byteLength u8s < 2 ^ 32 ->
  wordArrayToU8 (u8ToWordArray u8s) = Ret u8s.
Proof.
  intros Hlen. unfold wordArrayToU8, u8ToWordArray. cbn [words sigBytes].
  unfold byteLength in *.
  replace (Z.of_nat (length u8s) <? 0) with false by (symmetry; apply Z.ltb_ge; lia).
  rewrite Nat2Z.id. f_equal.
  pose proof (WordFacts.words_loop_filled u8s (length u8s) 0 []
                ltac:(lia) ltac:(lia) (WordFacts.filled_start u8s)) as [_ Hlane].
  set (W := words_loop (length u8s) 0 u8s []) in *.
  apply list_eq. intros j.
  rewrite (WordFacts.bytes_loop_lookup (length u8s) 0 W _ j), repeat_length.
  cbn [Nat.leb Nat.add andb].
  destruct (j <? length u8s)%nat eqn:E.
  - apply Nat.ltb_lt in E. cbn [andb].
    rewrite (XorFacts.lookup_nth u8s j E). f_equal.
    unfold WordFacts.stored.
    rewrite WordFacts.ushr_index by lia.
    rewrite WordFacts.band_ushr by apply WordFacts.lane_shift_cases.
    specialize (Hlane (Z.of_nat j) ltac:(lia)). unfold WordFacts.lane, WordFacts.lane_shift in Hlane.
    rewrite Hlane.
    replace (Z.of_nat j <? 0 + Z.of_nat (length u8s)) with true
      by (symmetry; apply Z.ltb_lt; lia).
    unfold byte_at. rewrite Nat2Z.id. apply to_u8_of_u8.
  - apply Nat.ltb_ge in E. cbn [andb].
    rewrite !lookup_ge_None_2; [reflexivity|lia|rewrite repeat_length; lia].
Qed.

Lemma wordArrayToU8_u8ToWordArray_witness :
  wordArrayToU8 (u8ToWordArray (bytes_of [1; 2; 3; 4; 255; 6]))
  = Ret (bytes_of [1; 2; 3; 4; 255; 6]).
Proof.
  apply wordArrayToU8_u8ToWordArray. vm_compute. reflexivity.
Defined.

(** * The pin sub-type parsers of part_data_parser.js

    No method of the parser calls [parsePinSubType]; it is there for
    callers of the class. *)

Module PinSubTypes.
Import PartDataParser.

(** The objects the four parsers return; [int2] is present only when
    [int1 > 0]. *)
Inductive PinSub : Type :=
| pin_sub_type_00 (net_index diode_reading_size : Z) (diode_reading : jsstring)
| pin_sub_type_01 (int1 : Z) (int2 : option Z)
| pin_sub_type_02 (int1 : Z) (int2 : option Z)
| pin_sub_type_03 (int1 : Z) (int2 : option Z).

Definition parsePinSubType00 : M state PinSub :=
  s <- get;;
  let dv := dataView s in
  let offset := offset s in
  netIndex <- lift (getUint32 dv offset);;
  diodeReadingSize <- lift (getUint32 dv (offset + 4));;
  modify (set_offset (offset + 8));;
  diodeReading <- (if 0 <? diodeReadingSize
                   then readString diodeReadingSize else ret []);;
  ret (pin_sub_type_00 netIndex diodeReadingSize diodeReading).

(** The body of [parsePinSubType01], [02] and [03]: the three differ
    only in the type they name in the result. *)
Definition parse_ints : M state (Z * option Z) :=
  s <- get;;
  int1 <- lift (getUint32 (dataView s) (offset s));;
  modify (set_offset (offset s + 4));;
  if 0 <? int1 then
    int2 <- lift (getUint32 (dataView s) (offset s + 4));;
    modify (set_offset (offset s + 4 + 4));;
    ret (int1, Some int2)
  else ret (int1, None).

Definition parsePinSubType01 : M state PinSub :=
  r <- parse_ints;; ret (pin_sub_type_01 (fst r) (snd r)).
Definition parsePinSubType02 : M state PinSub :=
  r <- parse_ints;; ret (pin_sub_type_02 (fst r) (snd r)).
Definition parsePinSubType03 : M state PinSub :=
  r <- parse_ints;; ret (pin_sub_type_03 (fst r) (snd r)).

Definition pinSubTypeHandlers (pinType : Z) : option (M state PinSub) :=
  if pinType =? 0 then Some parsePinSubType00
  else if pinType =? 1 then Some parsePinSubType01
  else if pinType =? 2 then Some parsePinSubType02
  else if pinType =? 3 then Some parsePinSubType03
  else None.

(** [None] is [null]. *)
Definition parsePinSubType : M state (option PinSub) :=
  s <- get;;
  if byteLength (dataView s) <=? offset s then ret None
  else
    pinType <- lift (getUint8 (dataView s) (offset s));;
    modify (set_offset (offset s + 1));;
    match pinSubTypeHandlers pinType with
    | Some handler => r <- handler;; ret (Some r)
    | None => ret None
    end.

End PinSubTypes.

Module PinSubFacts.
Import PartDataParser.
Import PartFacts.
Import PinSubTypes.

Lemma getUint32_Ret_fits dv o v :
  getUint32 dv o = Ret v -> 0 <= o /\ o + 4 <= byteLength dv /\ 0 <= v.
Proof.
  intros H. pose proof (getUint32_spec dv o) as Hs. rewrite H in Hs. exact Hs.
Qed.

(** [parsePinSubType01], [02] and [03] by the bytes. *)
Lemma parse_ints_by_bytes s :
  match getUint32 (dataView s) (offset s) with
  | Ret int1 =>
    if int1 =? 0 then parse_ints s = (Ret (int1, None), set_offset (offset s + 4) s)
    else match getUint32 (dataView s) (offset s + 4) with
         | Ret int2 =>
           parse_ints s = (Ret (int1, Some int2), set_offset (offset s + 8) s)
         | _ => fst (parse_ints s) = Throw RangeError
         end
  | _ => fst (parse_ints s) = Throw RangeError
  end.
Proof.
  unfold parse_ints. unfold_monad.
  pose proof (getUint32_spec (dataView s) (offset s)) as H1.
  destruct (getUint32 (dataView s) (offset s)) as [int1|e|];
    [|cbn in H1; subst; reflexivity|elim H1].
  cbn [read_ok] in H1. destruct H1 as (_ & _ & H1).
  destruct (int1 =? 0) eqn:E.
  - apply Z.eqb_eq in E. subst int1. reflexivity.
  - apply Z.eqb_neq in E.
    replace (0 <? int1) with true by (symmetry; apply Z.ltb_lt; lia).
    pose proof (getUint32_spec (dataView s) (offset s + 4)) as H2.
    destruct (getUint32 (dataView s) (offset s + 4)) as [int2|e|];
      [|cbn in H2; subst; reflexivity|elim H2].
    unfold ret. f_equal. unfold set_offset. cbn [dataView offset cur_block_size
      pin_block_size isThruHole_part tag_reads]. f_equal. lia.
Qed.

(** [parsePinSubType00] by the bytes. *)
Lemma parsePinSubType00_by_bytes s :
  match getUint32 (dataView s) (offset s), getUint32 (dataView s) (offset s + 4) with
  | Ret netIndex, Ret size =>
    if size =? 0 then
      parsePinSubType00 s = (Ret (pin_sub_type_00 netIndex 0 []), set_offset (offset s + 8) s)
    else if offset s + 8 + size <=? byteLength (dataView s) then
      parsePinSubType00 s
      = (Ret (pin_sub_type_00 netIndex size
                (TextDecoder_decode
                   (take (Z.to_nat size) (drop (Z.to_nat (offset s + 8)) (dataView s))))),
         set_offset (offset s + 8 + size) s)
    else fst (parsePinSubType00 s) = Throw RangeError
  | _, _ => fst (parsePinSubType00 s) = Throw RangeError
  end.
Proof.
  unfold parsePinSubType00. unfold_monad.
  pose proof (getUint32_spec (dataView s) (offset s)) as H1.
  destruct (getUint32 (dataView s) (offset s)) as [net|e|];
    [|cbn in H1; subst; reflexivity|elim H1].
  cbn [read_ok] in H1. destruct H1 as (H0 & _ & _).
  pose proof (getUint32_spec (dataView s) (offset s + 4)) as H2.
  destruct (getUint32 (dataView s) (offset s + 4)) as [size|e|];
    [|cbn in H2; subst; reflexivity|elim H2].
  cbn [read_ok] in H2. destruct H2 as (_ & _ & Hs).
  destruct (size =? 0) eqn:E.
  - apply Z.eqb_eq in E. subst size. reflexivity.
  - apply Z.eqb_neq in E.
    replace (0 <? size) with true by (symmetry; apply Z.ltb_lt; lia).
    unfold readString. rewrite (proj2 (Z.eqb_neq size 0) E). unfold_monad.
    unfold new_Uint8Array. cbn [dataView offset set_offset].
    replace (0 <=? offset s + 8) with true by (symmetry; apply Z.leb_le; lia).
    replace (0 <=? size) with true by (symmetry; apply Z.leb_le; lia).
    cbn [andb].
    destruct (offset s + 8 + size <=? byteLength (dataView s)); reflexivity.
Qed.

End PinSubFacts.

Import PinSubTypes.

(** [parsePinSubType] by the bytes, on a parser that [init] has set on
    [buf] and whose offset is [o].  At or beyond the end of the buffer it
    returns [null] and consumes nothing.  Behind a type byte above 3 it
    returns [null] and has consumed that byte.  For the type 0 it returns
    a [pin_sub_type_00] with the two words behind the type byte and the
    decoded diode reading, and has consumed 9 bytes and the reading; for
    the types 1, 2 and 3 it returns the object of that type with the word
    behind the type byte as [int1], and with the next word as [int2]
    exactly when [int1] is not 0, and has consumed 5 or 9 bytes.  What it
    consumes lies in the buffer; when a field does not, it throws a
    RangeError. *)
Theorem parsePinSubType_extent (buf : list byte) (o : Z) (s0 : PartDataParser.state) :
  let s := PartDataParser.set_offset o (snd (PartDataParser.init buf s0)) in
  let returns r n :=
      parsePinSubType s = (Ret r, PartDataParser.set_offset (o + n) s) /\
      o + n <= byteLength buf in
  let throws := fst (parsePinSubType s) = Throw RangeError in
  if byteLength buf <=? o then parsePinSubType s = (Ret None, s)
  else if o <? 0 then throws
  else
    let pinType := byte_at buf o in
    if 3 <? pinType then returns None 1
    else if pinType =? 0 then
      match getUint32 buf (o + 1), getUint32 buf (o + 5) with
      | Ret netIndex, Ret size =>
        if size =? 0 then returns (Some (pin_sub_type_00 netIndex 0 [])) 9
        else if o + 9 + size <=? byteLength buf then
          returns (Some (pin_sub_type_00 netIndex size
                           (TextDecoder_decode
                              (take (Z.to_nat size) (drop (Z.to_nat (o + 9)) buf)))))
                  (9 + size)
        else throws
      | _, _ => throws
      end
    else
      match getUint32 buf (o + 1) with
      | Ret int1 =>
        let object int2 :=
            if pinType =? 1 then pin_sub_type_01 int1 int2
            else if pinType =? 2 then pin_sub_type_02 int1 int2
            else pin_sub_type_03 int1 int2 in
        if int1 =? 0 then returns (Some (object None)) 5
        else match getUint32 buf (o + 5) with
             | Ret int2 => returns (Some (object (Some int2))) 9
             | _ => throws
             end
      | _ => throws
      end.
Proof.
  cbv zeta.
  change (PartDataParser.set_offset o (snd (PartDataParser.init buf s0)))
    with (PartDataParser.mkState buf o 0 0 (PartDataParser.isThruHole_part s0)
                                 (PartDataParser.tag_reads s0)).
  set (s := PartDataParser.mkState buf o 0 0 _ _).
  unfold parsePinSubType. unfold_monad.
  change (PartDataParser.dataView s) with buf.
  change (PartDataParser.offset s) with o.
  destruct (byteLength buf <=? o) eqn:Hend; [reflexivity|].
  apply Z.leb_gt in Hend.
  destruct (o <? 0) eqn:Hneg.
  { apply Z.ltb_lt in Hneg. unfold getUint8.
    replace (in_bounds buf o 1) with false; [reflexivity|].
    symmetry. apply not_true_iff_false. rewrite in_bounds_spec. lia. }
  apply Z.ltb_ge in Hneg.
  rewrite PartFacts.getUint8_fits by lia. cbv beta iota.
  set (s1 := PartDataParser.set_offset (o + 1) s).
  pose proof (byte_at_range buf o) as Hb.
  unfold pinSubTypeHandlers.
  destruct (3 <? byte_at buf o) eqn:H3.
  { apply Z.ltb_lt in H3.
    repeat match goal with
           | |- context [byte_at buf o =? ?k] =>
             replace (byte_at buf o =? k) with false by (symmetry; apply Z.eqb_neq; lia)
           end.
    unfold ret. split; [reflexivity|lia]. }
  apply Z.ltb_ge in H3.
  destruct (byte_at buf o =? 0) eqn:E0.
  { pose proof (PinSubFacts.parsePinSubType00_by_bytes s1) as H00.
    change (PartDataParser.dataView s1) with buf in H00.
    change (PartDataParser.offset s1) with (o + 1) in H00.
    replace (o + 1 + 4) with (o + 5) in H00 by lia.
    replace (o + 1 + 8) with (o + 9) in H00 by lia.
    unfold bind.
    pose proof (PinSubFacts.getUint32_Ret_fits buf (o + 5)) as Hfit.
    destruct (getUint32 buf (o + 1)) as [net|e|];
      [|destruct (parsePinSubType00 s1) as [[r|e'|] s2]; cbn [fst] in *;
        congruence..].
    destruct (getUint32 buf (o + 5)) as [size|e|];
      [|destruct (parsePinSubType00 s1) as [[r|e'|] s2]; cbn [fst] in *;
        congruence..].
    specialize (Hfit size eq_refl).
    destruct (size =? 0).
    { rewrite H00. unfold ret. split; [reflexivity|lia]. }
    destruct (o + 9 + size <=? byteLength buf) eqn:Hf.
    { apply Z.leb_le in Hf. rewrite H00. unfold ret. split; [|lia]. f_equal.
      subst s1 s. unfold PartDataParser.set_offset. cbn. f_equal. lia. }
    destruct (parsePinSubType00 s1) as [[r|e'|] s2]; cbn [fst] in *; congruence. }
  apply Z.eqb_neq in E0.
  pose proof (PinSubFacts.parse_ints_by_bytes s1) as Hints.
  change (PartDataParser.dataView s1) with buf in Hints.
  change (PartDataParser.offset s1) with (o + 1) in Hints.
  replace (o + 1 + 4) with (o + 5) in Hints by lia.
  replace (o + 1 + 8) with (o + 9) in Hints by lia.
  assert (Hwrap : forall (mk : Z -> option Z -> PinSub),
             (r <- (r <- parse_ints;; ret (mk (fst r) (snd r)));; ret (Some r)) s1
             = match parse_ints s1 with
               | (Ret p, s2) => (Ret (Some (mk (fst p) (snd p))), s2)
               | (Throw e, s2) => (Throw e, s2)
               | (OutOfFuel, s2) => (OutOfFuel, s2)
               end).
  { intros mk. unfold bind, ret. destruct (parse_ints s1) as [[p|e|] s2]; reflexivity. }
  assert (Hgoal : forall (mk : Z -> option Z -> PinSub),
            match getUint32 buf (o + 1) with
            | Ret int1 =>
              if int1 =? 0 then
                (r <- (r <- parse_ints;; ret (mk (fst r) (snd r)));; ret (Some r)) s1
                = (Ret (Some (mk int1 None)), PartDataParser.set_offset (o + 5) s) /\
                o + 5 <= byteLength buf
              else match getUint32 buf (o + 5) with
                   | Ret int2 =>
                     (r <- (r <- parse_ints;; ret (mk (fst r) (snd r)));; ret (Some r)) s1
                     = (Ret (Some (mk int1 (Some int2))), PartDataParser.set_offset (o + 9) s) /\
                     o + 9 <= byteLength buf
                   | _ => fst ((r <- (r <- parse_ints;; ret (mk (fst r) (snd r)));;
                                ret (Some r)) s1) = Throw RangeError
                   end
            | _ => fst ((r <- (r <- parse_ints;; ret (mk (fst r) (snd r)));;
                         ret (Some r)) s1) = Throw RangeError
            end).
  { intros mk. rewrite Hwrap.
    pose proof (PinSubFacts.getUint32_Ret_fits buf (o + 1)) as Hf1.
    pose proof (PinSubFacts.getUint32_Ret_fits buf (o + 5)) as Hf5.
    destruct (getUint32 buf (o + 1)) as [int1|e|];
      [|destruct (parse_ints s1) as [[r|e'|] s2]; cbn [fst] in *; congruence..].
    specialize (Hf1 int1 eq_refl).
    destruct (int1 =? 0).
    { rewrite Hints. split; [|lia]. reflexivity. }
    destruct (getUint32 buf (o + 5)) as [int2|e|];
      [|destruct (parse_ints s1) as [[r|e'|] s2]; cbn [fst] in *; congruence..].
    specialize (Hf5 int2 eq_refl).
    rewrite Hints. split; [|lia]. reflexivity. }
  destruct (byte_at buf o =? 1) eqn:E1; [exact (Hgoal pin_sub_type_01)|].
  destruct (byte_at buf o =? 2) eqn:E2; [exact (Hgoal pin_sub_type_02)|].
  destruct (byte_at buf o =? 3) eqn:E3; [exact (Hgoal pin_sub_type_03)|].
  apply Z.eqb_neq in E1, E2, E3. lia.
Qed.

(** A type byte 2 at offset 1, then the words 5 and 7. *)
Example parsePinSubType_of_type_2 :
  fst (parsePinSubType
         (PartDataParser.set_offset 1
            (snd (PartDataParser.init (bytes_of [9; 2] ++ le32 5 ++ le32 7)
                                      (PartDataParser.constructor None)))))
  = Ret (Some (pin_sub_type_02 5 (Some 7))).
Proof. vm_compute. reflexivity. Qed.

(** * render_layers.js: [optimizePaths]

    [optimizePaths] joins the segments and arcs of each layer into chains
    that [renderSegments] draws as one SVG path each.  It is modelled on
    the Boards that [RawPCBParser.parse] returns, whose entities have a
    [scale] and no [width], so that [data.width ?? data.scale] is the
    [scale]. *)

Module Paths.
Import RawPCBParser.

(** An end point.  The source compares end points as the strings
    [x + ',' + y] of two integers, which are equal exactly when the
    integers are. *)
Definition point : Type := Z * Z.

Definition point_eqb (a b : point) : bool := (a.1 =? b.1) && (a.2 =? b.2).

(** [type] and [data] of an element. *)
Inductive shape : Type :=
| segment (g : Segment)
| arc (a : Arc).

(** An entry of [elementsByLayer]. *)
Record element : Type := mkElement {
  id : nat;
  data : shape;
  p1 : point;
  p2 : point
}.

Definition layer_of (d : shape) : Z :=
  match d with
  | segment g => seg_layer g
  | arc a => arc_layer a
  end.

(** [data.width ?? data.scale] *)
Definition width_of (d : shape) : Z :=
  match d with
  | segment g => seg_scale g
  | arc a => arc_scale a
  end.

(** An entry of an adjacency list. *)
Record conn : Type := mkConn { neighbor : point; conn_id : nat; conn_forward : bool }.

(** A link of a chain, and a link of a returned path: the link merged
    with the element that [elements.find] gives for its id. *)
Record link : Type := mkLink { link_id : nat; forward : bool }.
Record path_link : Type := mkPathLink { the_link : link; found : option element }.

Section Maps.
Context {K V : Type} (eqb : K -> K -> bool).

(** A [Map] whose values are arrays, in insertion order. *)
Definition get (m : list (K * list V)) (k : K) : list V :=
  match find (fun kv => eqb kv.1 k) m with
  | Some kv => kv.2
  | None => []
  end.

Definition has (m : list (K * list V)) (k : K) : bool :=
  match find (fun kv => eqb kv.1 k) m with
  | Some _ => true
  | None => false
  end.

(** [if (!m.has(k)) m.set(k, [])] *)
Definition ensure (m : list (K * list V)) (k : K) : list (K * list V) :=
  if has m k then m else m ++ [(k, [])].

(** [m.get(k).push(v)] *)
Fixpoint push (m : list (K * list V)) (k : K) (v : V) : list (K * list V) :=
  match m with
  | [] => []
  | (k', vs) :: rest =>
    if eqb k' k then (k', vs ++ [v]) :: rest else (k', vs) :: push rest k v
  end.

End Maps.

Section WithArcEndpoints.

(** [computeArcEndpoints] rounds floating-point sines and cosines; what
    it returns for an arc is a parameter here. *)
Variable computeArcEndpoints : Arc -> point * point.

(** The [forEach] that groups the elements by layer, from item [index]. *)
Fixpoint group (items : list Block) (index : nat)
         (elementsByLayer : list (Z * list element)) : list (Z * list element) :=
  match items with
  | [] => elementsByLayer
  | item :: rest =>
    let add (d : shape) (ends : point * point) :=
        push Z.eqb (ensure Z.eqb elementsByLayer (layer_of d)) (layer_of d)
             (mkElement index d ends.1 ends.2) in
    match item with
    | SEGMENT g =>
      group rest (S index)
            (add (segment g) ((seg_x1 g, seg_y1 g), (seg_x2 g, seg_y2 g)))
    | ARC a => group rest (S index) (add (arc a) (computeArcEndpoints a))
    | _ => group rest (S index) elementsByLayer
    end
  end.

(** The adjacency map of a layer. *)
Definition add_element (adj : list (point * list conn)) (elem : element)
  : list (point * list conn) :=
  let adj := ensure point_eqb adj (p1 elem) in
  let adj := ensure point_eqb adj (p2 elem) in
  let adj := push point_eqb adj (p1 elem) (mkConn (p2 elem) (id elem) true) in
  push point_eqb adj (p2 elem) (mkConn (p1 elem) (id elem) false).

Definition adjacency (elements : list element) : list (point * list conn) :=
  fold_left add_element elements [].

(** [elementsById.get(i)]: of two entries with one key a [Map] keeps the
    later. *)
Definition elementsById_get (elements : list element) (i : nat) : option element :=
  find (fun e => Nat.eqb (id e) i) (rev elements).

Definition used_has (used : list nat) (i : nat) : bool := existsb (Nat.eqb i) used.

(** The test of the [find] in the [while] loop. *)
Definition usable (elements : list element) (used : list nat) (current_width : Z)
           (c : conn) : bool :=
  negb (used_has used (conn_id c)) &&
  match elementsById_get elements (conn_id c) with
  | Some element => width_of (data element) =? current_width
  | None => false
  end.

(** The [while (true)] loop that extends a chain from [current]. *)
Fixpoint extend (fuel : nat) (adj : list (point * list conn)) (elements : list element)
         (current_width : Z) (direction1 : bool) (current : point)
         (used : list nat) (extensions : list link)
  : option (list nat * list link) :=
  match fuel with
  | O => None
  | S fuel' =>
    match find (usable elements used current_width) (get point_eqb adj current) with
    | None => Some (used, extensions)
    | Some next =>
      extend fuel' adj elements current_width direction1 (neighbor next)
             (conn_id next :: used)
             (extensions ++
                [mkLink (conn_id next)
                        (if direction1 then conn_forward next
                         else negb (conn_forward next))])
    end
  end.

(** One round of [elements.forEach(startElem => ...)]. *)
Definition start_chain (adj : list (point * list conn)) (elements : list element)
           (state : list nat * list (list path_link)) (startElem : element)
  : option (list nat * list (list path_link)) :=
  let '(used, paths) := state in
  if used_has used (id startElem) then Some (used, paths)
  else
    let current_width := width_of (data startElem) in
    let chain := [mkLink (id startElem) true] in
    let used := id startElem :: used in
    let fuel := S (length elements) in
    match extend fuel adj elements current_width true (p2 startElem) used [] with
    | None => None
    | Some (used, extensions) =>
      let chain := chain ++ extensions in
      match extend fuel adj elements current_width false (p1 startElem) used [] with
      | None => None
      | Some (used, extensions) =>
        let chain := rev extensions ++ chain in
        Some (used,
              paths ++ [map (fun l => mkPathLink l
                                        (find (fun e => Nat.eqb (id e) (link_id l))
                                              elements))
                            chain])
      end
    end.

Fixpoint chains (adj : list (point * list conn)) (elements rest : list element)
         (state : list nat * list (list path_link))
  : option (list (list path_link)) :=
  match rest with
  | [] => Some state.2
  | startElem :: rest' =>
    match start_chain adj elements state startElem with
    | None => None
    | Some state' => chains adj elements rest' state'
    end
  end.

Definition layer_paths (elements : list element) : option (list (list path_link)) :=
  chains (adjacency elements) elements elements ([], []).

Fixpoint all_layers (groups : list (Z * list element))
  : option (list (Z * list (list path_link))) :=
  match groups with
  | [] => Some []
  | (layer, elements) :: rest =>
    match layer_paths elements, all_layers rest with
    | Some paths, Some others => Some ((layer, paths) :: others)
    | _, _ => None
    end
  end.

(** [pathsByLayer] is an object with one property for each layer, given
    as the list of its properties in the order in which they are
    assigned (an enumeration of the object lists them by ascending
    layer; what is shown below does not depend on the order).
    [None] stands for a [while] loop that has not ended. *)
Definition optimizePaths (data : Board) : option (list (Z * list (list path_link))) :=
  all_layers (group (main_data_block data) 0 []).

End WithArcEndpoints.

End Paths.


Module PathFacts.
Import RawPCBParser Paths.

Lemma point_eqb_eq (a b : point) : point_eqb a b = true <-> a = b.
Proof.
  unfold point_eqb. destruct a as [ax ay], b as [bx b_y]. cbn [fst snd].
  rewrite andb_true_iff, !Z.eqb_eq. split; [intros [-> ->]; reflexivity|].
  intros [= -> ->]. split; reflexivity.
Qed.

Section MapFacts.
Context {K V : Type} (eqb : K -> K -> bool).
Hypothesis eqb_eq : forall a b, eqb a b = true <-> a = b.

Lemma eqb_refl' k : eqb k k = true.
Proof. apply eqb_eq. reflexivity. Qed.

(** What [ensure] followed by [push] does to a map: the value of the
    first entry for the key gains [v], or a new last entry holds it. *)
Lemma push_ensure (m : list (K * list V)) (k : K) (v : V) :
  (exists pre vs post,
      m = pre ++ (k, vs) :: post /\ Forall (fun kv => kv.1 <> k) pre /\
      push eqb (ensure eqb m k) k v = pre ++ (k, vs ++ [v]) :: post) \/
  (Forall (fun kv => kv.1 <> k) m /\
   push eqb (ensure eqb m k) k v = m ++ [(k, [v])]).
Proof.
  unfold ensure, has. induction m as [|[k' vs] m IH].
  - right. split; [constructor|]. cbn. rewrite eqb_refl'. reflexivity.
  - cbn [find fst]. destruct (eqb k' k) eqn:E.
    + apply eqb_eq in E. subst k'. left. exists [], vs, m.
      split; [reflexivity|]. split; [constructor|].
      cbn [push]. rewrite eqb_refl'. reflexivity.
    + assert (Hne : k' <> k) by (intros ->; rewrite eqb_refl' in E; discriminate).
      destruct IH as [(pre & vs0 & post & -> & Hpre & Heq)|[Hall Heq]].
      * left. exists ((k', vs) :: pre), vs0, post. split; [reflexivity|].
        split; [constructor; assumption|].
        destruct (find (fun kv => eqb kv.1 k) (pre ++ (k, vs0) :: post)) eqn:Ef.
        -- cbn [push app]. rewrite E. f_equal. exact Heq.
        -- cbn [push app]. rewrite E. f_equal. exact Heq.
      * right. split; [constructor; assumption|].
        destruct (find (fun kv => eqb kv.1 k) m) eqn:Ef.
        -- cbn [push app]. rewrite E. f_equal. exact Heq.
        -- cbn [push app]. rewrite E. f_equal. exact Heq.
Qed.

Lemma get_ensure (m : list (K * list V)) (k k' : K) :
  get eqb (ensure eqb m k) k' = get eqb m k'.
Proof.
  unfold ensure, has, get. destruct (find (fun kv => eqb kv.1 k) m) eqn:E; [reflexivity|].
  induction m as [|[k0 vs] m IH].
  - cbn. destruct (eqb k k'); reflexivity.
  - cbn [find app fst] in *. destruct (eqb k0 k) eqn:E0; [discriminate|].
    destruct (eqb k0 k'); [reflexivity|]. apply IH. exact E.
Qed.

(** What [push] adds to the array of a key. *)
Lemma in_get_push (m : list (K * list V)) (k k' : K) (v c : V) :
  In c (get eqb (push eqb m k v) k') -> In c (get eqb m k') \/ (c = v /\ k = k').
Proof.
  unfold get. induction m as [|[k0 vs] m IH]; [intros []|].
  cbn [push]. destruct (eqb k0 k) eqn:E.
  - apply eqb_eq in E. subst k0. cbn [find fst].
    destruct (eqb k k') eqn:E'; [|tauto].
    apply eqb_eq in E'. subst k'. cbn [snd]. rewrite in_app_iff. cbn [In].
    intros [H|[H|[]]]; [left; exact H|right; split; [symmetry; exact H|reflexivity]].
  - cbn [find fst]. destruct (eqb k0 k'); [tauto|]. exact IH.
Qed.

End MapFacts.


Definition start_pt (e : element) (fwd : bool) : point := if fwd then p1 e else p2 e.
Definition end_pt (e : element) (fwd : bool) : point := if fwd then p2 e else p1 e.

(** An adjacency entry of [pt] that some element accounts for. *)
Definition from_element (elements : list element) (pt : point) (c : conn) : Prop :=
  exists e, In e elements /\ conn_id c = id e /\
            start_pt e (conn_forward c) = pt /\ end_pt e (conn_forward c) = neighbor c.

Lemma add_element_sound (done : list element) adj elem :
  (forall pt c, In c (get point_eqb adj pt) -> from_element done pt c) ->
  forall pt c, In c (get point_eqb (add_element adj elem) pt) ->
               from_element (done ++ [elem]) pt c.
Proof.
  intros Hadj pt c Hc. unfold add_element in Hc.
  apply (in_get_push point_eqb point_eqb_eq) in Hc. destruct Hc as [Hc|[-> <-]].
  - apply (in_get_push point_eqb point_eqb_eq) in Hc. destruct Hc as [Hc|[-> <-]].
    + rewrite !get_ensure in Hc. destruct (Hadj pt c Hc) as (e & He & Hrest).
      exists e. split; [apply in_app_iff; left; exact He|exact Hrest].
    + exists elem. split; [apply in_app_iff; right; left; reflexivity|].
      cbn. repeat split.
  - exists elem. split; [apply in_app_iff; right; left; reflexivity|].
    cbn. repeat split.
Qed.

Lemma fold_add_element_sound (elements : list element) :
  forall done adj,
    (forall pt c, In c (get point_eqb adj pt) -> from_element done pt c) ->
    forall pt c, In c (get point_eqb (fold_left add_element elements adj) pt) ->
                 from_element (done ++ elements) pt c.
Proof.
  induction elements as [|elem elements IH]; intros done adj Hadj pt c Hc.
  - rewrite app_nil_r. apply Hadj. exact Hc.
  - cbn [fold_left] in Hc.
    replace (done ++ elem :: elements) with ((done ++ [elem]) ++ elements)
      by (rewrite <- app_assoc; reflexivity).
    apply (IH (done ++ [elem]) (add_element adj elem)); [|exact Hc].
    apply add_element_sound. exact Hadj.
Qed.

(** Every entry of the adjacency map comes from an element of the layer. *)
Lemma adjacency_sound (elements : list element) pt c :
  In c (get point_eqb (adjacency elements) pt) -> from_element elements pt c.
Proof.
  intros Hc. apply (fold_add_element_sound elements [] [] (fun _ _ H => match H with end)).
  exact Hc.
Qed.

(** Ids. *)
Lemma used_has_In used i : used_has used i = true <-> In i used.
Proof.
  unfold used_has. rewrite existsb_exists. split.
  - intros (x & Hx & E). apply Nat.eqb_eq in E. subst. exact Hx.
  - intros H. exists i. split; [exact H|apply Nat.eqb_refl].
Qed.

Lemma same_id (elements : list element) e e' :
  NoDup (map id elements) -> In e elements -> In e' elements -> id e = id e' -> e = e'.
Proof.
  induction elements as [|x elements IH]; intros Hnd He He' Hid; [destruct He|].
  cbn [map] in Hnd. apply NoDup_cons in Hnd. destruct Hnd as [Hx Hnd].
  assert (Hout : forall y, In y elements -> id y <> id x).
  { intros y Hy E. apply Hx. rewrite <- E. apply list_elem_of_In, in_map. exact Hy. }
  destruct He as [<-|He], He' as [<-|He'].
  - reflexivity.
  - elim (Hout e' He'). symmetry. exact Hid.
  - elim (Hout e He). exact Hid.
  - apply IH; assumption.
Qed.

Lemma find_id_In (elements : list element) i e :
  find (fun e => Nat.eqb (id e) i) elements = Some e -> In e elements /\ id e = i.
Proof. intros H. apply find_some in H. rewrite Nat.eqb_eq in H. exact H. Qed.

Lemma find_id (elements : list element) e :
  NoDup (map id elements) -> In e elements ->
  find (fun e' => Nat.eqb (id e') (id e)) elements = Some e.
Proof.
  intros Hnd He.
  destruct (find (fun e' => Nat.eqb (id e') (id e)) elements) as [e'|] eqn:E.
  - apply find_id_In in E. destruct E as [He' Hid]. f_equal.
    apply (same_id elements); assumption.
  - apply (find_none _ _ E) in He. rewrite Nat.eqb_refl in He. discriminate.
Qed.

Lemma elementsById_get_In (elements : list element) i e :
  elementsById_get elements i = Some e -> In e elements /\ id e = i.
Proof.
  unfold elementsById_get. intros H. apply find_id_In in H.
  rewrite <- in_rev in H. exact H.
Qed.

(** The element merged into a link of a returned path. *)
Definition link_element (elements : list element) (l : link) : option element :=
  find (fun e => Nat.eqb (id e) (link_id l)) elements.

(** [chain] leads from [a] to [b]: each link starts where the one before
    it ends, walked forwards or backwards as its flag says. *)
Fixpoint joins (elements : list element) (a : point) (chain : list link) (b : point)
  : Prop :=
  match chain with
  | [] => a = b
  | l :: rest =>
    exists e, link_element elements l = Some e /\ start_pt e (forward l) = a /\
              joins elements (end_pt e (forward l)) rest b
  end.

Lemma joins_app elements chain1 :
  forall a m chain2 b,
    joins elements a chain1 m -> joins elements m chain2 b ->
    joins elements a (chain1 ++ chain2) b.
Proof.
  induction chain1 as [|l chain1 IH]; intros a m chain2 b H1 H2.
  - cbn in H1. subst. exact H2.
  - cbn [joins app] in *. destruct H1 as (e & He & Hs & Hrest).
    exists e. split; [exact He|]. split; [exact Hs|]. eapply IH; eauto.
Qed.

(** What a link of a chain is: an element of the layer of the width of
    the chain. *)
Definition link_ok (elements : list element) (w : Z) (l : link) : Prop :=
  exists e, link_element elements l = Some e /\ In e elements /\
            width_of (data e) = w.

(** The links an extension has gained lead away from [current]
    (direction 1) or, read backwards, up to it (direction -1). *)
Definition leads (elements : list element) (direction1 : bool) (current : point)
           (new : list link) (far : point) : Prop :=
  if direction1 then joins elements current new far
  else joins elements far (rev new) current.

Lemma extend_sound (elements : list element) (w : Z) (direction1 : bool) (fuel : nat) :
  NoDup (map id elements) ->
  forall current used extensions used' extensions',
    extend fuel (adjacency elements) elements w direction1 current used extensions
    = Some (used', extensions') ->
    exists new far,
      extensions' = extensions ++ new /\
      used' = rev (map link_id new) ++ used /\
      Forall (link_ok elements w) new /\
      (NoDup used -> NoDup used') /\
      leads elements direction1 current new far.
Proof.
  intros Hnd. induction fuel as [|fuel IH];
    intros current used extensions used' extensions' H; [discriminate|].
  cbn [extend] in H.
  destruct (find (usable elements used w) (get point_eqb (adjacency elements) current))
    as [next|] eqn:Ef.
  2:{ injection H as <- <-. exists [], current. rewrite app_nil_r.
      split; [reflexivity|]. split; [reflexivity|]. split; [constructor|].
      split; [tauto|]. destruct direction1; reflexivity. }
  apply find_some in Ef. destruct Ef as [Hin Huse].
  unfold usable in Huse. apply andb_true_iff in Huse. destruct Huse as [Hfresh Hw].
  apply negb_true_iff in Hfresh.
  destruct (elementsById_get elements (conn_id next)) as [e|] eqn:Ee; [|discriminate].
  apply Z.eqb_eq in Hw. apply elementsById_get_In in Ee. destruct Ee as [He Hid].
  destruct (adjacency_sound elements current next Hin) as (e' & He' & Hid' & Hs & Hn).
  assert (e' = e) as -> by (apply (same_id elements); try assumption; congruence).
  set (l := mkLink (conn_id next)
                   (if direction1 then conn_forward next else negb (conn_forward next))) in *.
  assert (Hl : link_element elements l = Some e).
  { unfold link_element. cbn [link_id l]. rewrite <- Hid. apply find_id; assumption. }
  destruct (IH _ _ _ _ _ H) as (new & far & Hext & Hused & Hall & Hndu & Hleads).
  exists (l :: new), far. split; [rewrite Hext, <- app_assoc; reflexivity|].
  split; [rewrite Hused; cbn [map rev link_id l]; rewrite <- app_assoc; reflexivity|].
  split; [constructor; [exists e; auto|exact Hall]|].
  split.
  { intros Hu. apply Hndu. apply NoDup_cons. split; [|exact Hu].
    rewrite list_elem_of_In, <- used_has_In, Hfresh. discriminate. }
  unfold leads in *. destruct direction1.
  - cbn [joins]. exists e. split; [exact Hl|]. cbn [forward l].
    split; [exact Hs|]. rewrite Hn. exact Hleads.
  - cbn [rev]. apply (joins_app _ _ _ (neighbor next)); [exact Hleads|].
    cbn [joins]. exists e. split; [exact Hl|]. cbn [forward l].
    destruct (conn_forward next); cbn [negb start_pt end_pt] in *;
      split; [exact Hn|exact Hs|exact Hn|exact Hs].
Qed.


(** *** The [while] loop ends *)

(** The elements a chain may still take. *)
Definition unused (elements : list element) (used : list nat) : nat :=
  length (List.filter (fun e => negb (used_has used (id e))) elements).

Lemma filter_length_lt {A} (f g : A -> bool) (l : list A) (x : A) :
  (forall y, g y = true -> f y = true) ->
  In x l -> f x = true -> g x = false ->
  (length (List.filter g l) < length (List.filter f l))%nat.
Proof.
  intros Hgf. induction l as [|y l IH]; intros Hx Hfx Hgx; [destruct Hx|].
  assert (Hle : forall l', (length (List.filter g l') <= length (List.filter f l'))%nat).
  { induction l' as [|z l' IH']; [reflexivity|]. cbn [List.filter].
    destruct (g z) eqn:Eg.
    - rewrite (Hgf z Eg). cbn [length]. lia.
    - destruct (f z); cbn [length]; lia. }
  cbn [List.filter]. destruct Hx as [->|Hx].
  - rewrite Hfx, Hgx. cbn [length]. specialize (Hle l). lia.
  - specialize (IH Hx Hfx Hgx). destruct (g y) eqn:Eg.
    + rewrite (Hgf y Eg). cbn [length]. lia.
    + destruct (f y); cbn [length]; lia.
Qed.

Lemma unused_le elements used : (unused elements used <= length elements)%nat.
Proof.
  unfold unused. induction elements as [|e elements IH]; [reflexivity|].
  cbn [List.filter]. destruct (negb (used_has used (id e))); cbn [length]; lia.
Qed.

Lemma usable_uses elements used w c :
  usable elements used w c = true ->
  (unused elements (conn_id c :: used) < unused elements used)%nat.
Proof.
  unfold usable. rewrite andb_true_iff, negb_true_iff. intros [Hfresh Hw].
  destruct (elementsById_get elements (conn_id c)) as [e|] eqn:Ee; [|discriminate].
  apply elementsById_get_In in Ee. destruct Ee as [He Hid].
  unfold unused. apply (filter_length_lt _ _ elements e).
  - intros y. rewrite !negb_true_iff. unfold used_has. cbn [existsb].
    rewrite orb_false_iff. tauto.
  - exact He.
  - rewrite Hid, Hfresh. reflexivity.
  - unfold used_has. cbn [existsb]. rewrite Hid, Nat.eqb_refl. reflexivity.
Qed.

Lemma extend_total adj elements w direction1 fuel :
  forall current used extensions,
    (unused elements used < fuel)%nat ->
    exists r, extend fuel adj elements w direction1 current used extensions = Some r.
Proof.
  induction fuel as [|fuel IH]; intros current used extensions Hfuel; [lia|].
  cbn [extend].
  destruct (find (usable elements used w) (get point_eqb adj current)) as [next|] eqn:Ef;
    [|eauto].
  apply find_some in Ef. destruct Ef as [_ Huse]. apply usable_uses in Huse.
  apply IH. lia.
Qed.

(** *** Chains and paths *)

Definition decorate (elements : list element) (l : link) : path_link :=
  mkPathLink l (find (fun e => Nat.eqb (id e) (link_id l)) elements).

Definition path_ids (path : list path_link) : list nat :=
  map (fun pl => link_id (the_link pl)) path.

(** A returned path leads from [a] to [b]. *)
Fixpoint connects (a : point) (path : list path_link) (b : point) : Prop :=
  match path with
  | [] => a = b
  | pl :: rest =>
    exists e, found pl = Some e /\ start_pt e (forward (the_link pl)) = a /\
              connects (end_pt e (forward (the_link pl))) rest b
  end.

Lemma joins_connects elements chain :
  forall a b, joins elements a chain b -> connects a (map (decorate elements) chain) b.
Proof.
  induction chain as [|l chain IH]; intros a b H; [exact H|].
  cbn [joins map connects decorate found the_link] in *.
  destruct H as (e & He & Hs & Hrest). exists e. split; [exact He|].
  split; [exact Hs|]. apply IH. exact Hrest.
Qed.

(** A link of a returned path carries the element of its id, which has
    width [w]. *)
Definition path_link_ok (elements : list element) (w : Z) (pl : path_link) : Prop :=
  exists e, found pl = Some e /\ In e elements /\ id e = link_id (the_link pl) /\
            width_of (data e) = w.

Definition path_ok (elements : list element) (path : list path_link) : Prop :=
  path <> [] /\ (exists a b, connects a path b) /\
  (exists w, Forall (path_link_ok elements w) path).

Lemma link_ok_decorate elements w chain :
  Forall (link_ok elements w) chain ->
  Forall (path_link_ok elements w) (map (decorate elements) chain).
Proof.
  induction 1 as [|l chain (e & He & Hin & Hw) _ IH]; [constructor|].
  cbn [map]. constructor; [|exact IH].
  exists e. cbn [decorate found the_link]. split; [exact He|]. split; [exact Hin|].
  split; [|exact Hw]. apply find_id_In in He. tauto.
Qed.

Lemma path_ids_decorate elements chain :
  path_ids (map (decorate elements) chain) = map link_id chain.
Proof. unfold path_ids. rewrite map_map. reflexivity. Qed.

(** What the rounds of [elements.forEach(startElem => ...)] keep. *)
Definition chained (elements : list element)
           (state : list nat * list (list path_link)) : Prop :=
  NoDup state.1 /\ (forall i, In i state.1 -> In i (map id elements)) /\
  concat (map path_ids state.2) ≡ₚ state.1 /\
  Forall (path_ok elements) state.2.

Lemma start_chain_spec (elements : list element) state startElem :
  NoDup (map id elements) -> In startElem elements ->
  chained elements state ->
  exists state',
    start_chain (adjacency elements) elements state startElem = Some state' /\
    chained elements state' /\
    In (id startElem) state'.1 /\ (forall i, In i state.1 -> In i state'.1).
Proof.
  intros Hnd Hs (Hu & Hsub & Hperm & Hpaths). destruct state as [used paths].
  cbn [fst snd] in *. unfold start_chain.
  destruct (used_has used (id startElem)) eqn:Ehas.
  { exists (used, paths). split; [reflexivity|]. split; [repeat split; assumption|].
    split; [apply used_has_In; exact Ehas|tauto]. }
  set (w := width_of (data startElem)).
  set (used0 := id startElem :: used).
  assert (Hu0 : NoDup used0).
  { apply NoDup_cons. split; [|exact Hu].
    rewrite list_elem_of_In, <- used_has_In, Ehas. discriminate. }
  destruct (extend_total (adjacency elements) elements w true (S (length elements))
              (p2 startElem) used0 []) as ([used1 ext1] & E1).
  { pose proof (unused_le elements used0). lia. }
  rewrite E1.
  destruct (extend_total (adjacency elements) elements w false (S (length elements))
              (p1 startElem) used1 []) as ([used2 ext2] & E2).
  { pose proof (unused_le elements used1). lia. }
  rewrite E2.
  destruct (extend_sound elements w true _ Hnd _ _ _ _ _ E1)
    as (new1 & far1 & Hx1 & Hused1 & Hall1 & Hnd1 & Hl1).
  destruct (extend_sound elements w false _ Hnd _ _ _ _ _ E2)
    as (new2 & far2 & Hx2 & Hused2 & Hall2 & Hnd2 & Hl2).
  cbn [app] in Hx1, Hx2. subst ext1 ext2. unfold leads in Hl1, Hl2.
  set (start := mkLink (id startElem) true).
  assert (Hstart : link_element elements start = Some startElem)
    by (apply find_id; assumption).
  set (chain := rev new2 ++ [start] ++ new1).
  eexists. split; [reflexivity|].
  fold (decorate elements). cbn [fst snd].
  change (rev new2 ++ [mkLink (id startElem) true] ++ new1) with chain.
  assert (Hids : map link_id chain ≡ₚ rev (map link_id new2) ++
                                       rev (map link_id new1) ++ [id startElem]).
  { subst chain. rewrite !map_app, map_rev. cbn [map link_id start].
    apply Permutation_app_head. rewrite <- Permutation_rev.
    apply Permutation_app_comm. }
  assert (Hused2' : used2 = (rev (map link_id new2) ++ rev (map link_id new1)
                                 ++ [id startElem]) ++ used).
  { rewrite Hused2, Hused1. subst used0. rewrite <- !app_assoc. reflexivity. }
  split; [|split].
  - unfold chained. cbn [fst snd].
    split; [exact (Hnd2 (Hnd1 Hu0))|]. split; [|split].
    + intros i Hi. rewrite Hused2' in Hi. rewrite <- Hids in Hi.
      apply in_app_iff in Hi. destruct Hi as [Hi|Hi]; [|apply Hsub; exact Hi].
      apply in_map_iff in Hi. destruct Hi as (l & <- & Hl).
      assert (Hok : link_ok elements w l).
      { subst chain. rewrite !in_app_iff in Hl. rewrite <- in_rev in Hl.
        rewrite List.Forall_forall in Hall1, Hall2.
        destruct Hl as [Hl|[[<-|[]]|Hl]]; [apply Hall2; exact Hl| |apply Hall1; exact Hl].
        exists startElem. repeat split; assumption. }
      destruct Hok as (e & He & Hin & _). apply find_id_In in He.
      destruct He as [_ <-]. apply in_map. exact Hin.
    + rewrite map_app, concat_app. cbn [map concat]. rewrite app_nil_r.
      rewrite path_ids_decorate, Hused2', Hids, Hperm.
      apply Permutation_app_comm.
    + apply Forall_app. split; [exact Hpaths|]. constructor; [|constructor].
      split; [|split].
      * subst chain. destruct (rev new2); discriminate.
      * exists far2, far1. apply joins_connects. subst chain.
        apply (joins_app _ _ _ (p1 startElem)); [exact Hl2|].
        cbn [app joins]. exists startElem. split; [exact Hstart|].
        split; [reflexivity|exact Hl1].
      * exists w. apply link_ok_decorate. subst chain.
        apply Forall_app. split; [apply Forall_rev; exact Hall2|].
        constructor; [|exact Hall1]. exists startElem. repeat split; assumption.
  - rewrite Hused2'. rewrite !in_app_iff. left. right. right. left. reflexivity.
  - intros i Hi. rewrite Hused2'. apply in_app_iff. right. exact Hi.
Qed.

Lemma chains_spec (elements : list element) (rest : list element) :
  NoDup (map id elements) ->
  forall state,
    (forall e, In e rest -> In e elements) ->
    chained elements state ->
    exists used paths,
      chains (adjacency elements) elements rest state = Some paths /\
      chained elements (used, paths) /\
      (forall e, In e rest -> In (id e) used) /\
      (forall i, In i state.1 -> In i used).
Proof.
  intros Hnd. induction rest as [|startElem rest IH]; intros state Hsub Hst.
  - destruct state as [used paths]. exists used, paths.
    split; [reflexivity|]. split; [exact Hst|]. split; [intros e []|tauto].
  - cbn [chains].
    destruct (start_chain_spec elements state startElem Hnd (Hsub _ (or_introl eq_refl)) Hst)
      as (state' & -> & Hst' & Hin & Hgrow).
    destruct (IH state' (fun e He => Hsub e (or_intror He)) Hst')
      as (used & paths & -> & Hfin & Hall & Hgrow').
    exists used, paths. split; [reflexivity|]. split; [exact Hfin|].
    split; [|intros i Hi; apply Hgrow', Hgrow, Hi].
    intros e [<-|He]; [apply Hgrow'; exact Hin|apply Hall; exact He].
Qed.

(** The paths of a layer: every element is a link of exactly one path,
    and every path is a connected chain of one width. *)
Lemma layer_paths_spec (elements : list element) :
  NoDup (map id elements) ->
  exists paths,
    layer_paths elements = Some paths /\
    concat (map path_ids paths) ≡ₚ map id elements /\
    Forall (path_ok elements) paths.
Proof.
  intros Hnd. unfold layer_paths.
  destruct (chains_spec elements elements Hnd ([], []) (fun _ H => H))
    as (used & paths & -> & (Hu & Hsub & Hperm & Hok) & Hall & _).
  { split; [constructor|]. split; [intros i []|]. split; [reflexivity|constructor]. }
  cbn [fst snd] in *. exists paths. split; [reflexivity|]. split; [|exact Hok].
  rewrite Hperm. apply NoDup_Permutation; [exact Hu|exact Hnd|].
  intros i. rewrite !list_elem_of_In. split; [apply Hsub|].
  intros Hi. apply in_map_iff in Hi. destruct Hi as (e & <- & He). apply Hall. exact He.
Qed.


(** *** Grouping by layer *)

Definition all_elements (m : list (Z * list element)) : list element :=
  concat (map snd m).

(** The indices of the segments and arcs of a list of entities that
    starts at [index]. *)
Fixpoint drawable (items : list Block) (index : nat) : list nat :=
  match items with
  | [] => []
  | SEGMENT _ :: rest | ARC _ :: rest => index :: drawable rest (S index)
  | _ :: rest => drawable rest (S index)
  end.

Definition block_of (d : shape) : Block :=
  match d with
  | segment g => SEGMENT g
  | arc a => ARC a
  end.

Section Grouping.
Variable computeArcEndpoints : Arc -> point * point.
Variable all_items : list Block.

Definition ends_of (d : shape) : point * point :=
  match d with
  | segment g => ((seg_x1 g, seg_y1 g), (seg_x2 g, seg_y2 g))
  | arc a => computeArcEndpoints a
  end.

(** An element stands for the entity at the index that is its id. *)
Definition element_ok (layer : Z) (e : element) : Prop :=
  layer_of (data e) = layer /\ all_items !! id e = Some (block_of (data e)) /\
  (p1 e, p2 e) = ends_of (data e).

Definition grouped (m : list (Z * list element)) : Prop :=
  Forall (fun kv => Forall (element_ok kv.1) kv.2) m.

Lemma add_grouped (m : list (Z * list element)) (v : element) :
  grouped m -> element_ok (layer_of (data v)) v ->
  grouped (push Z.eqb (ensure Z.eqb m (layer_of (data v))) (layer_of (data v)) v) /\
  all_elements (push Z.eqb (ensure Z.eqb m (layer_of (data v))) (layer_of (data v)) v)
  ≡ₚ all_elements m ++ [v].
Proof.
  intros Hm Hv. unfold grouped, all_elements in *.
  destruct (push_ensure Z.eqb Z.eqb_eq m (layer_of (data v)) v)
    as [(pre & vs & post & -> & _ & ->)|[_ ->]].
  - apply Forall_app in Hm. destruct Hm as [Hpre Hm].
    apply Forall_cons in Hm. destruct Hm as [Hvs Hpost]. cbn [fst snd] in Hvs.
    split.
    + apply Forall_app. split; [exact Hpre|]. constructor; [|exact Hpost].
      cbn [fst snd]. apply Forall_app. split; [exact Hvs|].
      constructor; [exact Hv|constructor].
    + rewrite !map_app, !concat_app. cbn [map concat snd].
      rewrite <- !app_assoc. apply Permutation_app_head, Permutation_app_head.
      apply Permutation_app_comm.
  - split.
    + apply Forall_app. split; [exact Hm|]. constructor; [|constructor].
      cbn [fst snd]. constructor; [exact Hv|constructor].
    + rewrite map_app, concat_app. cbn [map concat snd]. rewrite app_nil_r.
      reflexivity.
Qed.

Lemma group_spec (items : list Block) :
  forall index m,
    (forall j item, items !! j = Some item -> all_items !! (index + j)%nat = Some item) ->
    grouped m ->
    grouped (group computeArcEndpoints items index m) /\
    map id (all_elements (group computeArcEndpoints items index m))
    ≡ₚ map id (all_elements m) ++ drawable items index.
Proof.
  induction items as [|item items IH]; intros index m Hat Hm.
  - cbn [group drawable]. rewrite app_nil_r. split; [exact Hm|reflexivity].
  - assert (Hhere : all_items !! index = Some item).
    { rewrite <- (Nat.add_0_r index). apply Hat. reflexivity. }
    assert (Hat' : forall j it, items !! j = Some it ->
                                all_items !! (S index + j)%nat = Some it).
    { intros j it Hj. replace (S index + j)%nat with (index + S j)%nat by lia.
      apply Hat. exact Hj. }
    assert (Hadd : forall d, block_of d = item ->
              let v := mkElement index d (ends_of d).1 (ends_of d).2 in
              grouped (group computeArcEndpoints items (S index)
                             (push Z.eqb (ensure Z.eqb m (layer_of d)) (layer_of d) v)) /\
              map id (all_elements
                        (group computeArcEndpoints items (S index)
                               (push Z.eqb (ensure Z.eqb m (layer_of d)) (layer_of d) v)))
              ≡ₚ map id (all_elements m) ++ index :: drawable items (S index)).
    { intros d Hd v.
      destruct (add_grouped m v Hm) as [Hg Hp].
      { unfold element_ok. cbn [data id p1 p2 v]. split; [reflexivity|].
        split; [rewrite Hd; exact Hhere|]. destruct (ends_of d); reflexivity. }
      cbn [data v] in Hg, Hp. destruct (IH (S index) _ Hat' Hg) as [Hg' Hp'].
      split; [exact Hg'|]. rewrite Hp', Hp, map_app. cbn [map id v].
      rewrite <- app_assoc. reflexivity. }
    destruct item; cbn [group drawable];
      try (apply IH; assumption).
    + apply (Hadd (arc a) eq_refl).
    + apply (Hadd (segment g) eq_refl).
Qed.

End Grouping.

Lemma drawable_ge items : forall index i, In i (drawable items index) -> (index <= i)%nat.
Proof.
  induction items as [|item items IH]; intros index i Hi; [destruct Hi|].
  destruct item; cbn [drawable] in Hi;
    try (apply IH in Hi; lia);
    (destruct Hi as [<-|Hi]; [lia|apply IH in Hi; lia]).
Qed.

Lemma drawable_NoDup items : forall index, NoDup (drawable items index).
Proof.
  induction items as [|item items IH]; intros index; [constructor|].
  destruct item; cbn [drawable]; try apply IH;
    (apply NoDup_cons; split; [|apply IH];
     rewrite list_elem_of_In; intros Hi; apply drawable_ge in Hi; lia).
Qed.

Lemma group_NoDup (m : list (Z * list element)) layer elements :
  NoDup (map id (all_elements m)) -> In (layer, elements) m ->
  NoDup (map id elements).
Proof.
  intros Hnd Hin. apply in_split in Hin. destruct Hin as (pre & post & ->).
  unfold all_elements in Hnd. rewrite map_app, concat_app in Hnd. cbn [map concat snd] in Hnd.
  rewrite !map_app in Hnd. apply NoDup_app in Hnd. destruct Hnd as (_ & _ & Hnd).
  apply NoDup_app in Hnd. tauto.
Qed.

(** *** All layers *)

(** A layer of the result: the paths of the group of that layer. *)
Definition layer_ok (g : Z * list element) (lp : Z * list (list path_link)) : Prop :=
  lp.1 = g.1 /\ concat (map path_ids lp.2) ≡ₚ map id g.2 /\
  Forall (path_ok g.2) lp.2.

Lemma all_layers_spec (groups : list (Z * list element)) :
  (forall layer elements, In (layer, elements) groups -> NoDup (map id elements)) ->
  exists r, all_layers groups = Some r /\ Forall2 layer_ok groups r.
Proof.
  induction groups as [|[layer elements] groups IH]; intros Hnd.
  - exists []. split; [reflexivity|constructor].
  - cbn [all_layers].
    destruct (layer_paths_spec elements (Hnd layer elements (or_introl eq_refl)))
      as (paths & -> & Hperm & Hok).
    destruct (IH (fun l es H => Hnd l es (or_intror H))) as (r & -> & Hr).
    exists ((layer, paths) :: r). split; [reflexivity|].
    constructor; [|exact Hr]. repeat split; assumption.
Qed.

Lemma layers_ids (groups : list (Z * list element)) r :
  Forall2 layer_ok groups r ->
  concat (map path_ids (concat (map snd r))) ≡ₚ map id (all_elements groups).
Proof.
  induction 1 as [|g lp groups r (_ & Hperm & _) _ IH]; [reflexivity|].
  unfold all_elements in *. cbn [map concat].
  rewrite !map_app, concat_app, Hperm, IH. reflexivity.
Qed.

Lemma layers_in (groups : list (Z * list element)) r layer paths :
  Forall2 layer_ok groups r -> In (layer, paths) r ->
  exists elements, In (layer, elements) groups /\ Forall (path_ok elements) paths.
Proof.
  induction 1 as [|[gl es] lp groups r (Hl & _ & Hok) _ IH]; intros Hin; [destruct Hin|].
  destruct Hin as [->|Hin].
  - cbn [fst snd] in *. subst gl. exists es. split; [left; reflexivity|exact Hok].
  - destruct (IH Hin) as (elements & He & Hp). exists elements.
    split; [right; exact He|exact Hp].
Qed.

Section Whole.
Variable computeArcEndpoints : Arc -> point * point.
Variable data : Board.

(** The groups of a Board, and what [optimizePaths] makes of them. *)
Lemma optimizePaths_spec :
  let groups := group computeArcEndpoints (main_data_block data) 0 [] in
  grouped computeArcEndpoints (main_data_block data) groups /\
  map id (all_elements groups) ≡ₚ drawable (main_data_block data) 0 /\
  exists r, optimizePaths computeArcEndpoints data = Some r /\
            Forall2 layer_ok groups r.
Proof.
  intros groups.
  destruct (group_spec computeArcEndpoints (main_data_block data)
              (main_data_block data) 0 []) as [Hg Hp].
  { intros j item Hj. exact Hj. }
  { constructor. }
  fold groups in Hg, Hp. cbn [all_elements map concat app] in Hp.
  split; [exact Hg|]. split; [exact Hp|].
  apply all_layers_spec. intros layer elements Hin.
  apply (group_NoDup groups layer); [|exact Hin].
  rewrite Hp. apply drawable_NoDup.
Qed.

End Whole.

End PathFacts.

Import Paths.

(** [optimizePaths] returns for every Board: each [while] loop ends
    within as many rounds as its layer has elements. *)
Theorem optimizePaths_returns
        (computeArcEndpoints : RawPCBParser.Arc -> point * point)
        (board : RawPCBParser.Board) :
  exists r, optimizePaths computeArcEndpoints board = Some r.
Proof.
  destruct (PathFacts.optimizePaths_spec computeArcEndpoints board)
    as (_ & _ & r & Hr & _).
  exists r. exact Hr.
Qed.

(** Every SEGMENT and every ARC of the Board is a link of exactly one
    path, and the paths hold nothing else: the ids of all links of all
    paths of all layers are a rearrangement of the indices of the
    segments and arcs in [main_data_block]. *)
Theorem every_segment_and_arc_is_in_one_path
        (computeArcEndpoints : RawPCBParser.Arc -> point * point)
        (board : RawPCBParser.Board) (r : list (Z * list (list path_link))) :
  optimizePaths computeArcEndpoints board = Some r ->
  concat (map PathFacts.path_ids (concat (map snd r)))
  ≡ₚ PathFacts.drawable (RawPCBParser.main_data_block board) 0.
Proof.
  intros H.
  destruct (PathFacts.optimizePaths_spec computeArcEndpoints board)
    as (_ & Hp & r' & Hr & Hall).
  rewrite H in Hr. injection Hr as <-.
  rewrite (PathFacts.layers_ids _ _ Hall). exact Hp.
Qed.

(** Every returned path is a connected chain of at least one link: each
    link, walked from [p1] to [p2] when its [forward] flag is set and
    from [p2] to [p1] otherwise, starts at the point at which the link
    before it ends. *)
Theorem paths_are_connected
        (computeArcEndpoints : RawPCBParser.Arc -> point * point)
        (board : RawPCBParser.Board) (r : list (Z * list (list path_link)))
        (layer : Z) (paths : list (list path_link)) (path : list path_link) :
  optimizePaths computeArcEndpoints board = Some r ->
  In (layer, paths) r -> In path paths ->
  path <> [] /\ exists a b, PathFacts.connects a path b.
Proof.
  intros H Hl Hp.
  destruct (PathFacts.optimizePaths_spec computeArcEndpoints board)
    as (_ & _ & r' & Hr & Hall).
  rewrite H in Hr. injection Hr as <-.
  destruct (PathFacts.layers_in _ _ _ _ Hall Hl) as (elements & _ & Hok).
  rewrite List.Forall_forall in Hok. destruct (Hok path Hp) as (Hne & Hc & _).
  split; assumption.
Qed.

(** Every link of a path filed under a layer carries the entity of
    [main_data_block] whose index is the id of the link; that entity lies
    on the layer, its end points are the ones computed for it, and all
    links of one path have the same width. *)
Theorem path_links_carry_their_entities
        (computeArcEndpoints : RawPCBParser.Arc -> point * point)
        (board : RawPCBParser.Board) (r : list (Z * list (list path_link)))
        (layer : Z) (paths : list (list path_link)) (path : list path_link) :
  optimizePaths computeArcEndpoints board = Some r ->
  In (layer, paths) r -> In path paths ->
  exists w,
    Forall (fun pl =>
              exists e, found pl = Some e /\ id e = link_id (the_link pl) /\
                        RawPCBParser.main_data_block board !! id e
                        = Some (PathFacts.block_of (data e)) /\
                        layer_of (data e) = layer /\ width_of (data e) = w /\
                        (p1 e, p2 e) = PathFacts.ends_of computeArcEndpoints (data e))
           path.
Proof.
  intros H Hl Hp.
  destruct (PathFacts.optimizePaths_spec computeArcEndpoints board)
    as (Hg & _ & r' & Hr & Hall).
  rewrite H in Hr. injection Hr as <-.
  destruct (PathFacts.layers_in _ _ _ _ Hall Hl) as (elements & Hin & Hok).
  rewrite List.Forall_forall in Hok. destruct (Hok path Hp) as (_ & _ & w & Hw).
  unfold PathFacts.grouped in Hg. rewrite List.Forall_forall in Hg.
  specialize (Hg _ Hin). cbn [fst snd] in Hg. rewrite List.Forall_forall in Hg.
  exists w. eapply Forall_impl; [exact Hw|]. cbn beta.
  intros pl (e & Hf & He & Hid & Hwe). exists e.
  destruct (Hg e He) as (Hlay & Hat & Hends). repeat split; assumption.
Qed.

(** Two layers: three segments that form a chain next to a wider
    segment that an arc continues, a via, and a segment on a layer of its
    own. *)
Definition two_layer_board : RawPCBParser.Board :=
  RawPCBParser.mkBoard
    [RawPCBParser.SEGMENT (RawPCBParser.mkSegment 1 10 0 10 10 5 1);
     RawPCBParser.SEGMENT (RawPCBParser.mkSegment 2 0 0 0 10 5 1);
     RawPCBParser.SEGMENT (RawPCBParser.mkSegment 1 0 0 10 0 5 1);
     RawPCBParser.VIA (RawPCBParser.mkVia 10 20 5 3 1 2 9 []);
     RawPCBParser.SEGMENT (RawPCBParser.mkSegment 1 0 0 0 10 5 1);
     RawPCBParser.SEGMENT (RawPCBParser.mkSegment 1 10 10 20 10 7 1);
     RawPCBParser.ARC (RawPCBParser.mkArc 1 10 10 10 0 900000 7 1)].

(** A stand-in for [computeArcEndpoints]: a quarter circle. *)
Definition quarter_arc (a : RawPCBParser.Arc) : point * point :=
  ((RawPCBParser.arc_x1 a + RawPCBParser.arc_r a, RawPCBParser.arc_y1 a),
   (RawPCBParser.arc_x1 a, RawPCBParser.arc_y1 a + RawPCBParser.arc_r a)).

Definition two_layer_paths : list (Z * list (list path_link)) :=
  default [] (optimizePaths quarter_arc two_layer_board).

Example two_layer_paths_ids :
  map (fun lp => (lp.1, map (map (fun pl => (link_id (the_link pl), forward (the_link pl)))) lp.2))
      two_layer_paths
  = [(1, [[(4%nat, false); (2%nat, true); (0%nat, true)];
          [(5%nat, true); (6%nat, true)]]);
     (2, [[(1%nat, true)]])].
Proof. vm_compute. reflexivity. Qed.

Lemma every_segment_and_arc_is_in_one_path_witness :
  concat (map PathFacts.path_ids (concat (map snd two_layer_paths)))
  ≡ₚ PathFacts.drawable (RawPCBParser.main_data_block two_layer_board) 0.
Proof.
  apply (every_segment_and_arc_is_in_one_path quarter_arc two_layer_board two_layer_paths).
  vm_compute. reflexivity.
Defined.

Lemma paths_are_connected_witness :
  hd [] (hd [] (map snd two_layer_paths)) <> [] /\
  exists a b, PathFacts.connects a (hd [] (hd [] (map snd two_layer_paths))) b.
Proof.
  apply (paths_are_connected quarter_arc two_layer_board two_layer_paths 1
           (hd [] (map snd two_layer_paths))
           (hd [] (hd [] (map snd two_layer_paths)))).
  - vm_compute. reflexivity.
  - vm_compute. left. reflexivity.
  - vm_compute. left. reflexivity.
Defined.

Lemma path_links_carry_their_entities_witness :
  exists w,
    Forall (fun pl =>
              exists e, found pl = Some e /\ id e = link_id (the_link pl) /\
                        RawPCBParser.main_data_block two_layer_board !! id e
                        = Some (PathFacts.block_of (data e)) /\
                        layer_of (data e) = 1 /\ width_of (data e) = w /\
                        (p1 e, p2 e) = PathFacts.ends_of quarter_arc (data e))
           (hd [] (hd [] (map snd two_layer_paths))).
Proof.
  apply (path_links_carry_their_entities quarter_arc two_layer_board two_layer_paths 1
           (hd [] (map snd two_layer_paths))
           (hd [] (hd [] (map snd two_layer_paths)))).
  - vm_compute. reflexivity.
  - vm_compute. left. reflexivity.
  - vm_compute. left. reflexivity.
Defined.

From stdpp Require Import sorting.
Local Open Scope Z_scope.

(** * render_layers.js: the layer buttons of [renderSegments]

    [renderSegments] draws into the page; what it computes before it
    does, from the entities alone, is the list of layers, the numbering
    of the populated copper layers and the label of each layer button,
    the buttons its loop over [layers] appends with a [data-layer]
    attribute. *)

Module Layers.
Import RawPCBParser.

Definition SILKSCREEN_LAYER : Z := 17.
Definition OUTLINE_LAYER : Z := 28.
Definition PART_OUTLINES_LAYER : Z := 29.

(** [raw.filter(d => d.SEGMENT).map(d => d.SEGMENT)], and the like. *)
Definition segments (raw : list Block) : list Segment :=
  flat_map (fun d => match d with SEGMENT g => [g] | _ => [] end) raw.
Definition arcs (raw : list Block) : list Arc :=
  flat_map (fun d => match d with ARC a => [a] | _ => [] end) raw.
Definition vias (raw : list Block) : list Via :=
  flat_map (fun d => match d with VIA v => [v] | _ => [] end) raw.

(** [[...new Set(l)]]: the first occurrence of each number, in order. *)
Fixpoint set_of (seen : list Z) (l : list Z) : list Z :=
  match l with
  | [] => []
  | x :: rest =>
    if existsb (Z.eqb x) seen then set_of seen rest else x :: set_of (x :: seen) rest
  end.

(** [.sort((a, b) => a - b)]: the ascending arrangement, whichever
    algorithm the engine uses. *)
Definition sort_numbers (l : list Z) : list Z := merge_sort Z.le l.

Definition layers (raw : list Block) : list Z :=
  sort_numbers
    (set_of [] (map seg_layer (segments raw) ++ map arc_layer (arcs raw) ++
                flat_map (fun v => [layer_a_index v; layer_b_index v]) (vias raw) ++
                [PART_OUTLINES_LAYER])).

Definition populatedLayers (raw : list Block) : list Z :=
  sort_numbers
    (List.filter (fun l => negb (l =? OUTLINE_LAYER) && negb (l =? SILKSCREEN_LAYER)
                           && (l <=? 16))
                 (set_of [] (map seg_layer (segments raw) ++ map arc_layer (arcs raw)))).

(** [populatedLayers.map((l, i) => [l, i + 1])], from index [i]. *)
Fixpoint entries (i : Z) (l : list Z) : list (Z * Z) :=
  match l with
  | [] => []
  | x :: rest => (x, i + 1) :: entries (i + 1) rest
  end.

(** [Object.fromEntries(...)] as the list of its entries, and
    [displayMap[layer]]: a later entry for a key replaces an earlier one;
    [None] is [undefined]. *)
Definition displayMap (raw : list Block) : list (Z * Z) := entries 0 (populatedLayers raw).

Definition displayMap_get (displayMap : list (Z * Z)) (layer : Z) : option Z :=
  match find (fun kv => kv.1 =? layer) (rev displayMap) with
  | Some kv => Some kv.2
  | None => None
  end.

(** The labels: ['Outlines'], ['Silkscreen'], ['Part Outlines'] and
    [`Layer ${n}`], which reads "Layer undefined" for [None]. *)
Inductive label : Type :=
| Outlines
| Silkscreen
| Part_Outlines
| Layer (n : option Z).

Definition getLayerDisplayName (layer : Z) (displayMap : list (Z * Z)) : label :=
  if layer =? OUTLINE_LAYER then Outlines
  else if layer =? SILKSCREEN_LAYER then Silkscreen
  else if layer =? PART_OUTLINES_LAYER then Part_Outlines
  else if 16 <? layer then Layer (Some layer)
  else Layer (displayMap_get displayMap layer).

(** The layer buttons, in the order in which they are appended.
    [renderSegments] returns before it creates any when the board has no
    segment, arc or via; a layer up to 16 without a number gets none. *)
Definition layer_buttons (raw : list Block) : list (Z * label) :=
  if (length (segments raw) =? 0)%nat && (length (arcs raw) =? 0)%nat
     && (length (vias raw) =? 0)%nat
  then []
  else
    flat_map (fun layer =>
                if negb (layer =? OUTLINE_LAYER) && negb (layer =? SILKSCREEN_LAYER)
                   && (match displayMap_get (displayMap raw) layer with
                       | Some n => n =? 0
                       | None => true
                       end)
                   && (layer <=? 16)
                then []
                else [(layer, getLayerDisplayName layer (displayMap raw))])
             (layers raw).

End Layers.

Module LayerFacts.
Import RawPCBParser Layers.

Lemma set_of_In (l : list Z) :
  forall seen x, In x (set_of seen l) <-> In x l /\ ~ In x seen.
Proof.
  induction l as [|y l IH]; intros seen x; [cbn; tauto|].
  cbn [set_of]. destruct (existsb (Z.eqb y) seen) eqn:E.
  - apply existsb_exists in E. destruct E as (z & Hz & Ez). apply Z.eqb_eq in Ez. subst z.
    rewrite IH. cbn [In]. split; [tauto|]. intros [[->|H] Hn]; [contradiction|tauto].
  - assert (Hy : ~ In y seen).
    { intros H. assert (existsb (Z.eqb y) seen = true); [|congruence].
      apply existsb_exists. exists y. split; [exact H|apply Z.eqb_refl]. }
    cbn [In]. rewrite IH. cbn [In]. split.
    + intros [<-|[H Hn]]; [tauto|]. tauto.
    + intros [[<-|H] Hn]; [tauto|]. destruct (Z.eq_dec y x) as [->|Hne]; [tauto|tauto].
Qed.

Lemma set_of_NoDup (l : list Z) : forall seen, NoDup (set_of seen l).
Proof.
  induction l as [|y l IH]; intros seen; [constructor|].
  cbn [set_of]. destruct (existsb (Z.eqb y) seen); [apply IH|].
  apply list.NoDup_cons. split; [|apply IH].
  rewrite list_elem_of_In, set_of_In. cbn [In]. tauto.
Qed.

Lemma filter_NoDup (f : Z -> bool) (l : list Z) : NoDup l -> NoDup (List.filter f l).
Proof.
  induction 1 as [|x l Hx _ IH]; [constructor|].
  cbn [List.filter]. destruct (f x); [|exact IH].
  apply list.NoDup_cons. split; [|exact IH].
  rewrite list_elem_of_In, filter_In, <- list_elem_of_In. tauto.
Qed.

Lemma sorted_strictly (l : list Z) :
  StronglySorted Z.le l -> NoDup l -> StronglySorted Z.lt l.
Proof.
  induction 1 as [|x l _ IH Hall]; intros Hnd; [constructor|].
  apply list.NoDup_cons in Hnd. destruct Hnd as [Hx Hnd].
  constructor; [apply IH; exact Hnd|].
  rewrite List.Forall_forall in *. intros y Hy. specialize (Hall y Hy).
  assert (x <> y) by (intros ->; apply Hx, list_elem_of_In, Hy). lia.
Qed.

Lemma sort_numbers_In (l : list Z) x : In x (sort_numbers l) <-> In x l.
Proof.
  unfold sort_numbers. rewrite <- !list_elem_of_In.
  rewrite (merge_sort_Permutation Z.le l). reflexivity.
Qed.

Lemma sort_numbers_sorted (l : list Z) :
  NoDup l -> StronglySorted Z.lt (sort_numbers l).
Proof.
  intros Hnd. apply sorted_strictly.
  - apply StronglySorted_merge_sort; apply _.
  - unfold sort_numbers. rewrite (merge_sort_Permutation Z.le l). exact Hnd.
Qed.

Lemma segments_In raw g : In g (segments raw) <-> In (SEGMENT g) raw.
Proof.
  unfold segments. rewrite in_flat_map. split.
  - intros (d & Hd & Hg). destruct d; cbn in Hg; try contradiction.
    destruct Hg as [<-|[]]. exact Hd.
  - intros H. exists (SEGMENT g). split; [exact H|left; reflexivity].
Qed.

Lemma arcs_In raw a : In a (arcs raw) <-> In (ARC a) raw.
Proof.
  unfold arcs. rewrite in_flat_map. split.
  - intros (d & Hd & Hg). destruct d; cbn in Hg; try contradiction.
    destruct Hg as [<-|[]]. exact Hd.
  - intros H. exists (ARC a). split; [exact H|left; reflexivity].
Qed.

(** A layer that holds a segment or an arc. *)
Definition drawn_on (raw : list Block) (l : Z) : Prop :=
  (exists g, In (SEGMENT g) raw /\ seg_layer g = l) \/
  (exists a, In (ARC a) raw /\ arc_layer a = l).

Lemma populatedLayers_In raw l :
  In l (populatedLayers raw) <->
  drawn_on raw l /\ l <> OUTLINE_LAYER /\ l <> SILKSCREEN_LAYER /\ l <= 16.
Proof.
  unfold populatedLayers. rewrite sort_numbers_In, filter_In, set_of_In.
  rewrite !andb_true_iff, !negb_true_iff, !Z.eqb_neq, Z.leb_le.
  rewrite in_app_iff, !in_map_iff. unfold drawn_on.
  setoid_rewrite segments_In. setoid_rewrite arcs_In. cbn [In].
  split.
  - intros [[[(g & <- & Hg)|(a & <- & Ha)] _] ((? & ?) & ?)]; repeat split; eauto.
  - intros ([(g & Hg & <-)|(a & Ha & <-)] & ? & ? & ?); repeat split; eauto.
Qed.

Lemma populatedLayers_sorted raw : StronglySorted Z.lt (populatedLayers raw).
Proof.
  unfold populatedLayers. apply sort_numbers_sorted, filter_NoDup, set_of_NoDup.
Qed.

Lemma entries_In (l : list Z) :
  forall j k v,
    In (k, v) (entries j l) <-> exists i, l !! i = Some k /\ v = j + Z.of_nat i + 1.
Proof.
  induction l as [|x l IH]; intros j k v.
  - cbn. split; [tauto|]. intros (i & Hi & _). discriminate.
  - specialize (IH (j + 1) k v). cbn [entries In]. split.
    + intros [E|Hin].
      * injection E as <- <-. exists 0%nat. split; [reflexivity|lia].
      * apply IH in Hin. destruct Hin as (i & Hi & ->).
        exists (S i). split; [exact Hi|lia].
    + intros ([|i] & Hi & ->).
      * left. cbn in Hi. injection Hi as ->. f_equal. lia.
      * right. apply IH. exists i. split; [exact Hi|lia].
Qed.

Lemma sorted_lookup_inj (l : list Z) :
  StronglySorted Z.lt l ->
  forall i j x, l !! i = Some x -> l !! j = Some x -> i = j.
Proof.
  induction 1 as [|y l _ IH Hall]; intros i j x Hi Hj; [discriminate|].
  rewrite List.Forall_forall in Hall.
  destruct i as [|i], j as [|j]; cbn in Hi, Hj.
  - reflexivity.
  - injection Hi as ->. apply list_elem_of_lookup_2, list_elem_of_In, Hall in Hj. lia.
  - injection Hj as ->. apply list_elem_of_lookup_2, list_elem_of_In, Hall in Hi. lia.
  - f_equal. eapply IH; eauto.
Qed.

Lemma displayMap_get_Some raw layer n :
  displayMap_get (displayMap raw) layer = Some n ->
  exists i, populatedLayers raw !! i = Some layer /\ n = Z.of_nat i + 1.
Proof.
  unfold displayMap_get, displayMap.
  destruct (find _ _) as [[k v]|] eqn:E; [|discriminate].
  intros [= <-]. apply find_some in E. destruct E as [Hin Hk].
  cbn [fst snd] in *. apply Z.eqb_eq in Hk. subst k.
  rewrite <- in_rev in Hin. apply entries_In in Hin.
  destruct Hin as (i & Hi & ->). exists i. split; [exact Hi|lia].
Qed.












End LayerFacts.

Import Layers.

(** The populated copper layers are the layers up to 16 that hold a
    segment or an arc, in strictly ascending order, and [displayMap]
    numbers them 1, 2, 3, ... in that order. *)
Theorem populatedLayers_are_numbered_in_order (raw : list RawPCBParser.Block) :
  StronglySorted Z.lt (populatedLayers raw) /\
  (forall l, In l (populatedLayers raw) <->
             LayerFacts.drawn_on raw l /\ l <> OUTLINE_LAYER /\
             l <> SILKSCREEN_LAYER /\ l <= 16) /\
  (forall i l, populatedLayers raw !! i = Some l ->
               displayMap_get (displayMap raw) l = Some (Z.of_nat i + 1)).
Proof.
  split; [apply LayerFacts.populatedLayers_sorted|].
  split; [apply LayerFacts.populatedLayers_In|].
  intros i l Hi.
  destruct (displayMap_get (displayMap raw) l) as [n|] eqn:E.
  - apply LayerFacts.displayMap_get_Some in E. destruct E as (j & Hj & ->).
    rewrite (LayerFacts.sorted_lookup_inj _ (LayerFacts.populatedLayers_sorted raw)
               i j l Hi Hj). reflexivity.
  - exfalso. unfold displayMap_get, displayMap in E.
    destruct (find _ _) as [kv|] eqn:Ef; [discriminate|].
    assert (Hin : In (l, Z.of_nat i + 1) (rev (entries 0 (populatedLayers raw)))).
    { rewrite <- in_rev. apply LayerFacts.entries_In. exists i. split; [exact Hi|lia]. }
    apply (find_none _ _ Ef) in Hin. cbn [fst] in Hin.
    rewrite Z.eqb_refl in Hin. discriminate.
Qed.


(** Segments on the layers 3, 1 and 20, a via between 2 and 16 and an arc
    on the silkscreen. *)
Definition some_layers : list RawPCBParser.Block :=
  [RawPCBParser.SEGMENT (RawPCBParser.mkSegment 3 0 0 1 1 5 1);
   RawPCBParser.SEGMENT (RawPCBParser.mkSegment 1 0 0 1 1 5 1);
   RawPCBParser.VIA (RawPCBParser.mkVia 0 0 5 3 2 16 1 []);
   RawPCBParser.ARC (RawPCBParser.mkArc 17 0 0 1 0 0 5 1);
   RawPCBParser.SEGMENT (RawPCBParser.mkSegment 3 0 0 1 1 5 1);
   RawPCBParser.SEGMENT (RawPCBParser.mkSegment 20 0 0 1 1 5 1)].

Example some_layers_buttons :
  layer_buttons some_layers
  = [(1, Layer (Some 1)); (3, Layer (Some 2)); (17, Silkscreen);
     (20, Layer (Some 20)); (29, Part_Outlines)].
Proof. vm_compute. reflexivity. Qed.

(** Texts and parts alone are not drawable: no button, not even the one
    of the part-outline layer. *)
Example no_drawable_no_buttons :
  layer_buttons [RawPCBParser.TEXT (RawPCBParser.mkText 0 0 0 0 0 0 0 0 [])] = [].
Proof. vm_compute. reflexivity. Qed.
